(** * Attention-based sequence-to-sequence translator: model and properties

    Shallow embedding of [scripts/seq2seq_attention.py]: the encoder, the
    attention scorer, the attention decoder step, the teacher-forcing driver
    and the loss computation of the training and evaluation loops.  The
    layers are functions of their module object; [InPlace] has the
    evaluation loop on a heap in which the model is an object that calls
    change in place.

    Tensors are nested lists (outermost list = dimension 0).  The element
    type is left abstract behind the [Scalar] interface, so that everything
    about shapes and control flow holds for any arithmetic; the properties
    of the softmax normalisation are proved for the real numbers. *)

From Stdlib Require Import QArith Reals Lra Lia.
From stdpp Require Import base option list.

Local Open Scope nat_scope.

(** ** Scalars *)

(** The arithmetic the script uses on tensor elements. *)
Class Scalar (F : Type) := {
  s0 : F;
  s1 : F;
  sadd : F -> F -> F;
  ssub : F -> F -> F;
  smul : F -> F -> F;
  sdiv : F -> F -> F;
  sexp : F -> F;
  slog : F -> F;
  stanh : F -> F;
  ssigmoid : F -> F;
  sltb : F -> F -> bool;
  sofnat : nat -> F
}.

(** The real numbers as scalars. *)
Definition Rltb (x y : R) : bool := if Rlt_dec x y then true else false.

#[global] Instance R_Scalar : Scalar R := {|
  s0 := 0%R;
  s1 := 1%R;
  sadd := Rplus;
  ssub := Rminus;
  smul := Rmult;
  sdiv := Rdiv;
  sexp := exp;
  slog := ln;
  stanh := tanh;
  ssigmoid := fun x => (1 / (1 + exp (- x)))%R;
  sltb := Rltb;
  sofnat := INR
|}.

(** ** Shapes of nested lists *)

Definition dim0 {A} (t : list A) : nat := length t.
Definition dim1 {A} (t : list (list A)) : nat := length (default [] (head t)).

Definition mat_shape {A} (n m : nat) (M : list (list A)) : Prop :=
  length M = n ∧ Forall (λ r, length r = m) M.

Definition t3_shape {A} (a b c : nat) (T : list (list (list A))) : Prop :=
  length T = a ∧ Forall (mat_shape b c) T.

#[global] Instance mat_shape_dec {A} n m (M : list (list A)) :
  Decision (mat_shape n m M).
Proof. unfold mat_shape. apply _. Defined.

#[global] Instance t3_shape_dec {A} a b c (T : list (list (list A))) :
  Decision (t3_shape a b c T).
Proof. unfold t3_shape. apply _. Defined.

(** A token tensor (sequence length × batch size) whose ids are below [V]. *)
Definition tokens_in (V : nat) (toks : list nat) : Prop := Forall (λ i, i < V) toks.

(** ** Tensor operations of the torch library used by the script *)

(** [t.permute(1, 0, ...)]: exchange of the two outer dimensions; [cols] is
    [t.shape[1]], which a nested list does not record when [t.shape[0] = 0]. *)
Fixpoint transpose {A} (cols : nat) (m : list (list A)) : list (list A) :=
  match m with
  | [] => replicate cols []
  | r :: m' => zip_with cons r (transpose cols m')
  end.

Section TensorOps.
Context {F : Type} {SF : Scalar F}.

(** [torch.sum] along one axis. *)
Definition vsum (v : list F) : F := foldr sadd s0 v.

Definition dot (a b : list F) : F := vsum (zip_with smul a b).

(** [torch.zeros]. *)
Definition zeros1 (n : nat) : list F := replicate n s0.
Definition zeros2 (n m : nat) : list (list F) := replicate n (zeros1 m).
Definition zeros3 (a b c : nat) : list (list (list F)) := replicate a (zeros2 b c).

(** [torch.cat] of two tensors along the last dimension: the other
    dimensions have to agree. *)
Definition cat_rows (a b : list (list F)) : option (list (list F)) :=
  if decide (length a = length b) then Some (zip_with app a b) else None.

Definition cat_mats (a b : list (list (list F))) : option (list (list (list F))) :=
  if decide (Forall2 (λ x y, length x = length y) a b)
  then Some (zip_with (zip_with app) a b) else None.

(** [torch.cat(ts, dim = 1)] on 2-d tensors and [torch.cat(ts, dim = 2)] on
    3-d tensors. *)
Definition torch_cat1 (ts : list (list (list F))) : option (list (list F)) :=
  match ts with
  | [] => None
  | t :: ts' => foldl (λ acc u, a ← acc; cat_rows a u) (Some t) ts'
  end.

Definition torch_cat2 (ts : list (list (list (list F)))) : option (list (list (list F))) :=
  match ts with
  | [] => None
  | t :: ts' => foldl (λ acc u, a ← acc; cat_mats a u) (Some t) ts'
  end.

(** [t.unsqueeze(1)] on a 2-d tensor and [t.unsqueeze(0)]. *)
Definition unsqueeze1 {A} (t : list A) : list (list A) := map (λ v, [v]) t.
Definition unsqueeze0 {A} (t : A) : list A := [t].

(** [t.squeeze(0)] on a tensor whose dimension 0 has size 1, which is the
    only way the script uses it. *)
Definition squeeze0 {A} (t : list (list A)) : option (list A) :=
  match t with
  | [x] => Some x
  | _ => None
  end.

(** [t.repeat(1, n, 1)] on a 3-d tensor. *)
Definition repeat1 {A} (n : nat) (t : list (list A)) : list (list A) :=
  map (λ rows, concat (replicate n rows)) t.

Definition permute102 {A} (d1 : nat) (t : list (list A)) : list (list A) :=
  transpose d1 t.

(** Matrix product, [torch.bmm] on batches of matrices. *)
Definition vecmat (r : list F) (B : list (list F)) : list F :=
  map (dot r) (transpose (dim1 B) B).

Definition matmul (A B : list (list F)) : option (list (list F)) :=
  if decide (Forall (λ r, length r = length B) A)
  then Some (map (λ r, vecmat r B) A) else None.

Definition bmm (a b : list (list (list F))) : option (list (list (list F))) :=
  if decide (length a = length b)
  then mapM (λ p, matmul p.1 p.2) (zip a b) else None.

(** [F.softmax] along the last axis, and the logarithm of it. *)
Definition softmax (v : list F) : list F :=
  let e := map sexp v in map (λ x, sdiv x (vsum e)) e.

Definition log_softmax (v : list F) : list F :=
  let lse := slog (vsum (map sexp v)) in map (λ x, ssub x lse) v.

(** [t.max(1)[1]] on one row: the index of the first largest element; an
    empty row has no maximum. *)
Fixpoint argmax_from (best_i : nat) (best : F) (i : nat) (v : list F) : nat :=
  match v with
  | [] => best_i
  | x :: v' =>
      if sltb best x then argmax_from i x (S i) v'
      else argmax_from best_i best (S i) v'
  end.

Definition argmax (v : list F) : option nat :=
  match v with
  | [] => None
  | x :: v' => Some (argmax_from 0 x 1 v')
  end.

Definition max1_indices (t : list (list F)) : option (list nat) := mapM argmax t.
End TensorOps.

(** ** Effects: random generators and the trace of calls *)

(** A value [random.random()] can return: a float in the interval [0, 1).
    Floats are dyadic rationals, and comparing them is exact. *)
Record unit_float := {
  uf_val : Q;
  uf_range : (0 <= uf_val)%Q ∧ (uf_val < 1)%Q
}.

Definition Qltb (x y : Q) : bool := negb (Qle_bool y x).

(** What a run does, in order.  The trace is not data of the script: the
    model records in it each call of the driver (on entry, with its ratio
    and the gradient mode), of the encoder (on entry), of the decoder step
    (on return, with its input and the logits it returns) and of
    [random.random()], so that statements can speak about the calls. *)
Inductive Event (F : Type) :=
  | EvDriver (teacher_forcing_ratio : Q) (grad_enabled : bool)
  | EvEncoder (src : list (list nat))
  | EvDecoder (input : list nat) (logits : list (list F))
  | EvRandom (draw : Q).
Arguments EvDriver {F}.
Arguments EvEncoder {F}.
Arguments EvDecoder {F}.
Arguments EvRandom {F}.

(** The ambient state of the interpreter: the stream of Python's [random]
    generator and how far it has been consumed, the stream of Bernoulli
    outcomes of torch's generator (used by dropout), whether gradients are
    being recorded, and the trace. *)
Record World (F : Type) := {
  py_random : nat -> unit_float;
  py_pos : nat;
  torch_bernoulli : nat -> bool;
  torch_pos : nat;
  grad_enabled : bool;
  trace : list (Event F)
}.
Arguments py_random {F}.
Arguments py_pos {F}.
Arguments torch_bernoulli {F}.
Arguments torch_pos {F}.
Arguments grad_enabled {F}.
Arguments trace {F}.

(** Computations that read and write the world and may raise. *)
Definition M (F A : Type) : Type := World F -> option (A * World F).

Definition ret {F A} (a : A) : M F A := λ w, Some (a, w).

Definition bind {F A B} (m : M F A) (k : A -> M F B) : M F B :=
  λ w, match m w with
       | Some (a, w') => k a w'
       | None => None
       end.

Definition lift {F A} (o : option A) : M F A :=
  λ w, match o with
       | Some a => Some (a, w)
       | None => None
       end.

Notation "'let*' x := m 'in' k" := (bind m (λ x, k))
  (at level 10, x name, m at level 100, k at level 200, only parsing).
Notation "'let*' ' pat := m 'in' k" := (bind m (λ x, match x with pat => k end))
  (at level 10, pat pattern, m at level 100, k at level 200, only parsing).

Definition emit {F} (e : Event F) : M F unit :=
  λ w, Some (tt, {| py_random := py_random w; py_pos := py_pos w;
                    torch_bernoulli := torch_bernoulli w; torch_pos := torch_pos w;
                    grad_enabled := grad_enabled w; trace := trace w ++ [e] |}).

(** [random.random()]. *)
Definition random_random {F} : M F Q :=
  λ w, let d := uf_val (py_random w (py_pos w)) in
       Some (d, {| py_random := py_random w; py_pos := S (py_pos w);
                   torch_bernoulli := torch_bernoulli w; torch_pos := torch_pos w;
                   grad_enabled := grad_enabled w;
                   trace := trace w ++ [EvRandom d] |}).

(** One Bernoulli outcome of torch's generator. *)
Definition torch_draw {F} : M F bool :=
  λ w, Some (torch_bernoulli w (torch_pos w),
             {| py_random := py_random w; py_pos := py_pos w;
                torch_bernoulli := torch_bernoulli w; torch_pos := S (torch_pos w);
                grad_enabled := grad_enabled w; trace := trace w |}).

Definition set_grad_enabled {F} (b : bool) : M F unit :=
  λ w, Some (tt, {| py_random := py_random w; py_pos := py_pos w;
                    torch_bernoulli := torch_bernoulli w; torch_pos := torch_pos w;
                    grad_enabled := b; trace := trace w |}).

Definition get_grad_enabled {F} : M F bool := λ w, Some (grad_enabled w, w).

(** Monadic map and left fold over a list. *)
Fixpoint mapM_st {F A B} (f : A -> M F B) (l : list A) : M F (list B) :=
  match l with
  | [] => ret []
  | x :: l' => let* y := f x in let* ys := mapM_st f l' in ret (y :: ys)
  end.

Fixpoint foldM {F A S} (f : S -> A -> M F S) (s : S) (l : list A) : M F S :=
  match l with
  | [] => ret s
  | x :: l' => let* s' := f s x in foldM f s' l'
  end.

(** ** The torch.nn layers the script instantiates *)

(** [nn.Linear(in_features, out_features)]: [y = x W^T + b]. *)
Module Linear.
Record t (F : Type) := {
  in_features : nat;
  out_features : nat;
  weight : list (list F);
  bias : list F
}.
Arguments in_features {F}.
Arguments out_features {F}.
Arguments weight {F}.
Arguments bias {F}.

Section Forward.
Context {F : Type} {SF : Scalar F}.

Definition wf (self : t F) : Prop :=
  mat_shape (out_features self) (in_features self) (weight self)
  ∧ length (bias self) = out_features self.

(** On one feature vector; a vector of another size is refused. *)
Definition forward (self : t F) (x : list F) : option (list F) :=
  if decide (length x = in_features self)
  then Some (zip_with (λ row b, sadd (dot x row) b) (weight self) (bias self))
  else None.

(** On tensors with one or two leading dimensions. *)
Definition forward2 (self : t F) (x : list (list F)) : option (list (list F)) :=
  mapM (forward self) x.

Definition forward3 (self : t F) (x : list (list (list F))) :
    option (list (list (list F))) :=
  mapM (forward2 self) x.
End Forward.
End Linear.

(** [nn.Embedding(num_embeddings, embedding_dim)]: a table lookup; an index
    outside the table is refused. *)
Module Embedding.
Record t (F : Type) := {
  num_embeddings : nat;
  embedding_dim : nat;
  weight : list (list F)
}.
Arguments num_embeddings {F}.
Arguments embedding_dim {F}.
Arguments weight {F}.

Section Forward.
Context {F : Type}.

Definition wf (self : t F) : Prop :=
  mat_shape (num_embeddings self) (embedding_dim self) (weight self).

Definition forward (self : t F) (i : nat) : option (list F) := weight self !! i.

Definition forward2 (self : t F) (x : list (list nat)) :
    option (list (list (list F))) :=
  mapM (mapM (forward self)) x.
End Forward.
End Embedding.

(** [nn.Dropout(p)]: the identity in evaluation mode; in training mode every
    element is multiplied by a noise that is [1 / (1 - p)] when the element
    is kept and [0] when it is dropped, one Bernoulli outcome per element. *)
Module Dropout.
Record t (F : Type) := {
  p : F;
  training : bool
}.
Arguments p {F}.
Arguments training {F}.

Section Forward.
Context {F : Type} {SF : Scalar F}.

Definition noise (self : t F) (keep : bool) : F :=
  if keep then sdiv s1 (ssub s1 (p self)) else s0.

Definition forward_elem (self : t F) (x : F) : M F F :=
  let* keep := torch_draw in
  ret (smul x (noise self keep)).

Definition forward3 (self : t F) (x : list (list (list F))) :
    M F (list (list (list F))) :=
  if training self
  then mapM_st (mapM_st (mapM_st (forward_elem self))) x
  else ret x.

Definition eval (self : t F) : t F := {| p := p self; training := false |}.
End Forward.
End Dropout.

(** [nn.GRU(input_size, hidden_size, bidirectional = ...)] with one layer.
    [ih] holds [weight_ih_l0] and [bias_ih_l0] (3·hidden × input), [hh] holds
    [weight_hh_l0] and [bias_hh_l0] (3·hidden × hidden); the three chunks of
    their outputs are the reset, update and new gates. *)
Module GRU.
Record layer (F : Type) := {
  ih : Linear.t F;
  hh : Linear.t F
}.
Arguments ih {F}.
Arguments hh {F}.

Record t (F : Type) := {
  input_size : nat;
  hidden_size : nat;
  l0 : layer F;
  l0_reverse : option (layer F)      (* present iff bidirectional *)
}.
Arguments input_size {F}.
Arguments hidden_size {F}.
Arguments l0 {F}.
Arguments l0_reverse {F}.

Section Forward.
Context {F : Type} {SF : Scalar F}.

Definition layer_wf (I H : nat) (l : layer F) : Prop :=
  Linear.wf (ih l) ∧ Linear.in_features (ih l) = I
  ∧ Linear.out_features (ih l) = 3 * H
  ∧ Linear.wf (hh l) ∧ Linear.in_features (hh l) = H
  ∧ Linear.out_features (hh l) = 3 * H.

Definition wf (self : t F) : Prop :=
  layer_wf (input_size self) (hidden_size self) (l0 self)
  ∧ ∀ r, l0_reverse self = Some r →
         layer_wf (input_size self) (hidden_size self) r.

Definition num_directions (self : t F) : nat :=
  match l0_reverse self with
  | Some _ => 2
  | None => 1
  end.

(** One step on one batch element:
    r = σ(W_ir x + b_ir + W_hr h + b_hr),
    z = σ(W_iz x + b_iz + W_hz h + b_hz),
    n = tanh(W_in x + b_in + r ⊙ (W_hn h + b_hn)),
    h' = (1 - z) ⊙ n + z ⊙ h. *)
Definition cell (H : nat) (l : layer F) (x h : list F) : option (list F) :=
  gi ← Linear.forward (ih l) x;
  gh ← Linear.forward (hh l) h;
  let i_r := take H gi in
  let i_z := take H (drop H gi) in
  let i_n := drop (2 * H) gi in
  let h_r := take H gh in
  let h_z := take H (drop H gh) in
  let h_n := drop (2 * H) gh in
  let r := zip_with (λ a b, ssigmoid (sadd a b)) i_r h_r in
  let z := zip_with (λ a b, ssigmoid (sadd a b)) i_z h_z in
  let n := zip_with (λ a b, stanh (sadd a b)) i_n (zip_with smul r h_n) in
  Some (zip_with sadd (zip_with (λ zj nj, smul (ssub s1 zj) nj) z n)
                      (zip_with smul z h)).

(** One step on a batch. *)
Definition step (H : nat) (l : layer F) (x h : list (list F)) :
    option (list (list F)) :=
  if decide (length x = length h)
  then mapM (λ xh, cell H l xh.1 xh.2) (zip x h) else None.

(** The recurrence over the sequence: the states after each position and
    the last one. *)
Fixpoint scan (H : nat) (l : layer F) (xs : list (list (list F)))
    (h : list (list F)) : option (list (list (list F)) * list (list F)) :=
  match xs with
  | [] => Some ([], h)
  | x :: xs' =>
      h' ← step H l x h;
      r ← scan H l xs' h';
      Some (h' :: r.1, r.2)
  end.

(** [self(input, hx)]: [input] is sequence × batch × input_size and must
    have at least one position; [hx] is directions × batch × hidden_size
    and is all zeros when omitted.  Returns the per-position outputs
    (both directions concatenated) and the final state per direction. *)
Definition forward (self : t F) (input : list (list (list F)))
    (hx : option (list (list (list F)))) :
    option (list (list (list F)) * list (list (list F))) :=
  match input with
  | [] => None
  | x0 :: _ =>
      let bs := length x0 in
      let H := hidden_size self in
      let hx := default (zeros3 (num_directions self) bs H) hx in
      if decide (t3_shape (num_directions self) bs H hx) then
        match l0_reverse self, hx with
        | None, [h] =>
            r ← scan H (l0 self) input h;
            Some (r.1, [r.2])
        | Some rev, [hf; hb] =>
            f ← scan H (l0 self) input hf;
            b ← scan H rev (reverse input) hb;
            Some (zip_with (zip_with app) f.1 (reverse b.1), [f.2; b.2])
        | _, _ => None
        end
      else None
  end.
End Forward.
End GRU.

(** ** The model classes of the script *)

(** [t[-k]]: indexing from the end. *)
Definition index_from_end {A} (t : list A) (k : nat) : option A :=
  if decide (k ≤ length t) then t !! (length t - k) else None.

Module Encoder.
Record t (F : Type) := {
  num_input_features : nat;
  embedding_dim : nat;
  encoder_hidden_dim : nat;
  decoder_hidden_dim : nat;
  embedding : Embedding.t F;
  rnn : GRU.t F;
  fc : Linear.t F;
  dropout : Dropout.t F
}.
Arguments num_input_features {F}.
Arguments embedding_dim {F}.
Arguments encoder_hidden_dim {F}.
Arguments decoder_hidden_dim {F}.
Arguments embedding {F}.
Arguments rnn {F}.
Arguments fc {F}.
Arguments dropout {F}.

Section Forward.
Context {F : Type} {SF : Scalar F}.

(** The shapes [__init__] gives to the layers. *)
Definition wf (self : t F) : Prop :=
  Embedding.wf (embedding self)
  ∧ Embedding.num_embeddings (embedding self) = num_input_features self
  ∧ Embedding.embedding_dim (embedding self) = embedding_dim self
  ∧ GRU.wf (rnn self)
  ∧ GRU.input_size (rnn self) = embedding_dim self
  ∧ GRU.hidden_size (rnn self) = encoder_hidden_dim self
  ∧ is_Some (GRU.l0_reverse (rnn self))
  ∧ Linear.wf (fc self)
  ∧ Linear.in_features (fc self) = encoder_hidden_dim self * 2
  ∧ Linear.out_features (fc self) = decoder_hidden_dim self.

Definition forward (self : t F) (src : list (list nat)) :
    M F (list (list (list F)) * list (list F)) :=
  let* _ := emit (EvEncoder src) in
  let* e := lift (Embedding.forward2 (embedding self) src) in
  let* embedded := Dropout.forward3 (dropout self) e in
  let* '(outputs, hidden) := lift (GRU.forward (rnn self) embedded None) in
  let* h_fwd := lift (index_from_end hidden 2) in
  let* h_bwd := lift (index_from_end hidden 1) in
  let* c := lift (torch_cat1 [h_fwd; h_bwd]) in
  let* y := lift (Linear.forward2 (fc self) c) in
  let hidden := map (map stanh) y in
  ret (outputs, hidden).
End Forward.
End Encoder.

Module Attention.
Record t (F : Type) := {
  encoder_hidden_dim : nat;
  decoder_hidden_dim : nat;
  attention_in : nat;
  attention : Linear.t F
}.
Arguments encoder_hidden_dim {F}.
Arguments decoder_hidden_dim {F}.
Arguments attention_in {F}.
Arguments attention {F}.

Section Forward.
Context {F : Type} {SF : Scalar F}.

Definition wf (self : t F) : Prop :=
  attention_in self = encoder_hidden_dim self * 2 + decoder_hidden_dim self
  ∧ Linear.wf (attention self)
  ∧ Linear.in_features (attention self) = attention_in self.

Definition forward (self : t F) (decoder_hidden : list (list F))
    (encoder_outputs : list (list (list F))) : option (list (list F)) :=
  let src_len := dim0 encoder_outputs in
  let repeated_decoder_hidden := repeat1 src_len (unsqueeze1 decoder_hidden) in
  let encoder_outputs := permute102 (dim1 encoder_outputs) encoder_outputs in
  c ← torch_cat2 [repeated_decoder_hidden; encoder_outputs];
  e ← Linear.forward3 (attention self) c;
  let energy := map (map (map stanh)) e in
  let attention := map (map vsum) energy in
  Some (map softmax attention).
End Forward.
End Attention.

Module Decoder.
Record t (F : Type) := {
  embedding_dim : nat;
  encoder_hidden_dim : nat;
  decoder_hidden_dim : nat;
  num_output_features : nat;
  attention : Attention.t F;
  embedding : Embedding.t F;
  rnn : GRU.t F;
  out : Linear.t F;
  dropout : Dropout.t F
}.
Arguments embedding_dim {F}.
Arguments encoder_hidden_dim {F}.
Arguments decoder_hidden_dim {F}.
Arguments num_output_features {F}.
Arguments attention {F}.
Arguments embedding {F}.
Arguments rnn {F}.
Arguments out {F}.
Arguments dropout {F}.

Section Forward.
Context {F : Type} {SF : Scalar F}.

(** The shapes [__init__] gives to the layers, with the attention module
    built for the same hidden sizes, as the script does. *)
Definition wf (self : t F) : Prop :=
  Attention.wf (attention self)
  ∧ Attention.encoder_hidden_dim (attention self) = encoder_hidden_dim self
  ∧ Attention.decoder_hidden_dim (attention self) = decoder_hidden_dim self
  ∧ Embedding.wf (embedding self)
  ∧ Embedding.num_embeddings (embedding self) = num_output_features self
  ∧ Embedding.embedding_dim (embedding self) = embedding_dim self
  ∧ GRU.wf (rnn self)
  ∧ GRU.input_size (rnn self) = encoder_hidden_dim self * 2 + embedding_dim self
  ∧ GRU.hidden_size (rnn self) = decoder_hidden_dim self
  ∧ GRU.l0_reverse (rnn self) = None
  ∧ Linear.wf (out self)
  ∧ Linear.in_features (out self)
    = Attention.attention_in (attention self) + embedding_dim self
  ∧ Linear.out_features (out self) = num_output_features self.

Definition _weighted_encoder_rep (self : t F) (decoder_hidden : list (list F))
    (encoder_outputs : list (list (list F))) : option (list (list (list F))) :=
  a ← Attention.forward (attention self) decoder_hidden encoder_outputs;
  let a := unsqueeze1 a in
  let encoder_outputs := permute102 (dim1 encoder_outputs) encoder_outputs in
  weighted_encoder_rep ← bmm a encoder_outputs;
  Some (permute102 1 weighted_encoder_rep).

Definition forward (self : t F) (input : list nat) (decoder_hidden : list (list F))
    (encoder_outputs : list (list (list F))) : M F (list (list F) * list (list F)) :=
  let input1 := unsqueeze0 input in
  let* e := lift (Embedding.forward2 (embedding self) input1) in
  let* embedded := Dropout.forward3 (dropout self) e in
  let* weighted_encoder_rep :=
    lift (_weighted_encoder_rep self decoder_hidden encoder_outputs) in
  let* rnn_input := lift (torch_cat2 [embedded; weighted_encoder_rep]) in
  let* '(output, decoder_hidden) :=
    lift (GRU.forward (rnn self) rnn_input (Some (unsqueeze0 decoder_hidden))) in
  let* embedded := lift (squeeze0 embedded) in
  let* output := lift (squeeze0 output) in
  let* weighted_encoder_rep := lift (squeeze0 weighted_encoder_rep) in
  let* c := lift (torch_cat1 [output; weighted_encoder_rep; embedded]) in
  let* output := lift (Linear.forward2 (out self) c) in
  let* decoder_hidden := lift (squeeze0 decoder_hidden) in
  let* _ := emit (EvDecoder input output) in
  ret (output, decoder_hidden).
End Forward.
End Decoder.

(** A model parameter, as [named_parameters] yields them. *)
Inductive Param (F : Type) :=
  | Weight (w : list (list F))
  | Bias (b : list F).
Arguments Weight {F}.
Arguments Bias {F}.

Definition Linear_parameters {F} (l : Linear.t F) : list (Param F) :=
  [Weight (Linear.weight l); Bias (Linear.bias l)].

Definition GRU_layer_parameters {F} (l : GRU.layer F) : list (Param F) :=
  [Weight (Linear.weight (GRU.ih l)); Weight (Linear.weight (GRU.hh l));
   Bias (Linear.bias (GRU.ih l)); Bias (Linear.bias (GRU.hh l))].

Definition GRU_parameters {F} (g : GRU.t F) : list (Param F) :=
  GRU_layer_parameters (GRU.l0 g)
  ++ match GRU.l0_reverse g with
     | Some r => GRU_layer_parameters r
     | None => []
     end.

Module Seq2Seq.
Record t (F : Type) := {
  encoder : Encoder.t F;
  decoder : Decoder.t F
}.
Arguments encoder {F}.
Arguments decoder {F}.

Section Forward.
Context {F : Type} {SF : Scalar F}.

(** Encoder and decoder built for the same hidden sizes, as the script
    does, over a non-empty target vocabulary. *)
Definition wf (self : t F) : Prop :=
  Encoder.wf (encoder self) ∧ Decoder.wf (decoder self)
  ∧ Encoder.encoder_hidden_dim (encoder self)
    = Decoder.encoder_hidden_dim (decoder self)
  ∧ Encoder.decoder_hidden_dim (encoder self)
    = Decoder.decoder_hidden_dim (decoder self)
  ∧ 0 < Decoder.num_output_features (decoder self).

(** [model.parameters()]. *)
Definition parameters (self : t F) : list (Param F) :=
  [Weight (Embedding.weight (Encoder.embedding (encoder self)))]
  ++ GRU_parameters (Encoder.rnn (encoder self))
  ++ Linear_parameters (Encoder.fc (encoder self))
  ++ Linear_parameters (Attention.attention (Decoder.attention (decoder self)))
  ++ [Weight (Embedding.weight (Decoder.embedding (decoder self)))]
  ++ GRU_parameters (Decoder.rnn (decoder self))
  ++ Linear_parameters (Decoder.out (decoder self)).

(** [model.eval()]: every submodule leaves training mode. *)
Definition eval (self : t F) : t F :=
  let e := encoder self in
  let d := decoder self in
  {| encoder :=
       {| Encoder.num_input_features := Encoder.num_input_features e;
          Encoder.embedding_dim := Encoder.embedding_dim e;
          Encoder.encoder_hidden_dim := Encoder.encoder_hidden_dim e;
          Encoder.decoder_hidden_dim := Encoder.decoder_hidden_dim e;
          Encoder.embedding := Encoder.embedding e;
          Encoder.rnn := Encoder.rnn e;
          Encoder.fc := Encoder.fc e;
          Encoder.dropout := Dropout.eval (Encoder.dropout e) |};
     decoder :=
       {| Decoder.embedding_dim := Decoder.embedding_dim d;
          Decoder.encoder_hidden_dim := Decoder.encoder_hidden_dim d;
          Decoder.decoder_hidden_dim := Decoder.decoder_hidden_dim d;
          Decoder.num_output_features := Decoder.num_output_features d;
          Decoder.attention := Decoder.attention d;
          Decoder.embedding := Decoder.embedding d;
          Decoder.rnn := Decoder.rnn d;
          Decoder.out := Decoder.out d;
          Decoder.dropout := Dropout.eval (Decoder.dropout d) |} |}.

(** [outputs[t] = output]: [t] has to be a valid index and [output] has
    to have the shape of the row it replaces. *)
Definition setitem (outputs : list (list (list F))) (t : nat)
    (output : list (list F)) : option (list (list (list F))) :=
  old ← outputs !! t;
  if decide (Forall2 (λ a b : list F, length a = length b) old output)
  then Some (<[t := output]> outputs) else None.

(** The body of the decoding loop; the loop carries [outputs], the next
    decoder input [output] and the decoder state [hidden]. *)
Definition loop_body (self : t F) (trg : list (list nat)) (teacher_forcing_ratio : Q)
    (encoder_outputs : list (list (list F)))
    (st : list (list (list F)) * list nat * list (list F)) (t : nat) :
    M F (list (list (list F)) * list nat * list (list F)) :=
  let '(outputs, output, hidden) := st in
  let* '(output, hidden) :=
    Decoder.forward (decoder self) output hidden encoder_outputs in
  let* outputs := lift (setitem outputs t output) in
  let* draw := random_random in
  let teacher_force := Qltb draw teacher_forcing_ratio in
  let* top1 := lift (max1_indices output) in
  let* output := (if teacher_force then lift (trg !! t) else ret top1) in
  ret (outputs, output, hidden).

Definition forward (self : t F) (src trg : list (list nat))
    (teacher_forcing_ratio : Q) : M F (list (list (list F))) :=
  let* g := get_grad_enabled in
  let* _ := emit (EvDriver teacher_forcing_ratio g) in
  let batch_size := dim1 src in
  let max_len := dim0 trg in
  let trg_vocab_size := Decoder.num_output_features (decoder self) in
  let outputs := zeros3 max_len batch_size trg_vocab_size in
  let* '(encoder_outputs, hidden) := Encoder.forward (encoder self) src in
  let* output := lift (trg !! 0) in
  let* '(outputs, _, _) :=
    foldM (loop_body self trg teacher_forcing_ratio encoder_outputs)
          (outputs, output, hidden) (seq 1 (max_len - 1)) in
  ret outputs.
End Forward.
End Seq2Seq.

(** ** Loss, training and evaluation *)

(** [nn.CrossEntropyLoss(ignore_index = ...)] with the default mean
    reduction: the mean, over the positions whose target is not
    [ignore_index], of minus the log-softmax score of the target class.  The
    numbers of rows and of targets have to agree, and a target that is not
    ignored has to be a class. *)
Module CrossEntropyLoss.
Record t := { ignore_index : nat }.

Section Forward.
Context {F : Type} {SF : Scalar F}.

Definition term (self : t) (x : list F) (y : nat) : option (option F) :=
  if decide (y = ignore_index self) then Some None
  else lp ← log_softmax x !! y; Some (Some (ssub s0 lp)).

Definition forward (self : t) (input : list (list F)) (target : list nat) :
    option F :=
  if decide (length input = length target) then
    terms ← mapM (λ p, term self p.1 p.2) (zip input target);
    let kept := omap (λ o : option F, o) terms in
    Some (sdiv (vsum kept) (sofnat (length kept)))
  else None.
End Forward.
End CrossEntropyLoss.

Record Batch := { src : list (list nat); trg : list (list nat) }.

Section Loops.
Context {F : Type} {SF : Scalar F}.

(** [output[1:].view(-1, output.shape[-1])], [trg[1:].view(-1)] and the
    call of the criterion, as in both loops.  [view(-1, 0)] is refused. *)
Definition loss_of (criterion : CrossEntropyLoss.t) (vocab : nat)
    (output : list (list (list F))) (trg : list (list nat)) : option F :=
  if decide (vocab = 0) then None
  else
    let output := concat (drop 1 output) in
    let trg := concat (drop 1 trg) in
    CrossEntropyLoss.forward criterion output trg.

(** The forward half of one iteration of [train]: the driver with its
    default teacher-forcing ratio, then the loss. *)
Definition train_loss (model : Seq2Seq.t F) (criterion : CrossEntropyLoss.t)
    (batch : Batch) : M F F :=
  let* output := Seq2Seq.forward model (src batch) (trg batch) (1 # 2) in
  lift (loss_of criterion
          (Decoder.num_output_features (Seq2Seq.decoder model)) output (trg batch)).

(** One iteration of the loop of [evaluate]. *)
Definition evaluate_body (model : Seq2Seq.t F) (criterion : CrossEntropyLoss.t)
    (epoch_loss : F) (batch : Batch) : M F F :=
  let* output := Seq2Seq.forward model (src batch) (trg batch) 0 in
  let* loss :=
    lift (loss_of criterion
            (Decoder.num_output_features (Seq2Seq.decoder model)) output (trg batch)) in
  ret (sadd epoch_loss loss).

(** [evaluate(model, iterator, criterion)]: returns the mean loss and the
    model object as the call leaves it.  Dividing by [len(iterator) = 0]
    raises. *)
Definition evaluate (model : Seq2Seq.t F) (iterator : list Batch)
    (criterion : CrossEntropyLoss.t) : M F (F * Seq2Seq.t F) :=
  let model := Seq2Seq.eval model in
  let* prev := get_grad_enabled in
  let* _ := set_grad_enabled false in
  let* epoch_loss := foldM (evaluate_body model criterion) s0 iterator in
  let* _ := set_grad_enabled prev in
  if decide (length iterator = 0) then lift None
  else ret (sdiv epoch_loss (sofnat (length iterator)), model).
End Loops.

(** ** Relations between worlds *)

(** Only torch's generator advanced. *)
Definition same_but_torch {F} (w w' : World F) : Prop :=
  py_random w' = py_random w ∧ py_pos w' = py_pos w
  ∧ torch_bernoulli w' = torch_bernoulli w
  ∧ grad_enabled w' = grad_enabled w ∧ trace w' = trace w.

(** Only torch's generator advanced and the events [evs] were appended. *)
Definition emitted {F} (evs : list (Event F)) (w w' : World F) : Prop :=
  py_random w' = py_random w ∧ py_pos w' = py_pos w
  ∧ torch_bernoulli w' = torch_bernoulli w
  ∧ grad_enabled w' = grad_enabled w ∧ trace w' = trace w ++ evs.

(** ** Vocabulary of the statements about the driver *)

(** One decoding step as the trace shows it: the decoder input, the logits
    the decoder returned, and the draw that followed. *)
Definition step_events {F} (steps : list (list nat * list (list F) * Q)) :
    list (Event F) :=
  concat (map (λ s, [EvDecoder s.1.1 s.1.2; EvRandom s.2]) steps).

(** A source batch of [L] positions and batch size [bs] over the source
    vocabulary, and a target batch of [T] positions over the target one. *)
Definition valid_src {F} (self : Seq2Seq.t F) (L bs : nat) (src : list (list nat)) : Prop :=
  0 < L ∧ mat_shape L bs src
  ∧ Forall (tokens_in (Encoder.num_input_features (Seq2Seq.encoder self))) src.

Definition valid_trg {F} (self : Seq2Seq.t F) (T bs : nat) (trg : list (list nat)) : Prop :=
  0 < T ∧ mat_shape T bs trg
  ∧ Forall (tokens_in (Decoder.num_output_features (Seq2Seq.decoder self))) trg.

(** The calls of the driver a trace shows, each with its teacher-forcing
    ratio and whether gradients were being recorded; and the inputs of the
    calls of the decoder step. *)
Definition driver_call {F} (e : Event F) : option (Q * bool) :=
  match e with
  | EvDriver r g => Some (r, g)
  | _ => None
  end.

Definition driver_calls {F} (evs : list (Event F)) : list (Q * bool) :=
  omap driver_call evs.

Definition decoder_input {F} (e : Event F) : option (list nat) :=
  match e with
  | EvDecoder input _ => Some input
  | _ => None
  end.

Definition decoder_inputs {F} (evs : list (Event F)) : list (list nat) :=
  omap decoder_input evs.

(** ** Vocabulary of the statements about the loss and the loops *)

(** Two score tensors have the shape of the target and, from time step 1
    on, the same scores at every position whose target is not [pad]. *)
Definition agree_off_pad {F} (pad : nat) (output output' : list (list (list F)))
    (trg : list (list nat)) : Prop :=
  Forall3 (Forall3 (λ (x x' : list F) (y : nat), y ≠ pad -> x = x'))
    (drop 1 output) (drop 1 output') (drop 1 trg).

(** A batch the data pipeline can deliver to [model]. *)
Definition valid_batch {F} (model : Seq2Seq.t F) (b : Batch) : Prop :=
  ∃ L T bs, valid_src model L bs (src b) ∧ valid_trg model T bs (trg b).

(** ** A small instance

    A model with a source and a target vocabulary of three tokens and all
    feature sizes 1, whose weights are all [c] and whose biases are zero,
    in training mode; a batch of two sentences; a world whose generators are
    constant. *)

Section Example.
Context {F : Type} {SF : Scalar F}.

Definition example_linear (i o : nat) (c : F) : Linear.t F :=
  {| Linear.in_features := i; Linear.out_features := o;
     Linear.weight := replicate o (replicate i c);
     Linear.bias := replicate o s0 |}.

Definition example_embedding (n d : nat) (c : F) : Embedding.t F :=
  {| Embedding.num_embeddings := n; Embedding.embedding_dim := d;
     Embedding.weight := replicate n (replicate d c) |}.

Definition example_layer (i h : nat) (c : F) : GRU.layer F :=
  {| GRU.ih := example_linear i (3 * h) c; GRU.hh := example_linear h (3 * h) c |}.

Definition example_dropout : Dropout.t F :=
  {| Dropout.p := s0; Dropout.training := true |}.

Definition example_encoder (c : F) : Encoder.t F :=
  {| Encoder.num_input_features := 3;
     Encoder.embedding_dim := 1;
     Encoder.encoder_hidden_dim := 1;
     Encoder.decoder_hidden_dim := 1;
     Encoder.embedding := example_embedding 3 1 c;
     Encoder.rnn := {| GRU.input_size := 1; GRU.hidden_size := 1;
                       GRU.l0 := example_layer 1 1 c;
                       GRU.l0_reverse := Some (example_layer 1 1 c) |};
     Encoder.fc := example_linear 2 1 c;
     Encoder.dropout := example_dropout |}.

Definition example_attention (c : F) : Attention.t F :=
  {| Attention.encoder_hidden_dim := 1;
     Attention.decoder_hidden_dim := 1;
     Attention.attention_in := 3;
     Attention.attention := example_linear 3 1 c |}.

Definition example_decoder (c : F) : Decoder.t F :=
  {| Decoder.embedding_dim := 1;
     Decoder.encoder_hidden_dim := 1;
     Decoder.decoder_hidden_dim := 1;
     Decoder.num_output_features := 3;
     Decoder.attention := example_attention c;
     Decoder.embedding := example_embedding 3 1 c;
     Decoder.rnn := {| GRU.input_size := 3; GRU.hidden_size := 1;
                       GRU.l0 := example_layer 3 1 c;
                       GRU.l0_reverse := None |};
     Decoder.out := example_linear 4 3 c;
     Decoder.dropout := example_dropout |}.

Definition example_model (c : F) : Seq2Seq.t F :=
  {| Seq2Seq.encoder := example_encoder c; Seq2Seq.decoder := example_decoder c |}.
End Example.

Definition example_src : list (list nat) := [[0; 1]; [2; 1]].
Definition example_trg : list (list nat) := [[0; 0]; [1; 2]; [2; 1]].
Definition example_trg' : list (list nat) := [[0; 0]; [2; 2]; [0; 1]].
Definition example_batch : Batch := {| src := example_src; trg := example_trg |}.

Definition half : unit_float :=
  {| uf_val := 1 # 2;
     uf_range := ltac:(split; [discriminate | reflexivity]) |}.

Definition example_world {F} : World F :=
  {| py_random := λ _, half; py_pos := 0;
     torch_bernoulli := λ n, Nat.even n; torch_pos := 0;
     grad_enabled := true; trace := [] |}.

(** Scores for one target position in a batch of one over two classes. *)
Definition example_scores (a b : R) : list (list (list R)) :=
  [[[0%R; 0%R]]; [[a; b]]].

(** ** Vocabulary of the statements about reproducibility *)

(** Two runs return the same value, or both raise, whatever they leave in
    the world; two computations do so from any two worlds. *)
Definition same_value {F A} (r1 r2 : option (A * World F)) : Prop :=
  fst <$> r1 = fst <$> r2.

Definition world_blind {F A} (m1 m2 : M F A) : Prop :=
  ∀ w1 w2, same_value (m1 w1) (m2 w2).

(** ** Initialisation of the parameters

    [init_weights(m)] walks [m.named_parameters()]: a parameter whose name
    contains 'weight' is refilled by [nn.init.normal_(_, mean = 0,
    std = 0.01)], every other one (the biases) by [nn.init.constant_(_, 0)].
    The values [normal_] writes are taken, in order, from a stream [g];
    a position in the stream is threaded through the calls. *)

(** [nn.init.normal_] on a matrix: every entry is replaced, row by row. *)
Fixpoint normal_rows {F} (g : nat -> F) (pos : nat) (m : list (list F)) :
    list (list F) * nat :=
  match m with
  | [] => ([], pos)
  | r :: m' =>
      let rest := normal_rows g (pos + length r) m' in
      (map g (seq pos (length r)) :: rest.1, rest.2)
  end.

Section InitWeights.
Context {F : Type} {SF : Scalar F}.
Variable g : nat -> F.

(** [nn.init.constant_(_, 0)] on a vector. *)
Definition constant_0 (b : list F) : list F := map (λ _, s0) b.

(** [init_weights] on a [nn.Linear]: 'weight', then 'bias'. *)
Definition init_Linear (pos : nat) (l : Linear.t F) : Linear.t F * nat :=
  let w := normal_rows g pos (Linear.weight l) in
  ({| Linear.in_features := Linear.in_features l;
      Linear.out_features := Linear.out_features l;
      Linear.weight := w.1;
      Linear.bias := constant_0 (Linear.bias l) |}, w.2).

(** On a [nn.Embedding]: 'weight'. *)
Definition init_Embedding (pos : nat) (e : Embedding.t F) : Embedding.t F * nat :=
  let w := normal_rows g pos (Embedding.weight e) in
  ({| Embedding.num_embeddings := Embedding.num_embeddings e;
      Embedding.embedding_dim := Embedding.embedding_dim e;
      Embedding.weight := w.1 |}, w.2).

(** On one direction of a [nn.GRU]: 'weight_ih', 'weight_hh', 'bias_ih',
    'bias_hh'. *)
Definition init_GRU_layer (pos : nat) (l : GRU.layer F) : GRU.layer F * nat :=
  let wi := normal_rows g pos (Linear.weight (GRU.ih l)) in
  let wh := normal_rows g wi.2 (Linear.weight (GRU.hh l)) in
  ({| GRU.ih := {| Linear.in_features := Linear.in_features (GRU.ih l);
                   Linear.out_features := Linear.out_features (GRU.ih l);
                   Linear.weight := wi.1;
                   Linear.bias := constant_0 (Linear.bias (GRU.ih l)) |};
      GRU.hh := {| Linear.in_features := Linear.in_features (GRU.hh l);
                   Linear.out_features := Linear.out_features (GRU.hh l);
                   Linear.weight := wh.1;
                   Linear.bias := constant_0 (Linear.bias (GRU.hh l)) |} |}, wh.2).

(** On a [nn.GRU]: the forward direction, then the reverse one. *)
Definition init_GRU (pos : nat) (r : GRU.t F) : GRU.t F * nat :=
  let a := init_GRU_layer pos (GRU.l0 r) in
  match GRU.l0_reverse r with
  | Some rv =>
      let b := init_GRU_layer a.2 rv in
      ({| GRU.input_size := GRU.input_size r; GRU.hidden_size := GRU.hidden_size r;
          GRU.l0 := a.1; GRU.l0_reverse := Some b.1 |}, b.2)
  | None =>
      ({| GRU.input_size := GRU.input_size r; GRU.hidden_size := GRU.hidden_size r;
          GRU.l0 := a.1; GRU.l0_reverse := None |}, a.2)
  end.

(** On an [Encoder]: 'embedding.*', 'rnn.*', 'fc.*'. *)
Definition init_Encoder (pos : nat) (e : Encoder.t F) : Encoder.t F * nat :=
  let a := init_Embedding pos (Encoder.embedding e) in
  let b := init_GRU a.2 (Encoder.rnn e) in
  let c := init_Linear b.2 (Encoder.fc e) in
  ({| Encoder.num_input_features := Encoder.num_input_features e;
      Encoder.embedding_dim := Encoder.embedding_dim e;
      Encoder.encoder_hidden_dim := Encoder.encoder_hidden_dim e;
      Encoder.decoder_hidden_dim := Encoder.decoder_hidden_dim e;
      Encoder.embedding := a.1;
      Encoder.rnn := b.1;
      Encoder.fc := c.1;
      Encoder.dropout := Encoder.dropout e |}, c.2).

(** On an [Attention]: 'attention.*'. *)
Definition init_Attention (pos : nat) (a : Attention.t F) : Attention.t F * nat :=
  let l := init_Linear pos (Attention.attention a) in
  ({| Attention.encoder_hidden_dim := Attention.encoder_hidden_dim a;
      Attention.decoder_hidden_dim := Attention.decoder_hidden_dim a;
      Attention.attention_in := Attention.attention_in a;
      Attention.attention := l.1 |}, l.2).

(** On a [Decoder]: 'attention.*', 'embedding.*', 'rnn.*', 'out.*'. *)
Definition init_Decoder (pos : nat) (d : Decoder.t F) : Decoder.t F * nat :=
  let a := init_Attention pos (Decoder.attention d) in
  let b := init_Embedding a.2 (Decoder.embedding d) in
  let c := init_GRU b.2 (Decoder.rnn d) in
  let o := init_Linear c.2 (Decoder.out d) in
  ({| Decoder.embedding_dim := Decoder.embedding_dim d;
      Decoder.encoder_hidden_dim := Decoder.encoder_hidden_dim d;
      Decoder.decoder_hidden_dim := Decoder.decoder_hidden_dim d;
      Decoder.num_output_features := Decoder.num_output_features d;
      Decoder.attention := a.1;
      Decoder.embedding := b.1;
      Decoder.rnn := c.1;
      Decoder.out := o.1;
      Decoder.dropout := Decoder.dropout d |}, o.2).

(** On the [Seq2Seq]: 'encoder.*', 'decoder.*'. *)
Definition init_weights (pos : nat) (m : Seq2Seq.t F) : Seq2Seq.t F * nat :=
  let e := init_Encoder pos (Seq2Seq.encoder m) in
  let d := init_Decoder e.2 (Seq2Seq.decoder m) in
  ({| Seq2Seq.encoder := e.1; Seq2Seq.decoder := d.1 |}, d.2).

(** [module.apply(init_weights)]: the function is applied to every child,
    in registration order, and then to the module itself.  The dropout
    modules have no parameters. *)
Definition apply_Encoder (pos : nat) (e : Encoder.t F) : Encoder.t F * nat :=
  let a := init_Embedding pos (Encoder.embedding e) in
  let b := init_GRU a.2 (Encoder.rnn e) in
  let c := init_Linear b.2 (Encoder.fc e) in
  init_Encoder c.2
    {| Encoder.num_input_features := Encoder.num_input_features e;
       Encoder.embedding_dim := Encoder.embedding_dim e;
       Encoder.encoder_hidden_dim := Encoder.encoder_hidden_dim e;
       Encoder.decoder_hidden_dim := Encoder.decoder_hidden_dim e;
       Encoder.embedding := a.1;
       Encoder.rnn := b.1;
       Encoder.fc := c.1;
       Encoder.dropout := Encoder.dropout e |}.

Definition apply_Attention (pos : nat) (a : Attention.t F) : Attention.t F * nat :=
  let l := init_Linear pos (Attention.attention a) in
  init_Attention l.2
    {| Attention.encoder_hidden_dim := Attention.encoder_hidden_dim a;
       Attention.decoder_hidden_dim := Attention.decoder_hidden_dim a;
       Attention.attention_in := Attention.attention_in a;
       Attention.attention := l.1 |}.

Definition apply_Decoder (pos : nat) (d : Decoder.t F) : Decoder.t F * nat :=
  let a := apply_Attention pos (Decoder.attention d) in
  let b := init_Embedding a.2 (Decoder.embedding d) in
  let c := init_GRU b.2 (Decoder.rnn d) in
  let o := init_Linear c.2 (Decoder.out d) in
  init_Decoder o.2
    {| Decoder.embedding_dim := Decoder.embedding_dim d;
       Decoder.encoder_hidden_dim := Decoder.encoder_hidden_dim d;
       Decoder.decoder_hidden_dim := Decoder.decoder_hidden_dim d;
       Decoder.num_output_features := Decoder.num_output_features d;
       Decoder.attention := a.1;
       Decoder.embedding := b.1;
       Decoder.rnn := c.1;
       Decoder.out := o.1;
       Decoder.dropout := Decoder.dropout d |}.

(** [model.apply(init_weights)]. *)
Definition apply_init_weights (pos : nat) (m : Seq2Seq.t F) : Seq2Seq.t F * nat :=
  let e := apply_Encoder pos (Seq2Seq.encoder m) in
  let d := apply_Decoder e.2 (Seq2Seq.decoder m) in
  init_weights d.2 {| Seq2Seq.encoder := e.1; Seq2Seq.decoder := d.1 |}.
End InitWeights.

(** A bias that is all zeros; a weight whose entries all satisfy [P]. *)
Definition zero_bias {F} {SF : Scalar F} (p : Param F) : Prop :=
  match p with
  | Bias b => Forall (λ x, x = s0) b
  | Weight _ => True
  end.

Definition weight_entries {F} (P : F -> Prop) (p : Param F) : Prop :=
  match p with
  | Bias _ => True
  | Weight w => Forall (Forall P) w
  end.

(** Another world: other streams, generators already consumed, gradients
    off. *)
Definition zero_draw : unit_float :=
  {| uf_val := 0;
     uf_range := ltac:(split; [discriminate | reflexivity]) |}.

Definition example_world' {F} : World F :=
  {| py_random := λ _, zero_draw; py_pos := 5;
     torch_bernoulli := λ _, false; torch_pos := 7;
     grad_enabled := false; trace := [] |}.

(** ** The model as a shared object

    The script builds one [Seq2Seq] object, and [train] and [evaluate]
    receive a reference to it: what a call does to the object is there for
    every later call.  A process state pairs the world with the heap of
    module objects, and a reference is an index into the heap.  The forward
    methods assign to no field of their [self], so a call of the model reads
    the object its reference denotes and runs the method on it. *)

Module InPlace.
Record Process (F : Type) := {
  world : World F;
  heap : list (Seq2Seq.t F)
}.
Arguments world {F}.
Arguments heap {F}.

(** Computations that read and write the world and the heap and may
    raise. *)
Definition P (F A : Type) : Type := Process F -> option (A * Process F).

Definition ret {F A} (a : A) : P F A := λ p, Some (a, p).

Definition bind {F A B} (m : P F A) (k : A -> P F B) : P F B :=
  λ p, match m p with
       | Some (a, p') => k a p'
       | None => None
       end.

Notation "'let+' x := m 'in' k" := (bind m (λ x, k))
  (at level 10, x name, m at level 100, k at level 200, only parsing).

(** A computation on the world runs on the world of the process. *)
Definition in_world {F A} (m : M F A) : P F A :=
  λ p, match m (world p) with
       | Some (a, w') => Some (a, {| world := w'; heap := heap p |})
       | None => None
       end.

(** The object a reference denotes. *)
Definition deref {F} (r : nat) : P F (Seq2Seq.t F) :=
  λ p, match heap p !! r with
       | Some self => Some (self, p)
       | None => None
       end.

(** The object a reference denotes becomes [self]. *)
Definition assign {F} (r : nat) (self : Seq2Seq.t F) : P F unit :=
  λ p, if decide (r < length (heap p))
       then Some (tt, {| world := world p; heap := <[r := self]> (heap p) |})
       else None.

Fixpoint foldM {F A S} (f : S -> A -> P F S) (s : S) (l : list A) : P F S :=
  match l with
  | [] => ret s
  | x :: l' => let+ s' := f s x in foldM f s' l'
  end.

Section Loops.
Context {F : Type} {SF : Scalar F}.

(** [model.eval()]: the object itself leaves training mode. *)
Definition eval (model : nat) : P F unit :=
  let+ self := deref model in
  assign model (Seq2Seq.eval self).

(** One iteration of the loop of [evaluate], on the object that [model]
    denotes when the iteration starts. *)
Definition evaluate_iteration (model : nat) (criterion : CrossEntropyLoss.t)
    (epoch_loss : F) (batch : Batch) : P F F :=
  let+ self := deref model in
  in_world (evaluate_body self criterion epoch_loss batch).

(** [evaluate(model, iterator, criterion)], with [model] a reference. *)
Definition evaluate (model : nat) (iterator : list Batch)
    (criterion : CrossEntropyLoss.t) : P F F :=
  let+ _ := eval model in
  let+ prev := in_world get_grad_enabled in
  let+ _ := in_world (set_grad_enabled false) in
  let+ epoch_loss := foldM (evaluate_iteration model criterion) s0 iterator in
  let+ _ := in_world (set_grad_enabled prev) in
  if decide (length iterator = 0) then in_world (lift None)
  else ret (sdiv epoch_loss (sofnat (length iterator))).
End Loops.
End InPlace.



(** Every batch has, from time step 1 on, a target that is not [pad]. *)
Definition has_target (pad : nat) (b : Batch) : Prop :=
  Exists (Exists (λ y, y ≠ pad)) (drop 1 (trg b)).

(** The source batches of the calls of the encoder a trace shows. *)
Definition encoder_call {F} (e : Event F) : option (list (list nat)) :=
  match e with
  | EvEncoder src => Some src
  | _ => None
  end.

Definition encoder_calls {F} (evs : list (Event F)) : list (list (list nat)) :=
  omap encoder_call evs.

(** * Properties *)

(** ** Lists and shapes *)

Lemma mapM_total {A B} (f : A -> option B) (P : A -> Prop) (Q : B -> Prop) l :
  (∀ x, P x -> ∃ y, f x = Some y ∧ Q y) ->
  Forall P l ->
  ∃ k, mapM f l = Some k ∧ length k = length l ∧ Forall Q k.
Proof.
  intros Hf. induction 1 as [|x l Hx Hl IH]; simpl.
  - exists []. auto.
  - destruct (Hf x Hx) as (y & -> & Hy). destruct IH as (k & -> & Hlen & Hk).
    exists (y :: k). simpl. auto.
Qed.

Lemma mat_shape_length {A} n m (M : list (list A)) : mat_shape n m M -> length M = n.
Proof. by intros [? _]. Qed.

Lemma mat_shape_rows {A} n m (M : list (list A)) :
  mat_shape n m M -> Forall (λ r, length r = m) M.
Proof. by intros [_ ?]. Qed.

Lemma mat_shape_lookup {A} n m (M : list (list A)) i r :
  mat_shape n m M -> M !! i = Some r -> length r = m.
Proof.
  intros [_ H] Hi. rewrite Forall_lookup in H. eauto.
Qed.

Lemma t3_shape_lookup {A} a b c (T : list (list (list A))) i M :
  t3_shape a b c T -> T !! i = Some M -> mat_shape b c M.
Proof.
  intros [_ H] Hi. rewrite Forall_lookup in H. eauto.
Qed.

Lemma t3_shape_cons {A} a b c (M : list (list A)) T :
  mat_shape b c M -> t3_shape a b c T -> t3_shape (S a) b c (M :: T).
Proof.
  intros HM [Hl HT]. split; simpl; [lia | by constructor].
Qed.

Lemma t3_shape_reverse {A} a b c (T : list (list (list A))) :
  t3_shape a b c T -> t3_shape a b c (reverse T).
Proof.
  intros [Hl HT]. split; [by rewrite length_reverse | by apply Forall_reverse].
Qed.

Lemma mat_shape_replicate {A} n m (r : list A) :
  length r = m -> mat_shape n m (replicate n r).
Proof.
  intros Hr. split; [apply length_replicate | by apply Forall_replicate].
Qed.

Lemma length_transpose {A} cols (m : list (list A)) :
  Forall (λ r, length r = cols) m -> length (transpose cols m) = cols.
Proof.
  induction 1 as [|r m Hr Hm IH]; simpl.
  - apply length_replicate.
  - rewrite length_zip_with. lia.
Qed.

Lemma transpose_rows {A} cols (m : list (list A)) :
  Forall (λ r, length r = cols) m ->
  Forall (λ c, length c = length m) (transpose cols m).
Proof.
  induction 1 as [|r m Hr Hm IH]; simpl.
  - by apply Forall_replicate.
  - eapply Forall_zip_with_snd; [|exact IH].
    apply Forall_forall. intros x _ y Hy. simpl. by rewrite Hy.
Qed.

Lemma transpose_inner {A} (P : A -> Prop) cols (m : list (list A)) :
  Forall (Forall P) m -> Forall (Forall P) (transpose cols m).
Proof.
  induction 1 as [|r m Hr Hm IH]; simpl.
  - by apply Forall_replicate.
  - eapply Forall_zip_with_fst; [exact Hr|].
    eapply Forall_impl; [exact IH|]. intros c Hc x Hx. by constructor.
Qed.

Lemma mat_shape_transpose {A} n m (M : list (list A)) :
  mat_shape n m M -> mat_shape m n (transpose m M).
Proof.
  intros [Hl Hr]. split.
  - by apply length_transpose.
  - rewrite <- Hl. by apply transpose_rows.
Qed.

Lemma t3_shape_transpose {A} a b c (T : list (list (list A))) :
  t3_shape a b c T -> t3_shape b a c (transpose b T).
Proof.
  intros [Hl HT]. split.
  - apply length_transpose. eapply Forall_impl; [exact HT|]. by intros M [? _].
  - assert (Hrows : Forall (λ M, length M = a) (transpose b T)).
    { rewrite <- Hl. apply transpose_rows.
      eapply Forall_impl; [exact HT|]. by intros M [? _]. }
    assert (Hin : Forall (Forall (λ r : list A, length r = c)) (transpose b T)).
    { apply transpose_inner. eapply Forall_impl; [exact HT|]. by intros M [_ ?]. }
    rewrite Forall_forall in Hrows, Hin. apply Forall_forall.
    intros M HM. split; auto.
Qed.

Lemma dim1_shape {A} n m (M : list (list A)) :
  0 < n -> mat_shape n m M -> dim1 M = m.
Proof.
  intros Hn [Hl Hr]. destruct M as [|r M]; simpl in *; [lia|].
  by inversion Hr.
Qed.

Lemma dim1_t3_shape {A} a b c (T : list (list (list A))) :
  0 < a -> t3_shape a b c T -> dim1 T = b.
Proof.
  intros Ha [Hl HT]. destruct T as [|M T]; simpl in *; [lia|].
  inversion HT as [|?? [? _] ?]. done.
Qed.

(** ** Shapes through the tensor operations *)

Section TensorFacts.
Context {F : Type} {SF : Scalar F}.

Lemma cat_rows_shape n a b (A B : list (list F)) :
  mat_shape n a A -> mat_shape n b B ->
  cat_rows A B = Some (zip_with app A B) ∧ mat_shape n (a + b) (zip_with app A B).
Proof.
  intros [HlA HA] [HlB HB]. unfold cat_rows.
  rewrite decide_True by congruence. split; [done|]. split.
  - rewrite length_zip_with. lia.
  - eapply Forall_zip_with_fst; [exact HA|].
    eapply Forall_impl; [exact HB|]. intros y Hy x Hx.
    rewrite length_app. simpl in *. lia.
Qed.

Lemma cat_mats_shape x y a b (A B : list (list (list F))) :
  t3_shape x y a A -> t3_shape x y b B ->
  cat_mats A B = Some (zip_with (zip_with app) A B)
  ∧ t3_shape x y (a + b) (zip_with (zip_with app) A B).
Proof.
  intros [HlA HA] [HlB HB]. unfold cat_mats.
  rewrite decide_True.
  - split; [done|]. split.
    + rewrite length_zip_with. lia.
    + eapply Forall_zip_with_fst; [exact HA|].
      eapply Forall_impl; [exact HB|]. intros N HN M HM. simpl.
      by apply cat_rows_shape.
  - apply Forall2_same_length_lookup. split; [congruence|].
    intros i M N HM HN. rewrite Forall_lookup in HA, HB.
    destruct (HA i M HM) as [-> _]. by destruct (HB i N HN) as [-> _].
Qed.

Lemma Linear_forward_shape (l : Linear.t F) x :
  Linear.wf l -> length x = Linear.in_features l ->
  ∃ y, Linear.forward l x = Some y ∧ length y = Linear.out_features l.
Proof.
  intros [[Hl _] Hb] Hx. unfold Linear.forward.
  rewrite decide_True by done. eexists. split; [done|].
  rewrite length_zip_with. lia.
Qed.

Lemma Linear_forward2_shape (l : Linear.t F) n x :
  Linear.wf l -> mat_shape n (Linear.in_features l) x ->
  ∃ y, Linear.forward2 l x = Some y ∧ mat_shape n (Linear.out_features l) y.
Proof.
  intros Hwf [Hl Hx].
  destruct (mapM_total (Linear.forward l) _
              (λ y, length y = Linear.out_features l) x
              (λ v Hv, Linear_forward_shape l v Hwf Hv) Hx)
    as (y & Hy & Hlen & Hrows).
  exists y. split; [done|]. split; [congruence | done].
Qed.

Lemma Linear_forward3_shape (l : Linear.t F) a b x :
  Linear.wf l -> t3_shape a b (Linear.in_features l) x ->
  ∃ y, Linear.forward3 l x = Some y ∧ t3_shape a b (Linear.out_features l) y.
Proof.
  intros Hwf [Hl Hx].
  destruct (mapM_total (Linear.forward2 l) _
              (mat_shape b (Linear.out_features l)) x
              (λ v Hv, Linear_forward2_shape l b v Hwf Hv) Hx)
    as (y & Hy & Hlen & Hrows).
  exists y. split; [done|]. split; [congruence | done].
Qed.

Lemma Embedding_forward2_shape (e : Embedding.t F) n bs (x : list (list nat)) :
  Embedding.wf e -> mat_shape n bs x ->
  Forall (tokens_in (Embedding.num_embeddings e)) x ->
  ∃ y, Embedding.forward2 e x = Some y
       ∧ t3_shape n bs (Embedding.embedding_dim e) y.
Proof.
  intros [Hl Hw] [Hn Hx] Htok.
  assert (Hrow : ∀ r, (length r = bs ∧ tokens_in (Embedding.num_embeddings e) r) ->
            ∃ y, mapM (Embedding.forward e) r = Some y
                 ∧ mat_shape bs (Embedding.embedding_dim e) y).
  { intros r [Hr Hin].
    destruct (mapM_total (Embedding.forward e) (λ i, i < Embedding.num_embeddings e)
                (λ v, length v = Embedding.embedding_dim e) r) as (y & Hy & Hlen & Hv).
    - intros i Hi. unfold Embedding.forward.
      destruct (lookup_lt_is_Some_2 (Embedding.weight e) i) as [v Hv]; [lia|].
      exists v. split; [done|]. rewrite Forall_lookup in Hw. eauto.
    - exact Hin.
    - exists y. split; [done|]. split; [congruence | done]. }
  unfold Embedding.forward2.
  destruct (mapM_total _ _ _ x Hrow) as (y & Hy & Hlen & Hall).
  - rewrite Forall_forall in Hx, Htok. apply Forall_forall. intros r Hr. split; auto.
  - exists y. split; [done|]. split; [congruence | done].
Qed.

(** The recurrent layer. *)
Lemma GRU_cell_shape I H (l : GRU.layer F) x h :
  GRU.layer_wf I H l -> length x = I -> length h = H ->
  ∃ h', GRU.cell H l x h = Some h' ∧ length h' = H.
Proof.
  intros (Hih & Hi & Hio & Hhh & Hh & Hho) Hx Hlen. unfold GRU.cell.
  destruct (Linear_forward_shape (GRU.ih l) x Hih) as (gi & -> & Hgi); [congruence|].
  destruct (Linear_forward_shape (GRU.hh l) h Hhh) as (gh & -> & Hgh); [congruence|].
  assert (Hir : length (take H gi) = H) by (rewrite length_take; lia).
  assert (Hiz : length (take H (drop H gi)) = H)
    by (rewrite length_take, length_drop; lia).
  assert (Hin : length (drop (2 * H) gi) = H) by (rewrite length_drop; lia).
  assert (Hhr : length (take H gh) = H) by (rewrite length_take; lia).
  assert (Hhz : length (take H (drop H gh)) = H)
    by (rewrite length_take, length_drop; lia).
  assert (Hhn : length (drop (2 * H) gh) = H) by (rewrite length_drop; lia).
  cbn [mbind option_bind]. eexists. split; [done|].
  rewrite !length_zip_with, Hir, Hiz, Hin, Hhr, Hhz, Hhn, Hlen.
  by rewrite !Nat.min_id.
Qed.

Lemma GRU_step_shape I H (l : GRU.layer F) bs x h :
  GRU.layer_wf I H l -> mat_shape bs I x -> mat_shape bs H h ->
  ∃ h', GRU.step H l x h = Some h' ∧ mat_shape bs H h'.
Proof.
  intros Hwf [Hlx Hx] [Hlh Hh]. unfold GRU.step.
  rewrite decide_True by congruence.
  destruct (mapM_total (λ xh, GRU.cell H l xh.1 xh.2)
              (λ xh, length xh.1 = I ∧ length xh.2 = H)
              (λ v, length v = H) (zip x h)) as (y & Hy & Hlen & Hrows).
  - intros [a b] [Ha Hb]. by apply (GRU_cell_shape I).
  - apply Forall_forall. intros [a b] Hab.
    apply elem_of_zip_l in Hab as Ha. apply elem_of_zip_r in Hab as Hb.
    rewrite Forall_forall in Hx, Hh. split; auto.
  - exists y. split; [done|]. split; [|done].
    rewrite Hlen, length_zip. lia.
Qed.

Lemma GRU_scan_shape I H (l : GRU.layer F) bs xs h :
  GRU.layer_wf I H l -> Forall (mat_shape bs I) xs -> mat_shape bs H h ->
  ∃ outs hT, GRU.scan H l xs h = Some (outs, hT)
             ∧ t3_shape (length xs) bs H outs ∧ mat_shape bs H hT.
Proof.
  intros Hwf Hxs. revert h. induction Hxs as [|x xs Hx Hxs IH]; intros h Hh; simpl.
  - exists [], h. split; [done|]. split; [by split | done].
  - destruct (GRU_step_shape I H l bs x h Hwf Hx Hh) as (h' & -> & Hh'). simpl.
    destruct (IH h' Hh') as (outs & hT & -> & Houts & HhT). simpl.
    exists (h' :: outs), hT. split; [done|]. split; [|done].
    by apply t3_shape_cons.
Qed.
End TensorFacts.

(** ** Running computations *)

Section MonadFacts.
Context {F : Type}.

Lemma bind_run {A B} (m : M F A) (k : A -> M F B) w a w' :
  m w = Some (a, w') -> bind m k w = k a w'.
Proof. intros H. unfold bind. by rewrite H. Qed.

Lemma bind_inv {A B} (m : M F A) (k : A -> M F B) w r :
  bind m k w = Some r -> ∃ a w', m w = Some (a, w') ∧ k a w' = Some r.
Proof.
  unfold bind. destruct (m w) as [[a w']|]; [|done]. eauto.
Qed.

Lemma lift_run {A} (o : option A) (a : A) (w : World F) :
  o = Some a -> lift o w = Some (a, w).
Proof. by intros ->. Qed.

Lemma lift_inv {A} (o : option A) (w : World F) r :
  lift o w = Some r -> ∃ a, o = Some a ∧ r = (a, w).
Proof. unfold lift. destruct o; [|done]. intros [= <-]. eauto. Qed.

Lemma same_but_torch_refl (w : World F) : same_but_torch w w.
Proof. by repeat split. Qed.

Lemma same_but_torch_trans (w1 w2 w3 : World F) :
  same_but_torch w1 w2 -> same_but_torch w2 w3 -> same_but_torch w1 w3.
Proof.
  intros (?&?&?&?&?) (?&?&?&?&?). repeat split; congruence.
Qed.

Lemma emitted_after_torch evs (w1 w2 w3 : World F) :
  same_but_torch w1 w2 -> emitted evs w2 w3 -> emitted evs w1 w3.
Proof.
  intros (?&?&?&?&?) (?&?&?&?&?). repeat split; congruence.
Qed.

Lemma emitted_then_torch evs (w1 w2 w3 : World F) :
  emitted evs w1 w2 -> same_but_torch w2 w3 -> emitted evs w1 w3.
Proof.
  intros (?&?&?&?&?) (?&?&?&?&?). repeat split; congruence.
Qed.

Lemma emit_run (e : Event F) w :
  ∃ w', emit e w = Some (tt, w') ∧ emitted [e] w w'.
Proof. eexists. split; [done|]. by repeat split. Qed.

Lemma mapM_st_total {A B} (f : A -> M F B) (P : A -> Prop) (Q : B -> Prop) l w :
  (∀ x w, P x -> ∃ y w', f x w = Some (y, w') ∧ Q y ∧ same_but_torch w w') ->
  Forall P l ->
  ∃ k w', mapM_st f l w = Some (k, w') ∧ length k = length l ∧ Forall Q k
          ∧ same_but_torch w w'.
Proof.
  intros Hf Hl. revert w. induction Hl as [|x l Hx Hl IH]; intros w; simpl.
  - exists [], w. split; [done|]. auto using same_but_torch_refl.
  - destruct (Hf x w Hx) as (y & w1 & Hy & HQ & H1).
    destruct (IH w1) as (k & w2 & Hk & Hlen & HQk & H2).
    exists (y :: k), w2. rewrite (bind_run _ _ _ _ _ Hy), (bind_run _ _ _ _ _ Hk).
    simpl. split; [done|]. split; [lia|]. split; [by constructor|].
    by eapply same_but_torch_trans.
Qed.
End MonadFacts.

Section LayerFacts.
Context {F : Type} {SF : Scalar F}.

#[local] Arguments GRU.scan : simpl never.

Lemma Dropout_forward3_shape (d : Dropout.t F) a b c x w :
  t3_shape a b c x ->
  ∃ y w', Dropout.forward3 d x w = Some (y, w') ∧ t3_shape a b c y
          ∧ same_but_torch w w'.
Proof.
  intros [Ha Hx]. unfold Dropout.forward3. destruct (Dropout.training d).
  - assert (H1 : ∀ (v : list F) w, length v = c ->
              ∃ y w', mapM_st (Dropout.forward_elem d) v w = Some (y, w')
                      ∧ length y = c ∧ same_but_torch w w').
    { intros v w0 Hv.
      destruct (mapM_st_total (Dropout.forward_elem d) (λ _, True) (λ _, True) v w0)
        as (y & w' & Hy & Hlen & _ & Hw).
      - intros x0 w1 _. eexists _, _. split; [done|]. split; [done|]. by repeat split.
      - by apply Forall_true.
      - exists y, w'. split; [done|]. split; [congruence | done]. }
    assert (H2 : ∀ (m : list (list F)) w, mat_shape b c m ->
              ∃ y w', mapM_st (mapM_st (Dropout.forward_elem d)) m w = Some (y, w')
                      ∧ mat_shape b c y ∧ same_but_torch w w').
    { intros m w0 [Hb Hm].
      destruct (mapM_st_total (mapM_st (Dropout.forward_elem d))
                  (λ v, length v = c) (λ v, length v = c) m w0 H1 Hm)
        as (y & w' & Hy & Hlen & Hrows & Hw).
      exists y, w'. split; [done|]. split; [|done]. split; [congruence | done]. }
    destruct (mapM_st_total _ (mat_shape b c) (mat_shape b c) x w H2 Hx)
      as (y & w' & Hy & Hlen & Hrows & Hw).
    exists y, w'. split; [done|]. split; [|done]. split; [congruence | done].
  - exists x, w. split; [done|]. split; [by split | apply same_but_torch_refl].
Qed.

Lemma Dropout_forward3_eval (d : Dropout.t F) x w :
  Dropout.training d = false -> Dropout.forward3 d x w = Some (x, w).
Proof. intros H. unfold Dropout.forward3. by rewrite H. Qed.

(** The bidirectional recurrence started from the zero state. *)
Lemma GRU_forward_bi_shape (g : GRU.t F) rev L bs input :
  GRU.wf g -> GRU.l0_reverse g = Some rev -> 0 < L ->
  t3_shape L bs (GRU.input_size g) input ->
  ∃ fo fT bo bT,
    GRU.scan (GRU.hidden_size g) (GRU.l0 g) input
      (zeros2 bs (GRU.hidden_size g)) = Some (fo, fT)
    ∧ GRU.scan (GRU.hidden_size g) rev (reverse input)
        (zeros2 bs (GRU.hidden_size g)) = Some (bo, bT)
    ∧ GRU.forward g input None
      = Some (zip_with (zip_with app) fo (reverse bo), [fT; bT])
    ∧ t3_shape L bs (GRU.hidden_size g + GRU.hidden_size g)
        (zip_with (zip_with app) fo (reverse bo))
    ∧ mat_shape bs (GRU.hidden_size g) fT ∧ mat_shape bs (GRU.hidden_size g) bT.
Proof.
  intros [Hl0 Hrev] Hr HL [Hlen Hin].
  assert (Hz : mat_shape bs (GRU.hidden_size g) (zeros2 bs (GRU.hidden_size g))).
  { apply mat_shape_replicate, length_replicate. }
  destruct (GRU_scan_shape _ _ (GRU.l0 g) bs input _ Hl0 Hin Hz)
    as (fo & fT & Hf & Hfo & HfT).
  assert (Hin' : Forall (mat_shape bs (GRU.input_size g)) (reverse input))
    by by apply Forall_reverse.
  destruct (GRU_scan_shape _ _ rev bs (reverse input) _ (Hrev rev Hr) Hin' Hz)
    as (bo & bT & Hb & Hbo & HbT).
  exists fo, fT, bo, bT. split; [done|]. split; [done|].
  rewrite length_reverse in Hbo. rewrite Hlen in Hfo, Hbo.
  apply t3_shape_reverse in Hbo.
  destruct (cat_mats_shape _ _ _ _ fo (reverse bo) Hfo Hbo) as [_ Hcat].
  split; [|done].
  unfold GRU.forward. destruct input as [|x0 input']; [simpl in *; lia|].
  assert (Hx0 : length x0 = bs) by (inversion Hin as [|?? [? _] ?]; done).
  unfold GRU.num_directions. rewrite Hr, Hx0. simpl.
  rewrite decide_True.
  - rewrite Hf. simpl. rewrite Hb. done.
  - split; [done|]. repeat constructor; apply Hz.
Qed.

(** The unidirectional recurrence on a given state. *)
Lemma GRU_forward_uni_shape (g : GRU.t F) L bs input h :
  GRU.wf g -> GRU.l0_reverse g = None -> 0 < L ->
  t3_shape L bs (GRU.input_size g) input -> mat_shape bs (GRU.hidden_size g) h ->
  ∃ outs hT,
    GRU.scan (GRU.hidden_size g) (GRU.l0 g) input h = Some (outs, hT)
    ∧ GRU.forward g input (Some (unsqueeze0 h)) = Some (outs, [hT])
    ∧ t3_shape L bs (GRU.hidden_size g) outs ∧ mat_shape bs (GRU.hidden_size g) hT.
Proof.
  intros [Hl0 _] Hr HL [Hlen Hin] Hh.
  destruct (GRU_scan_shape _ _ (GRU.l0 g) bs input _ Hl0 Hin Hh)
    as (outs & hT & Hs & Houts & HhT).
  exists outs, hT. rewrite Hlen in Houts. split; [done|]. split; [|done].
  unfold GRU.forward. destruct input as [|x0 input']; [simpl in *; lia|].
  assert (Hx0 : length x0 = bs) by (inversion Hin as [|?? [? _] ?]; done).
  unfold GRU.num_directions, unsqueeze0. rewrite Hr, Hx0. simpl.
  rewrite decide_True.
  - by rewrite Hs.
  - split; [done|]. by repeat first [done | constructor].
Qed.
End LayerFacts.

Ltac step_with H := rewrite (bind_run _ _ _ _ _ H); cbv beta iota.
Ltac step_lift H := rewrite (bind_run _ _ _ _ _ (lift_run _ _ _ H)); cbv beta iota.

(** ** The encoder *)

Section EncoderFacts.
Context {F : Type} {SF : Scalar F}.

#[local] Arguments GRU.scan : simpl never.

Lemma Encoder_forward_total (self : Encoder.t F) (src : list (list nat))
    (L bs : nat) (w : World F) :
  Encoder.wf self -> 0 < L -> mat_shape L bs src ->
  Forall (tokens_in (Encoder.num_input_features self)) src ->
  ∃ outputs hidden w' e embedded w0 w1 rev fo bo h_fwd h_bwd y,
    Encoder.forward self src w = Some ((outputs, hidden), w')
    ∧ t3_shape L bs (Encoder.encoder_hidden_dim self * 2) outputs
    ∧ mat_shape bs (Encoder.decoder_hidden_dim self) hidden
    ∧ emitted [EvEncoder src] w w'
    ∧ Embedding.forward2 (Encoder.embedding self) src = Some e
    ∧ Dropout.forward3 (Encoder.dropout self) e w0 = Some (embedded, w1)
    ∧ GRU.l0_reverse (Encoder.rnn self) = Some rev
    ∧ GRU.scan (Encoder.encoder_hidden_dim self) (GRU.l0 (Encoder.rnn self))
        embedded (zeros2 bs (Encoder.encoder_hidden_dim self)) = Some (fo, h_fwd)
    ∧ GRU.scan (Encoder.encoder_hidden_dim self) rev
        (reverse embedded) (zeros2 bs (Encoder.encoder_hidden_dim self))
      = Some (bo, h_bwd)
    ∧ Linear.forward2 (Encoder.fc self) (zip_with app h_fwd h_bwd) = Some y
    ∧ hidden = map (map stanh) y
    ∧ emitted [EvEncoder src] w w0.
Proof.
  intros (Hemb & Hne & Hed & Hrnn & Hri & Hrh & [rev Hrev] & Hfc & Hfi & Hfo)
         HL Hsrc Htok.
  destruct (emit_run (EvEncoder src) w) as (w0 & He & Hw0).
  destruct (Embedding_forward2_shape (Encoder.embedding self) L bs src Hemb Hsrc)
    as (e & Hemb2 & Hesh); [by rewrite Hne|].
  rewrite Hed in Hesh.
  destruct (Dropout_forward3_shape (Encoder.dropout self) _ _ _ e w0 Hesh)
    as (embedded & w1 & Hdrop & Hdsh & Hw1).
  rewrite <- Hri in Hdsh.
  destruct (GRU_forward_bi_shape (Encoder.rnn self) rev L bs embedded Hrnn Hrev HL Hdsh)
    as (fo & fT & bo & bT & Hsf & Hsb & Hgru & Hosh & HfT & HbT).
  rewrite Hrh in *.
  destruct (cat_rows_shape _ _ _ fT bT HfT HbT) as [Hcat Hcsh].
  destruct (Linear_forward2_shape (Encoder.fc self) bs (zip_with app fT bT) Hfc)
    as (y & Hy & Hysh).
  { rewrite Hfi. by replace (Encoder.encoder_hidden_dim self * 2)
      with (Encoder.encoder_hidden_dim self + Encoder.encoder_hidden_dim self) by lia. }
  exists (zip_with (zip_with app) fo (reverse bo)), (map (map stanh) y), w1,
    e, embedded, w0, w1, rev, fo, bo, fT, bT, y.
  split.
  { unfold Encoder.forward. step_with He. step_lift Hemb2. step_with Hdrop.
    step_lift Hgru.
    rewrite (bind_run _ _ _ fT w1) by done. cbv beta.
    rewrite (bind_run _ _ _ bT w1) by done. cbv beta.
    rewrite (bind_run _ _ _ (zip_with app fT bT) w1)
      by (apply lift_run; simpl; exact Hcat).
    cbv beta. step_lift Hy. done. }
  split.
  { by replace (Encoder.encoder_hidden_dim self * 2)
      with (Encoder.encoder_hidden_dim self + Encoder.encoder_hidden_dim self) by lia. }
  split.
  { rewrite <- Hfo. destruct Hysh as [Hyl Hyr]. split.
    - by rewrite length_map.
    - apply Forall_fmap. eapply Forall_impl; [exact Hyr|].
      intros r Hr. simpl. by rewrite length_map. }
  split; [by eapply emitted_then_torch|].
  repeat (split; [done|]). done.
Qed.
End EncoderFacts.

(** ** The attention scorer and the decoder step *)

Lemma t3_shape_singleton {A} b c (T : list (list (list A))) :
  t3_shape 1 b c T -> ∃ M, T = [M] ∧ mat_shape b c M.
Proof.
  intros [Hl HT]. destruct T as [|M [|??]]; simpl in *; try lia.
  exists M. split; [done|]. by inversion HT.
Qed.

Lemma t3_shape_of_singleton {A} b c (M : list (list A)) :
  mat_shape b c M -> t3_shape 1 b c [M].
Proof. intros H. split; [done|]. by apply Forall_singleton. Qed.

Lemma repeat1_unsqueeze1_shape {A} bs S d (h : list (list A)) :
  mat_shape bs d h -> t3_shape bs S d (repeat1 S (unsqueeze1 h)).
Proof.
  intros [Hl Hh]. unfold repeat1, unsqueeze1. split.
  - by rewrite !length_map.
  - rewrite <- list_fmap_compose. apply Forall_fmap.
    eapply Forall_impl; [exact Hh|]. intros v Hv. simpl. split.
    + induction S as [|S IH]; simpl; [done | by rewrite IH].
    + apply Forall_concat. apply Forall_replicate. by apply Forall_singleton.
Qed.

Section AttentionFacts.
Context {F : Type} {SF : Scalar F}.

#[local] Arguments GRU.scan : simpl never.

Lemma Attention_forward_total (self : Attention.t F) bs S
    (decoder_hidden : list (list F)) (encoder_outputs : list (list (list F))) :
  Attention.wf self -> 0 < S ->
  mat_shape bs (Attention.decoder_hidden_dim self) decoder_hidden ->
  t3_shape S bs (Attention.encoder_hidden_dim self * 2) encoder_outputs ->
  ∃ scores,
    Attention.forward self decoder_hidden encoder_outputs = Some (map softmax scores)
    ∧ mat_shape bs S scores.
Proof.
  intros (Hin & Hwf & Hfi) HS Hh Heo. unfold Attention.forward.
  rewrite (dim1_t3_shape _ _ _ _ HS Heo). unfold dim0, permute102.
  destruct Heo as [HlS Heo']. rewrite HlS.
  pose proof (repeat1_unsqueeze1_shape bs S _ decoder_hidden Hh) as Hrep.
  pose proof (t3_shape_transpose _ _ _ _ (conj HlS Heo')) as Htr.
  destruct (cat_mats_shape _ _ _ _ _ _ Hrep Htr) as [Hcat Hcsh].
  simpl. rewrite Hcat. simpl.
  set (c := zip_with (zip_with app) _ _) in *.
  destruct (Linear_forward3_shape (Attention.attention self) bs S c Hwf) as (e & -> & Hesh).
  { rewrite Hfi, Hin.
    by replace (Attention.encoder_hidden_dim self * 2 + Attention.decoder_hidden_dim self)
      with (Attention.decoder_hidden_dim self + Attention.encoder_hidden_dim self * 2)
      by lia. }
  simpl. eexists. split; [done|]. destruct Hesh as [Hel Her]. split.
  - by rewrite !length_map.
  - apply Forall_fmap, Forall_fmap. eapply Forall_impl; [exact Her|].
    intros m [Hm _]. simpl. by rewrite !length_map.
Qed.

Lemma softmax_length (v : list F) : length (softmax v) = length v.
Proof. unfold softmax. by rewrite !length_map. Qed.

Lemma map_softmax_shape bs S (scores : list (list F)) :
  mat_shape bs S scores -> mat_shape bs S (map softmax scores).
Proof.
  intros [Hl Hr]. split; [by rewrite length_map|].
  apply Forall_fmap. eapply Forall_impl; [exact Hr|].
  intros v Hv. simpl. by rewrite softmax_length.
Qed.

Lemma matmul_shape n k m (A B : list (list F)) :
  0 < k -> mat_shape n k A -> mat_shape k m B ->
  ∃ C, matmul A B = Some C ∧ mat_shape n m C.
Proof.
  intros Hk [HlA HA] HB. unfold matmul. destruct HB as [HlB HB'].
  rewrite decide_True by (by rewrite HlB).
  eexists. split; [done|]. split; [by rewrite length_map|].
  apply Forall_fmap, Forall_forall. intros r _. simpl. unfold vecmat.
  rewrite length_map, (dim1_shape k m B Hk (conj HlB HB')).
  by apply length_transpose.
Qed.

Lemma bmm_shape bs n k m (A B : list (list (list F))) :
  0 < k -> t3_shape bs n k A -> t3_shape bs k m B ->
  ∃ C, bmm A B = Some C ∧ t3_shape bs n m C.
Proof.
  intros Hk [HlA HA] [HlB HB]. unfold bmm. rewrite decide_True by congruence.
  destruct (mapM_total (λ p, matmul p.1 p.2)
              (λ p, mat_shape n k p.1 ∧ mat_shape k m p.2)
              (mat_shape n m) (zip A B)) as (C & HC & Hlen & Hrows).
  - intros [a b] [Ha Hb]. by apply (matmul_shape n k m).
  - apply Forall_forall. intros [a b] Hab.
    apply elem_of_zip_l in Hab as Ha. apply elem_of_zip_r in Hab as Hb.
    rewrite Forall_forall in HA, HB. split; auto.
  - exists C. split; [done|]. split; [|done]. rewrite Hlen, length_zip. lia.
Qed.

Lemma weighted_encoder_rep_total (self : Decoder.t F) bs S
    (decoder_hidden : list (list F)) (encoder_outputs : list (list (list F))) :
  Decoder.wf self -> 0 < S ->
  mat_shape bs (Decoder.decoder_hidden_dim self) decoder_hidden ->
  t3_shape S bs (Decoder.encoder_hidden_dim self * 2) encoder_outputs ->
  ∃ ctx, Decoder._weighted_encoder_rep self decoder_hidden encoder_outputs = Some [ctx]
         ∧ mat_shape bs (Decoder.encoder_hidden_dim self * 2) ctx.
Proof.
  intros (Hatt & Hae & Had & _) HS Hh Heo. unfold Decoder._weighted_encoder_rep.
  rewrite <- Had in Hh. rewrite <- Hae in Heo.
  destruct (Attention_forward_total _ bs S _ _ Hatt HS Hh Heo) as (scores & -> & Hsc).
  simpl. rewrite (dim1_t3_shape _ _ _ _ HS Heo). unfold permute102.
  pose proof (t3_shape_transpose _ _ _ _ Heo) as Htr.
  assert (Ha : t3_shape bs 1 S (unsqueeze1 (map softmax scores))).
  { apply map_softmax_shape in Hsc. destruct Hsc as [Hl Hr]. unfold unsqueeze1. split.
    - by rewrite length_map.
    - apply Forall_fmap. eapply Forall_impl; [exact Hr|]. intros v Hv. simpl.
      split; [done|]. by apply Forall_singleton. }
  destruct (bmm_shape bs 1 S _ _ _ HS Ha Htr) as (W & -> & HW). simpl.
  apply t3_shape_transpose in HW.
  destruct (t3_shape_singleton _ _ _ HW) as (ctx & -> & Hctx).
  exists ctx. by rewrite <- Hae.
Qed.
End AttentionFacts.

Section DecoderFacts.
Context {F : Type} {SF : Scalar F}.

#[local] Arguments GRU.scan : simpl never.

Lemma Decoder_forward_total (self : Decoder.t F) (input : list nat)
    (decoder_hidden : list (list F)) (encoder_outputs : list (list (list F)))
    (bs S : nat) (w : World F) :
  Decoder.wf self -> 0 < S ->
  length input = bs -> tokens_in (Decoder.num_output_features self) input ->
  mat_shape bs (Decoder.decoder_hidden_dim self) decoder_hidden ->
  t3_shape S bs (Decoder.encoder_hidden_dim self * 2) encoder_outputs ->
  ∃ logits hidden' w' e embedded w1 ctx step_out c,
    Decoder.forward self input decoder_hidden encoder_outputs w
      = Some ((logits, hidden'), w')
    ∧ mat_shape bs (Decoder.num_output_features self) logits
    ∧ mat_shape bs (Decoder.decoder_hidden_dim self) hidden'
    ∧ emitted [EvDecoder input logits] w w'
    ∧ Embedding.forward2 (Decoder.embedding self) [input] = Some e
    ∧ Dropout.forward3 (Decoder.dropout self) e w = Some ([embedded], w1)
    ∧ Decoder._weighted_encoder_rep self decoder_hidden encoder_outputs = Some [ctx]
    ∧ GRU.forward (Decoder.rnn self) [zip_with app embedded ctx]
        (Some [decoder_hidden]) = Some ([step_out], [hidden'])
    ∧ torch_cat1 [step_out; ctx; embedded] = Some c
    ∧ Linear.forward2 (Decoder.out self) c = Some logits.
Proof.
  intros Hwf HS Hin Htok Hh Heo.
  pose proof Hwf as (Hatt & Hae & Had & Hemb & Hne & Hed & Hrnn & Hri & Hrh & Hrr
                     & Hout & Hoi & Hoo).
  destruct (Embedding_forward2_shape (Decoder.embedding self) 1 bs [input] Hemb)
    as (e & Hemb2 & Hesh).
  { split; [done|]. by apply Forall_singleton. }
  { apply Forall_singleton. by rewrite Hne. }
  rewrite Hed in Hesh.
  destruct (Dropout_forward3_shape (Decoder.dropout self) _ _ _ e w Hesh)
    as (emb3 & w1 & Hdrop & Hdsh & Hw1).
  destruct (t3_shape_singleton _ _ _ Hdsh) as (embedded & -> & Hembsh).
  destruct (weighted_encoder_rep_total self bs S _ _ Hwf HS Hh Heo) as (ctx & Hctx & Hctxsh).
  pose proof (t3_shape_of_singleton _ _ _ Hctxsh) as Hctx3.
  destruct (cat_mats_shape _ _ _ _ _ _ Hdsh Hctx3) as [Hcat Hcatsh].
  simpl in Hcat, Hcatsh.
  assert (Hrin : t3_shape 1 bs (GRU.input_size (Decoder.rnn self))
                   [zip_with app embedded ctx]).
  { rewrite Hri.
    by replace (Decoder.encoder_hidden_dim self * 2 + Decoder.embedding_dim self)
      with (Decoder.embedding_dim self + Decoder.encoder_hidden_dim self * 2) by lia. }
  rewrite <- Hrh in Hh.
  destruct (GRU_forward_uni_shape (Decoder.rnn self) 1 bs _ decoder_hidden
              Hrnn Hrr ltac:(lia) Hrin Hh)
    as (outs & hT & _ & Hgru & Houts & HhT).
  destruct (t3_shape_singleton _ _ _ Houts) as (step_out & -> & Hso).
  unfold unsqueeze0 in Hgru. rewrite Hrh in *.
  destruct (cat_rows_shape _ _ _ step_out ctx Hso Hctxsh) as [Hc1 Hc1sh].
  destruct (cat_rows_shape _ _ _ _ embedded Hc1sh Hembsh) as [Hc2 Hc2sh].
  set (c := zip_with app (zip_with app step_out ctx) embedded) in *.
  assert (Hcat3 : torch_cat1 [step_out; ctx; embedded] = Some c).
  { simpl. rewrite Hc1. simpl. exact Hc2. }
  destruct (Linear_forward2_shape (Decoder.out self) bs c Hout) as (logits & Hlog & Hlsh).
  { rewrite Hoi. destruct Hatt as (Hai & _). rewrite Hai, Hae, Had.
    by replace (Decoder.encoder_hidden_dim self * 2 + Decoder.decoder_hidden_dim self
                + Decoder.embedding_dim self)
      with (Decoder.decoder_hidden_dim self + Decoder.encoder_hidden_dim self * 2
            + Decoder.embedding_dim self) by lia. }
  rewrite Hoo in Hlsh.
  destruct (emit_run (EvDecoder input logits) w1) as (w' & He & Hw').
  exists logits, hT, w', e, embedded, w1, ctx, step_out, c.
  split.
  { unfold Decoder.forward, unsqueeze0. step_lift Hemb2. step_with Hdrop.
    step_lift Hctx.
    rewrite (bind_run _ _ _ [zip_with app embedded ctx] w1)
      by (apply lift_run; simpl; exact Hcat).
    cbv beta. step_lift Hgru.
    rewrite (bind_run _ _ _ embedded w1) by done. cbv beta.
    rewrite (bind_run _ _ _ step_out w1) by done. cbv beta.
    rewrite (bind_run _ _ _ ctx w1) by done. cbv beta.
    step_lift Hcat3. step_lift Hlog.
    rewrite (bind_run _ _ _ hT w1) by done. cbv beta.
    step_with He. done. }
  split; [done|]. split; [done|].
  split; [by eapply emitted_after_torch|].
  done.
Qed.
End DecoderFacts.

(** ** What a call does to the world *)

Ltac inv_bind H x w' Hx :=
  apply bind_inv in H; destruct H as (x & w' & Hx & H); cbv beta in H.
Ltac inv_lift H x Hx :=
  let w' := fresh "w" in
  let E := fresh "E" in
  let x0 := fresh "x" in
  let Heq := fresh "Heq" in
  apply bind_inv in H; destruct H as (x0 & w' & E & H); cbv beta in H;
  apply lift_inv in E; destruct E as (x & Hx & Heq); injection Heq as -> ->.

Section WorldFacts.
Context {F : Type} {SF : Scalar F}.

Lemma emit_inv (e : Event F) w u w' :
  emit e w = Some (u, w') -> emitted [e] w w'.
Proof. intros [= <- <-]. by repeat split. Qed.

Lemma emitted_trans evs1 evs2 (w1 w2 w3 : World F) :
  emitted evs1 w1 w2 -> emitted evs2 w2 w3 -> emitted (evs1 ++ evs2) w1 w3.
Proof.
  intros (?&?&?&?&Ht1) (?&?&?&?&Ht2). repeat split; try congruence.
  rewrite Ht2, Ht1. by rewrite app_assoc.
Qed.

Lemma mapM_st_world {A B} (f : A -> M F B) l w k w' :
  (∀ x w y w', f x w = Some (y, w') -> same_but_torch w w') ->
  mapM_st f l w = Some (k, w') -> same_but_torch w w'.
Proof.
  intros Hf. revert w k. induction l as [|x l IH]; intros w k H; simpl in H.
  - injection H as <- <-. apply same_but_torch_refl.
  - inv_bind H y w1 Hy. inv_bind H ys w2 Hys. injection H as <- <-.
    eapply same_but_torch_trans; eauto.
Qed.

Lemma Dropout_forward3_world (d : Dropout.t F) x w y w' :
  Dropout.forward3 d x w = Some (y, w') -> same_but_torch w w'.
Proof.
  unfold Dropout.forward3. destruct (Dropout.training d).
  - apply mapM_st_world. intros ????. apply mapM_st_world. intros ????.
    apply mapM_st_world. intros x3 wa y3 wb H. unfold Dropout.forward_elem in H.
    inv_bind H keep wc Hk. injection Hk as <- <-. injection H as <- <-.
    by repeat split.
  - intros [= <- <-]. apply same_but_torch_refl.
Qed.

Lemma Encoder_forward_world (self : Encoder.t F) src w r w' :
  Encoder.forward self src w = Some (r, w') -> emitted [EvEncoder src] w w'.
Proof.
  unfold Encoder.forward. intros H.
  inv_bind H u w0 He. apply emit_inv in He.
  inv_lift H e He2.
  inv_bind H embedded w1 Hd. apply Dropout_forward3_world in Hd.
  inv_lift H oh Hg. destruct oh as [outputs hidden].
  inv_lift H hf Hf. inv_lift H hb Hb. inv_lift H c Hc. inv_lift H y Hy.
  injection H as <- <-. by eapply emitted_then_torch.
Qed.

Lemma Decoder_forward_world (self : Decoder.t F) input h eo w logits h' w' :
  Decoder.forward self input h eo w = Some ((logits, h'), w') ->
  emitted [EvDecoder input logits] w w'.
Proof.
  unfold Decoder.forward. intros H.
  inv_lift H e He.
  inv_bind H embedded w1 Hd. apply Dropout_forward3_world in Hd.
  inv_lift H wr Hw. inv_lift H ri Hri. inv_lift H oh Hg. destruct oh as [o dh].
  inv_lift H em Hem. inv_lift H o' Ho. inv_lift H wr' Hwr. inv_lift H c Hc.
  inv_lift H out Hout. inv_lift H dh' Hdh.
  inv_bind H u w2 He2. apply emit_inv in He2. injection H as <- <- <-.
  by eapply emitted_after_torch.
Qed.

Lemma random_random_run (w : World F) :
  ∃ w', random_random w = Some (uf_val (py_random w (py_pos w)), w')
        ∧ py_random w' = py_random w ∧ py_pos w' = S (py_pos w)
        ∧ torch_bernoulli w' = torch_bernoulli w ∧ torch_pos w' = torch_pos w
        ∧ grad_enabled w' = grad_enabled w
        ∧ trace w' = trace w ++ [EvRandom (uf_val (py_random w (py_pos w)))].
Proof. eexists. split; [done|]. by repeat split. Qed.

(** The index of the maximum is a position of the row. *)
Lemma argmax_from_lt (v : list F) bi b i :
  bi < i -> argmax_from bi b i v < i + length v.
Proof.
  revert bi b i. induction v as [|x v IH]; intros bi b i Hb; simpl; [lia|].
  destruct (sltb b x).
  - specialize (IH i x (S i)). lia.
  - specialize (IH bi b (S i)). lia.
Qed.

Lemma argmax_total (v : list F) :
  0 < length v -> ∃ i, argmax v = Some i ∧ i < length v.
Proof.
  destruct v as [|x v]; simpl; [lia|]. intros _. eexists. split; [done|].
  pose proof (argmax_from_lt v 0 x 1). lia.
Qed.

Lemma max1_indices_total bs V (m : list (list F)) :
  0 < V -> mat_shape bs V m ->
  ∃ top1, max1_indices m = Some top1 ∧ length top1 = bs ∧ tokens_in V top1.
Proof.
  intros HV [Hl Hr]. unfold max1_indices.
  destruct (mapM_total argmax (λ r, length r = V) (λ i, i < V) m) as (k & Hk & Hlen & Hin).
  - intros r Hlr. rewrite <- Hlr. apply argmax_total. lia.
  - done.
  - exists k. split; [done|]. split; [congruence | done].
Qed.
End WorldFacts.

(** ** The decoding loop *)

Section DriverFacts.
Context {F : Type} {SF : Scalar F}.

Lemma setitem_run (outputs : list (list (list F))) T bs V t (row : list (list F)) :
  t3_shape T bs V outputs -> t < T -> mat_shape bs V row ->
  Seq2Seq.setitem outputs t row = Some (<[t := row]> outputs)
  ∧ t3_shape T bs V (<[t := row]> outputs).
Proof.
  intros [Hl Ho] Ht Hrow. unfold Seq2Seq.setitem.
  destruct (lookup_lt_is_Some_2 outputs t) as [old Hold]; [lia|].
  rewrite Hold. simpl.
  assert (Hosh : mat_shape bs V old) by (rewrite Forall_lookup in Ho; eauto).
  rewrite decide_True.
  - split; [done|]. split; [by rewrite length_insert | by apply Forall_insert].
  - destruct Hosh as [Hol Hor], Hrow as [Hrl Hrr].
    apply Forall2_same_length_lookup. split; [congruence|].
    intros i a b Ha Hb. rewrite Forall_lookup in Hor, Hrr.
    rewrite (Hor i a Ha). by rewrite (Hrr i b Hb).
Qed.

Lemma loop_total (self : Seq2Seq.t F) (trg : list (list nat)) (ratio : Q)
    (eo : list (list (list F))) (S T bs : nat) :
  Seq2Seq.wf self -> 0 < S ->
  t3_shape S bs (Decoder.encoder_hidden_dim (Seq2Seq.decoder self) * 2) eo ->
  mat_shape T bs trg ->
  Forall (tokens_in (Decoder.num_output_features (Seq2Seq.decoder self))) trg ->
  ∀ n t outs inp h w,
    t + n = T -> 0 < t ->
    t3_shape T bs (Decoder.num_output_features (Seq2Seq.decoder self)) outs ->
    length inp = bs ->
    tokens_in (Decoder.num_output_features (Seq2Seq.decoder self)) inp ->
    mat_shape bs (Decoder.decoder_hidden_dim (Seq2Seq.decoder self)) h ->
    ∃ outs' inp' h' w' steps,
      foldM (Seq2Seq.loop_body self trg ratio eo) (outs, inp, h) (seq t n) w
        = Some ((outs', inp', h'), w')
      ∧ t3_shape T bs (Decoder.num_output_features (Seq2Seq.decoder self)) outs'
      ∧ length steps = n
      ∧ trace w' = trace w ++ step_events steps
      ∧ py_pos w' = py_pos w + n ∧ py_random w' = py_random w
      ∧ grad_enabled w' = grad_enabled w
      ∧ torch_bernoulli w' = torch_bernoulli w
      ∧ (∀ j, j < t -> outs' !! j = outs !! j)
      ∧ (∀ k s, steps !! k = Some s ->
           outs' !! (t + k) = Some s.1.2
           ∧ s.2 = uf_val (py_random w (py_pos w + k)))
      ∧ (∀ s, steps !! 0 = Some s -> s.1.1 = inp)
      ∧ (∀ k s s', steps !! k = Some s -> steps !! (Datatypes.S k) = Some s' ->
           Some s'.1.1 = if Qltb s.2 ratio then trg !! (t + k)
                         else max1_indices s.1.2).
Proof.
  intros Hwf HS Heo Htrg Htok.
  pose proof Hwf as (_ & Hdec & _ & _ & HV).
  induction n as [|n IH]; intros t outs inp h w Htn Ht Houts Hinp Hintok Hh.
  - exists outs, inp, h, w, []. simpl. split; [done|]. split; [done|]. split; [done|].
    split; [by rewrite app_nil_r|]. split; [lia|].
    repeat split; try done; intros; simplify_eq.
  - simpl seq. simpl foldM.
    destruct (Decoder_forward_total _ inp h eo bs S w Hdec HS Hinp Hintok Hh Heo)
      as (logits & h1 & w1 & _ & _ & _ & _ & _ & _ & Hrun & Hlsh & Hh1 & Hw1 & _).
    destruct (setitem_run outs T bs _ t logits Houts ltac:(lia) Hlsh) as [Hset Hsetsh].
    destruct (random_random_run w1) as (w2 & Hrand & Hr1 & Hr2 & Hr3 & Hr4 & Hr5 & Hr6).
    destruct (max1_indices_total bs _ logits HV Hlsh) as (top1 & Htop & Htl & Httok).
    destruct (lookup_lt_is_Some_2 trg t) as [row Hrow];
      [destruct Htrg as [-> _]; lia|].
    destruct Hw1 as (Hp1 & Hp2 & Hp3 & Hp4 & Hp5).
    set (d := uf_val (py_random w1 (py_pos w1))) in *.
    set (inp1 := if Qltb d ratio then row else top1).
    assert (Hinp1 : length inp1 = bs ∧
              tokens_in (Decoder.num_output_features (Seq2Seq.decoder self)) inp1).
    { unfold inp1. destruct (Qltb d ratio); [|done]. split.
      - eapply mat_shape_lookup; eauto.
      - rewrite Forall_lookup in Htok. eauto. }
    destruct Hinp1 as [Hinp1 Hinp1tok].
    destruct (IH (Datatypes.S t) (<[t := logits]> outs) inp1 h1 w2 ltac:(lia) ltac:(lia)
                Hsetsh Hinp1 Hinp1tok Hh1)
      as (outs' & inp' & h' & w' & steps & Hfold & Hosh & Hlen & Htr & Hpp & Hpr
          & Hge & Htb & Hframe & Hsteps & Hfirst & Hchain).
    exists outs', inp', h', w', ((inp, logits, d) :: steps).
    split.
    { rewrite (bind_run _ _ _ (<[t := logits]> outs, inp1, h1) w2); [exact Hfold|].
      unfold Seq2Seq.loop_body.
      step_with Hrun. step_lift Hset. step_with Hrand. step_lift Htop.
      unfold inp1. destruct (Qltb d ratio).
      - by step_lift Hrow.
      - done. }
    split; [done|]. split; [simpl; lia|].
    split.
    { rewrite Htr, Hr6, Hp5. unfold step_events. simpl.
      rewrite <- !app_assoc. done. }
    split; [rewrite Hpp, Hr2, Hp2; lia|].
    split; [congruence|]. split; [congruence|]. split; [congruence|].
    split.
    { intros j Hj. rewrite Hframe by lia. apply list_lookup_insert_ne. lia. }
    split.
    { intros [|k] s Hs; simpl in Hs.
      - injection Hs as <-. simpl. rewrite Nat.add_0_r. split.
        + rewrite Hframe by lia. apply list_lookup_insert_eq.
          destruct Houts as [-> _]. lia.
        + unfold d. by rewrite Hp1, Hp2, Nat.add_0_r.
      - destruct (Hsteps k s Hs) as [Ho Hd]. split.
        + by replace (t + Datatypes.S k) with (Datatypes.S t + k) by lia.
        + rewrite Hd, Hr1, Hr2, Hp1, Hp2. f_equal. f_equal. lia. }
    split; [by intros s [= <-]|].
    intros [|k] s s' Hs Hs'; simpl in Hs, Hs'.
    + injection Hs as <-. simpl. rewrite (Hfirst s' Hs'), Nat.add_0_r.
      unfold inp1. destruct (Qltb d ratio); [by rewrite Hrow | by rewrite Htop].
    + rewrite (Hchain k s s' Hs Hs').
      by replace (t + Datatypes.S k) with (Datatypes.S t + k) by lia.
Qed.
End DriverFacts.

Section DriverRuns.
Context {F : Type} {SF : Scalar F}.

(** A run of the driver on a valid batch. *)
Lemma forward_total (self : Seq2Seq.t F) (src trg : list (list nat)) (ratio : Q)
    (L T bs : nat) (w : World F) :
  Seq2Seq.wf self -> valid_src self L bs src -> valid_trg self T bs trg ->
  ∃ outputs w' steps,
    Seq2Seq.forward self src trg ratio w = Some (outputs, w')
    ∧ t3_shape T bs (Decoder.num_output_features (Seq2Seq.decoder self)) outputs
    ∧ outputs !! 0
      = Some (zeros2 bs (Decoder.num_output_features (Seq2Seq.decoder self)))
    ∧ length steps = T - 1
    ∧ trace w' = trace w ++ EvDriver ratio (grad_enabled w) :: EvEncoder src
                           :: step_events steps
    ∧ py_pos w' = py_pos w + (T - 1) ∧ py_random w' = py_random w
    ∧ grad_enabled w' = grad_enabled w
    ∧ (∀ k s, steps !! k = Some s ->
         outputs !! (S k) = Some s.1.2
         ∧ s.2 = uf_val (py_random w (py_pos w + k)))
    ∧ (∀ s, steps !! 0 = Some s -> trg !! 0 = Some s.1.1)
    ∧ (∀ k s s', steps !! k = Some s -> steps !! (S k) = Some s' ->
         Some s'.1.1 = if Qltb s.2 ratio then trg !! (S k)
                       else max1_indices s.1.2).
Proof.
  intros Hwf (HL & Hsrc & Hstok) (HT & Htrg & Httok).
  pose proof Hwf as (Henc & Hdec & Heh & Hdh & HV).
  destruct (emit_run (EvDriver ratio (grad_enabled w)) w)
    as (w0 & Hemit & He1 & He2 & He3 & He4 & He5).
  destruct (Encoder_forward_total _ src L bs w0 Henc HL Hsrc Hstok)
    as (eo & h & w1 & _ & _ & _ & _ & _ & _ & _ & _ & _ & _
        & Hrun & Heo & Hh & (Hp1 & Hp2 & Hp3 & Hp4 & Hp5) & _).
  rewrite Heh in Heo. rewrite Hdh in Hh.
  destruct (lookup_lt_is_Some_2 trg 0) as [row0 Hrow0];
    [destruct Htrg as [-> _]; lia|].
  set (V := Decoder.num_output_features (Seq2Seq.decoder self)) in *.
  assert (Hz : t3_shape T bs V (zeros3 T bs V)).
  { split; [apply length_replicate|]. apply Forall_replicate.
    apply mat_shape_replicate, length_replicate. }
  destruct (loop_total self trg ratio eo L T bs Hwf HL Heo Htrg Httok
              (T - 1) 1 (zeros3 T bs V) row0 h w1 ltac:(lia) ltac:(lia) Hz)
    as (outs' & inp' & h' & w' & steps & Hfold & Hosh & Hlen & Htr & Hpp & Hpr
        & Hge & Htb & Hframe & Hsteps & Hfirst & Hchain).
  { eapply mat_shape_lookup; eauto. }
  { rewrite Forall_lookup in Httok. eauto. }
  { done. }
  exists outs', w', steps. split.
  { unfold Seq2Seq.forward.
    rewrite (bind_run _ _ _ (grad_enabled w) w) by done. cbv beta.
    step_with Hemit. step_with Hrun. step_lift Hrow0.
    unfold dim0. rewrite (dim1_shape L bs src HL Hsrc).
    destruct Htrg as [HlT _]. rewrite HlT. fold V. step_with Hfold. done. }
  split; [done|].
  split.
  { rewrite Hframe by lia. unfold zeros3. apply lookup_replicate_2. lia. }
  split; [done|].
  split.
  { rewrite Htr, Hp5, He5. rewrite <- !app_assoc. done. }
  split; [lia|]. split; [congruence|]. split; [congruence|].
  split.
  { intros k s Hs. destruct (Hsteps k s Hs) as [Ho Hd]. split; [done|].
    rewrite Hd. by rewrite Hp1, Hp2, He1, He2. }
  split.
  { intros s Hs. by rewrite (Hfirst s Hs). }
  intros k s s' Hs Hs'. by rewrite (Hchain k s s' Hs Hs').
Qed.

(** The loop only writes the rows of the positions it visits. *)
Lemma loop_frame (self : Seq2Seq.t F) trg ratio eo ts :
  ∀ outs inp h w outs' inp' h' w',
    foldM (Seq2Seq.loop_body self trg ratio eo) (outs, inp, h) ts w
      = Some ((outs', inp', h'), w') ->
    length outs' = length outs
    ∧ ∀ j, j ∉ ts -> outs' !! j = outs !! j.
Proof.
  induction ts as [|t ts IH]; intros outs inp h w outs' inp' h' w' H; simpl in H.
  - by injection H as <- <- <- <-.
  - inv_bind H st w1 Hb. destruct st as [[outs1 inp1] h1].
    destruct (IH _ _ _ _ _ _ _ _ H) as [Hlen Hfr].
    unfold Seq2Seq.loop_body in Hb.
    inv_bind Hb oh w2 Hd. destruct oh as [logits h2].
    inv_lift Hb outs2 Hset. inv_bind Hb d w3 Hr. inv_lift Hb top1 Htop.
    inv_bind Hb nxt w4 Hn. injection Hb as <- <- <- <-.
    unfold Seq2Seq.setitem in Hset.
    destruct (outs !! t) as [old|]; [|done]. simpl in Hset.
    case_decide; [|done]. injection Hset as <-.
    split.
    + by rewrite Hlen, length_insert.
    + intros j Hj. apply not_elem_of_cons in Hj as [Hne Hj].
      rewrite Hfr by done. by apply list_lookup_insert_ne.
Qed.

(** The loop calls no driver and leaves the gradient mode alone. *)
Lemma loop_trace (self : Seq2Seq.t F) trg ratio eo ts :
  ∀ st w st' w',
    foldM (Seq2Seq.loop_body self trg ratio eo) st ts w = Some (st', w') ->
    ∃ evs, trace w' = trace w ++ evs ∧ driver_calls evs = []
           ∧ grad_enabled w' = grad_enabled w.
Proof.
  induction ts as [|t ts IH]; intros st w st' w' H; simpl in H.
  - injection H as <- <-. exists []. by rewrite app_nil_r.
  - inv_bind H st1 w1 Hb.
    destruct (IH _ _ _ _ H) as (evs & Htr & Hdc & Hg).
    destruct st as [[outs inp] h]. unfold Seq2Seq.loop_body in Hb.
    inv_bind Hb oh w2 Hd. destruct oh as [logits h2].
    apply Decoder_forward_world in Hd as (_ & _ & _ & Hd4 & Hd5).
    inv_lift Hb outs2 Hset. inv_bind Hb d w3 Hr. injection Hr as <- <-.
    inv_lift Hb top1 Htop.
    inv_bind Hb nxt w4 Hn. injection Hb as <- <-.
    assert (w4 = {| py_random := py_random w2; py_pos := S (py_pos w2);
                    torch_bernoulli := torch_bernoulli w2; torch_pos := torch_pos w2;
                    grad_enabled := grad_enabled w2;
                    trace := trace w2 ++ [EvRandom (uf_val (py_random w2 (py_pos w2)))] |})
      as ->.
    { destruct (Qltb _ ratio).
      - apply lift_inv in Hn as (? & _ & [= _ <-]). done.
      - by injection Hn as _ <-. }
    simpl in Htr, Hg.
    exists ([EvDecoder inp logits; EvRandom (uf_val (py_random w2 (py_pos w2)))] ++ evs).
    split; [|split].
    + rewrite Htr, Hd5. by rewrite <- !app_assoc.
    + unfold driver_calls in *. simpl. done.
    + congruence.
Qed.
End DriverRuns.

Section DriverInversion.
Context {F : Type} {SF : Scalar F}.

Lemma bind_ext_run {A B} (m : M F A) (k k' : A -> M F B) w :
  (∀ a w', m w = Some (a, w') -> k a w' = k' a w') ->
  bind m k w = bind m k' w.
Proof.
  intros H. unfold bind. destruct (m w) as [[a w']|]; [|done]. by apply H.
Qed.

Lemma foldM_ext {A St} (f g : St -> A -> M F St) l :
  (∀ s x w, f s x w = g s x w) -> ∀ s w, foldM f s l w = foldM g s l w.
Proof.
  intros H. induction l as [|x l IH]; intros s w; simpl; [done|].
  unfold bind. rewrite H. destruct (g s x w) as [[s' w']|]; [|done]. apply IH.
Qed.

Lemma forward_inv (self : Seq2Seq.t F) src trg ratio w outputs w' :
  Seq2Seq.forward self src trg ratio w = Some (outputs, w') ->
  ∃ w0 eo h w1 row0 inp' h',
    emitted [EvDriver ratio (grad_enabled w)] w w0
    ∧ Encoder.forward (Seq2Seq.encoder self) src w0 = Some ((eo, h), w1)
    ∧ trg !! 0 = Some row0
    ∧ foldM (Seq2Seq.loop_body self trg ratio eo)
        (zeros3 (length trg) (dim1 src)
           (Decoder.num_output_features (Seq2Seq.decoder self)), row0, h)
        (seq 1 (length trg - 1)) w1 = Some ((outputs, inp', h'), w').
Proof.
  unfold Seq2Seq.forward. intros H.
  inv_bind H g w0 Hg. injection Hg as <- <-.
  inv_bind H u w1 He. apply emit_inv in He.
  inv_bind H eh w2 Henc. destruct eh as [eo h].
  inv_lift H row0 Hrow.
  inv_bind H st w3 Hloop. destruct st as [[outs inp'] h'].
  injection H as <- <-.
  exists w1, eo, h, w2, row0, inp', h'. done.
Qed.

(** What any returning run of the driver leaves in the trace. *)
Lemma forward_trace (self : Seq2Seq.t F) src trg ratio w outputs w' :
  Seq2Seq.forward self src trg ratio w = Some (outputs, w') ->
  ∃ evs, trace w' = trace w ++ EvDriver ratio (grad_enabled w) :: evs
         ∧ driver_calls evs = [] ∧ grad_enabled w' = grad_enabled w.
Proof.
  intros H. apply forward_inv in H
    as (w0 & eo & h & w1 & row0 & inp' & h' & He & Henc & _ & Hloop).
  apply Encoder_forward_world in Henc.
  apply loop_trace in Hloop as (evs & Htr & Hdc & Hg).
  destruct He as (_ & _ & _ & He4 & He5). destruct Henc as (_ & _ & _ & Hn4 & Hn5).
  exists (EvEncoder src :: evs). split; [|split].
  - rewrite Htr, Hn5, He5. by rewrite <- !app_assoc.
  - done.
  - congruence.
Qed.
End DriverInversion.

(** ** The driver: the claims *)

Section DriverClaims.
Context {F : Type} {SF : Scalar F}.

(** C4. Whenever the driver returns, its output has as many time steps as
    the target and its row at time 0 is all zeros; and on a valid batch it
    does return. *)
Theorem driver_output_time_dimension (self : Seq2Seq.t F)
    (src trg : list (list nat)) (ratio : Q) (w : World F) :
  (∀ outputs w',
     Seq2Seq.forward self src trg ratio w = Some (outputs, w') ->
     length outputs = length trg
     ∧ outputs !! 0
       = Some (zeros2 (dim1 src) (Decoder.num_output_features (Seq2Seq.decoder self))))
  ∧ (∀ L T bs,
       Seq2Seq.wf self -> valid_src self L bs src -> valid_trg self T bs trg ->
       is_Some (Seq2Seq.forward self src trg ratio w)).
Proof.
  split.
  - intros outputs w' H. apply forward_inv in H
      as (w0 & eo & h & w1 & row0 & inp' & h' & _ & _ & Hrow & Hloop).
    apply loop_frame in Hloop as [Hlen Hfr].
    unfold zeros3 in *. rewrite length_replicate in Hlen. split; [done|].
    rewrite Hfr.
    + apply lookup_replicate_2. apply lookup_lt_Some in Hrow. lia.
    + rewrite elem_of_seq. lia.
  - intros L T bs Hwf Hsrc Htrg.
    destruct (forward_total self src trg ratio L T bs w Hwf Hsrc Htrg)
      as (outputs & w' & _ & -> & _). done.
Qed.

(** C10. With a target of one position the loop body never runs: the run
    consists of the call of the encoder alone, no decoder step, no random
    draw, and the output is the all-zero tensor with one time step. *)
Theorem driver_single_position_target (self : Seq2Seq.t F)
    (src : list (list nat)) (row : list nat) (ratio : Q) (w : World F) :
  (∀ outputs w',
     Seq2Seq.forward self src [row] ratio w = Some (outputs, w') ->
     outputs = zeros3 1 (dim1 src) (Decoder.num_output_features (Seq2Seq.decoder self))
     ∧ py_pos w' = py_pos w
     ∧ trace w' = trace w ++ [EvDriver ratio (grad_enabled w); EvEncoder src])
  ∧ (∀ L bs,
       Seq2Seq.wf self -> valid_src self L bs src ->
       is_Some (Seq2Seq.forward self src [row] ratio w)).
Proof.
  split.
  - intros outputs w' H. apply forward_inv in H
      as (w0 & eo & h & w1 & row0 & inp' & h' & He & Henc & _ & Hloop).
    simpl in Hloop. injection Hloop as <- _ _ <-.
    apply Encoder_forward_world in Henc.
    destruct He as (_ & He2 & _ & _ & He5). destruct Henc as (_ & Hn2 & _ & _ & Hn5).
    split; [done|]. split; [congruence|].
    rewrite Hn5, He5. by rewrite <- app_assoc.
  - intros L bs Hwf (HL & Hsrc & Hstok).
    destruct Hwf as (Henc & _).
    destruct (emit_run (EvDriver ratio (grad_enabled w)) w) as (w0 & Hemit & _).
    destruct (Encoder_forward_total _ src L bs w0 Henc HL Hsrc Hstok)
      as (eo & h & w1 & _ & _ & _ & _ & _ & _ & _ & _ & _ & _ & Hrun & _).
    unfold Seq2Seq.forward.
    rewrite (bind_run _ _ _ (grad_enabled w) w) by done. cbv beta.
    step_with Hemit. step_with Hrun. simpl. done.
Qed.
End DriverClaims.

Lemma Qltb_true (x y : Q) : (x < y)%Q -> Qltb x y = true.
Proof.
  intros H. unfold Qltb. destruct (Qle_bool y x) eqn:E; [|done].
  apply Qle_bool_iff in E. exfalso. by apply (Qlt_not_le x y).
Qed.

Lemma Qltb_false (x y : Q) : (y <= x)%Q -> Qltb x y = false.
Proof.
  intros H. unfold Qltb. apply Qle_bool_iff in H. by rewrite H.
Qed.

Lemma decoder_inputs_step_events {F} (steps : list (list nat * list (list F) * Q)) :
  decoder_inputs (step_events steps) = map (λ s, s.1.1) steps.
Proof.
  unfold decoder_inputs, step_events.
  induction steps as [|s steps IH]; simpl; [done|]. f_equal. exact IH.
Qed.

Section TeacherForcingClaims.
Context {F : Type} {SF : Scalar F}.


(** C9. With a teacher-forcing ratio of at least 1 every draw is below the
    ratio, so the decoder inputs of the run are the rows 0 .. T - 2 of the
    target, in order: the argmax is never fed back. *)
Theorem driver_full_teacher_forcing (self : Seq2Seq.t F)
    (src trg : list (list nat)) (ratio : Q) (L T bs : nat) (w : World F) :
  (1 <= ratio)%Q ->
  Seq2Seq.wf self -> valid_src self L bs src -> valid_trg self T bs trg ->
  ∃ outputs w' evs,
    Seq2Seq.forward self src trg ratio w = Some (outputs, w')
    ∧ trace w' = trace w ++ evs
    ∧ decoder_inputs evs = take (T - 1) trg.
Proof.
  intros Hratio Hwf Hsrc Htrg.
  destruct (forward_total self src trg ratio L T bs w Hwf Hsrc Htrg)
    as (outputs & w' & steps & Hrun & _ & _ & Hlen & Htr & _ & _ & _
        & Hsteps & Hfirst & Hchain).
  eexists outputs, w', _. split; [done|]. split; [exact Htr|].
  change (decoder_inputs (step_events steps) = take (T - 1) trg).
  rewrite decoder_inputs_step_events.
  destruct Htrg as (HT & [HlT _] & _).
  apply list_eq. intros k. rewrite list_lookup_fmap.
  destruct (decide (k < T - 1)) as [Hk|Hk].
  - rewrite lookup_take_lt by done.
    destruct (lookup_lt_is_Some_2 steps k) as [s Hs]; [lia|].
    rewrite Hs. simpl. destruct k as [|k].
    + by rewrite (Hfirst s Hs).
    + destruct (lookup_lt_is_Some_2 steps k) as [s0 Hs0]; [lia|].
      rewrite (Hchain k s0 s Hs0 Hs).
      destruct (Hsteps k s0 Hs0) as [_ Hd].
      rewrite Qltb_true; [done|].
      rewrite Hd. eapply Qlt_le_trans; [|exact Hratio].
      apply (uf_range (py_random w (py_pos w + k))).
  - rewrite lookup_take_ge by lia.
    rewrite (lookup_ge_None_2 steps k) by lia. done.
Qed.

(** C3. With teacher-forcing ratio 0 the run reads the target only for
    its length and its row 0: two targets of the same length with the same
    row 0 give the same result, from the same world. *)
Theorem driver_autoregressive_ignores_target (self : Seq2Seq.t F)
    (src trg trg' : list (list nat)) (w : World F) :
  length trg = length trg' -> trg !! 0 = trg' !! 0 ->
  Seq2Seq.forward self src trg 0 w = Seq2Seq.forward self src trg' 0 w.
Proof.
  intros Hlen Hrow. unfold Seq2Seq.forward, dim0.
  apply bind_ext_run. intros g w0 _.
  apply bind_ext_run. intros u w1 _.
  rewrite Hlen.
  apply bind_ext_run. intros [eo h] w2 _.
  rewrite Hrow.
  apply bind_ext_run. intros row0 w3 _.
  unfold bind.
  rewrite (foldM_ext (Seq2Seq.loop_body self trg 0 eo)
             (Seq2Seq.loop_body self trg' 0 eo)); [done|].
  clear. intros [[outs inp] h] t w. unfold Seq2Seq.loop_body.
  apply bind_ext_run. intros [logits h1] w1 _.
  apply bind_ext_run. intros outs1 w2 _.
  apply bind_ext_run. intros d w3 Hd.
  injection Hd as <- <-.
  rewrite Qltb_false; [done|].
  apply (uf_range (py_random w2 (py_pos w2))).
Qed.
End TeacherForcingClaims.

(** ** The encoder and the decoder step: the claims *)

Section LayerClaims.
Context {F : Type} {SF : Scalar F}.

(** C6. On a source batch of L ≥ 1 positions and batch size bs over the
    source vocabulary the encoder returns: representations of shape
    L × bs × 2·encoder-hidden, and a summary state of shape
    bs × decoder-hidden that is the hyperbolic tangent of the fully
    connected layer applied to the concatenation of the final states of
    the forward and of the backward recurrence over the embedded (and
    dropped-out) source. *)
Theorem encoder_outputs_and_summary (self : Encoder.t F) (src : list (list nat))
    (L bs : nat) (w : World F) :
  Encoder.wf self -> 0 < L -> mat_shape L bs src ->
  Forall (tokens_in (Encoder.num_input_features self)) src ->
  ∃ outputs hidden w' e embedded w0 w1 rev fo bo h_fwd h_bwd y,
    Encoder.forward self src w = Some ((outputs, hidden), w')
    ∧ t3_shape L bs (Encoder.encoder_hidden_dim self * 2) outputs
    ∧ mat_shape bs (Encoder.decoder_hidden_dim self) hidden
    ∧ emitted [EvEncoder src] w w0
    ∧ Embedding.forward2 (Encoder.embedding self) src = Some e
    ∧ Dropout.forward3 (Encoder.dropout self) e w0 = Some (embedded, w1)
    ∧ GRU.l0_reverse (Encoder.rnn self) = Some rev
    ∧ GRU.scan (Encoder.encoder_hidden_dim self) (GRU.l0 (Encoder.rnn self))
        embedded (zeros2 bs (Encoder.encoder_hidden_dim self)) = Some (fo, h_fwd)
    ∧ GRU.scan (Encoder.encoder_hidden_dim self) rev
        (reverse embedded) (zeros2 bs (Encoder.encoder_hidden_dim self))
      = Some (bo, h_bwd)
    ∧ Linear.forward2 (Encoder.fc self) (zip_with app h_fwd h_bwd) = Some y
    ∧ hidden = map (map stanh) y.
Proof.
  intros Hwf HL Hsrc Htok.
  destruct (Encoder_forward_total self src L bs w Hwf HL Hsrc Htok)
    as (outputs & hidden & w' & e & embedded & w0 & w1 & rev & fo & bo & h_fwd
        & h_bwd & y & H1 & H2 & H3 & H4 & H5 & H6 & H7 & H8 & H9 & H10 & H11 & H12).
  exists outputs, hidden, w', e, embedded, w0, w1, rev, fo, bo, h_fwd, h_bwd, y.
  auto 15.
Qed.

(** C5. On a valid input the decoder step returns, as first output, the
    fully connected layer [out] applied to the concatenation of the
    recurrent step output, the attention-weighted context and the embedded
    previous token, of shape bs × target-vocabulary-size, with nothing
    applied after it; and as second output the new decoder state, of shape
    bs × decoder-hidden. *)
Theorem decoder_step_outputs (self : Decoder.t F) (input : list nat)
    (decoder_hidden : list (list F)) (encoder_outputs : list (list (list F)))
    (bs S : nat) (w : World F) :
  Decoder.wf self -> 0 < S ->
  length input = bs -> tokens_in (Decoder.num_output_features self) input ->
  mat_shape bs (Decoder.decoder_hidden_dim self) decoder_hidden ->
  t3_shape S bs (Decoder.encoder_hidden_dim self * 2) encoder_outputs ->
  ∃ logits hidden' w' e embedded w1 ctx step_out c,
    Decoder.forward self input decoder_hidden encoder_outputs w
      = Some ((logits, hidden'), w')
    ∧ mat_shape bs (Decoder.num_output_features self) logits
    ∧ mat_shape bs (Decoder.decoder_hidden_dim self) hidden'
    ∧ Embedding.forward2 (Decoder.embedding self) [input] = Some e
    ∧ Dropout.forward3 (Decoder.dropout self) e w = Some ([embedded], w1)
    ∧ Decoder._weighted_encoder_rep self decoder_hidden encoder_outputs = Some [ctx]
    ∧ GRU.forward (Decoder.rnn self) [zip_with app embedded ctx]
        (Some [decoder_hidden]) = Some ([step_out], [hidden'])
    ∧ torch_cat1 [step_out; ctx; embedded] = Some c
    ∧ Linear.forward2 (Decoder.out self) c = Some logits.
Proof.
  intros Hwf HS Hin Htok Hh Heo.
  destruct (Decoder_forward_total self input decoder_hidden encoder_outputs bs S w
              Hwf HS Hin Htok Hh Heo)
    as (logits & hidden' & w' & e & embedded & w1 & ctx & step_out & c
        & H1 & H2 & H3 & H4 & H5 & H6 & H7 & H8 & H9 & H10).
  exists logits, hidden', w', e, embedded, w1, ctx, step_out, c. auto 15.
Qed.
End LayerClaims.

(** ** The attention weights over the real numbers *)

Section SoftmaxFacts.
Local Open Scope R_scope.

Lemma vsum_exp_pos (v : list R) : v ≠ [] -> 0 < vsum (map exp v).
Proof.
  induction v as [|x v IH]; [done|]. intros _. simpl.
  pose proof (exp_pos x). destruct v as [|y v].
  - simpl. lra.
  - assert (0 < vsum (map exp (y :: v))) by by apply IH. lra.
Qed.

Lemma vsum_div (e : list R) (s : R) :
  vsum (map (λ x, x / s) e) = vsum e / s.
Proof.
  induction e as [|x e IH]; simpl.
  - unfold Rdiv. lra.
  - rewrite IH. unfold Rdiv. lra.
Qed.

Lemma softmax_normalised (v : list R) :
  v ≠ [] -> Forall (λ x, 0 <= x) (softmax v) ∧ vsum (softmax v) = 1.
Proof.
  intros Hv. pose proof (vsum_exp_pos v Hv) as Hs. unfold softmax. split.
  - apply Forall_fmap, Forall_fmap, Forall_forall. intros x _. simpl.
    pose proof (exp_pos x). apply Rlt_le. by apply Rdiv_lt_0_compat.
  - simpl. rewrite vsum_div. apply Rdiv_diag. lra.
Qed.

(** C2. On a decoder state of shape bs × decoder-hidden and encoder
    representations of shape S × bs × 2·encoder-hidden with S ≥ 1, the
    attention scorer returns a bs × S matrix whose entries are
    non-negative and whose rows each sum to 1, in real arithmetic. *)
Theorem attention_rows_normalised (self : Attention.t R) (bs S : nat)
    (decoder_hidden : list (list R)) (encoder_outputs : list (list (list R))) :
  Attention.wf self -> (0 < S)%nat ->
  mat_shape bs (Attention.decoder_hidden_dim self) decoder_hidden ->
  t3_shape S bs (Attention.encoder_hidden_dim self * 2) encoder_outputs ->
  ∃ a, Attention.forward self decoder_hidden encoder_outputs = Some a
       ∧ mat_shape bs S a
       ∧ Forall (λ row, Forall (λ x, 0 <= x) row ∧ vsum row = 1) a.
Proof.
  intros Hwf HS Hh Heo.
  destruct (Attention_forward_total self bs S _ _ Hwf HS Hh Heo) as (scores & Hrun & Hsc).
  exists (map softmax scores). split; [done|].
  split; [by apply map_softmax_shape|].
  apply Forall_fmap. destruct Hsc as [_ Hrows].
  eapply Forall_impl; [exact Hrows|]. intros v Hv. simpl.
  apply softmax_normalised. intros ->. simpl in Hv. lia.
Qed.
End SoftmaxFacts.

(** ** The loss *)

Section LossFacts.
Context {F : Type} {SF : Scalar F}.

Lemma Forall3_concat {A B C} (P : A -> B -> C -> Prop) ls ks ms :
  Forall3 (Forall3 P) ls ks ms -> Forall3 P (concat ls) (concat ks) (concat ms).
Proof.
  induction 1 as [|l k m ls ks ms H _ IH]; simpl; [constructor|].
  by apply Forall3_app.
Qed.

Lemma cross_entropy_terms_agree (self : CrossEntropyLoss.t)
    (x x' : list (list F)) (y : list nat) :
  Forall3 (λ a a' b, b ≠ CrossEntropyLoss.ignore_index self -> a = a') x x' y ->
  mapM (λ p, CrossEntropyLoss.term self p.1 p.2) (zip x y)
  = mapM (λ p, CrossEntropyLoss.term self p.1 p.2) (zip x' y).
Proof.
  induction 1 as [|a a' b x x' y Hab _ IH]; simpl; [done|].
  rewrite IH. f_equal. unfold CrossEntropyLoss.term.
  case_decide as Hb; [done|]. by rewrite (Hab Hb).
Qed.

(** C7. The loss both loops compute does not depend on the scores at the
    positions, from time step 1 on, whose target is the pad id: two score
    tensors that agree at every other such position give the same loss
    (or are both refused). *)
Theorem loss_ignores_pad_positions (criterion : CrossEntropyLoss.t) (vocab : nat)
    (output output' : list (list (list F))) (trg : list (list nat)) :
  agree_off_pad (CrossEntropyLoss.ignore_index criterion) output output' trg ->
  loss_of criterion vocab output trg = loss_of criterion vocab output' trg.
Proof.
  intros H. apply Forall3_concat in H. unfold loss_of.
  case_decide; [done|]. unfold CrossEntropyLoss.forward.
  rewrite <- (Forall3_length_lm _ _ _ _ H).
  case_decide; [|done].
  by rewrite (cross_entropy_terms_agree criterion _ _ _ H).
Qed.

Lemma Forall2_concat_rows {A B} (P : A -> B -> Prop) ls ks :
  Forall2 (Forall2 P) ls ks -> Forall2 P (concat ls) (concat ks).
Proof.
  induction 1 as [|l k ls ks H _ IH]; simpl; [constructor|].
  by apply Forall2_app.
Qed.

Lemma cross_entropy_total (self : CrossEntropyLoss.t) V
    (x : list (list F)) (y : list nat) :
  Forall2 (λ a b, length a = V ∧ b < V) x y ->
  is_Some (CrossEntropyLoss.forward self x y).
Proof.
  intros H. unfold CrossEntropyLoss.forward.
  rewrite decide_True by (by eapply Forall2_length).
  assert (Ht : is_Some (mapM (λ p, CrossEntropyLoss.term self p.1 p.2) (zip x y))).
  { induction H as [|a b x y [Ha Hb] _ IH]; simpl; [done|].
    destruct IH as [ts ->]. unfold CrossEntropyLoss.term. simpl.
    case_decide; [done|].
    destruct (lookup_lt_is_Some_2 (log_softmax a) b) as [lp ->]; [|done].
    unfold log_softmax. rewrite length_map. lia. }
  destruct Ht as [ts ->]. done.
Qed.

Lemma loss_of_total (criterion : CrossEntropyLoss.t) V T bs
    (output : list (list (list F))) (trg : list (list nat)) :
  0 < V -> t3_shape T bs V output -> mat_shape T bs trg ->
  Forall (tokens_in V) trg ->
  is_Some (loss_of criterion V output trg).
Proof.
  intros HV [Hlo Ho] [Hlt Ht] Htok. unfold loss_of.
  rewrite decide_False by lia.
  apply (cross_entropy_total criterion V), Forall2_concat_rows.
  apply Forall2_same_length_lookup. split.
  - rewrite !length_drop. lia.
  - intros i m r Hm Hr. rewrite lookup_drop in Hm. rewrite lookup_drop in Hr.
    rewrite Forall_lookup in Ho. rewrite Forall_lookup in Ht.
    rewrite Forall_lookup in Htok.
    destruct (Ho _ _ Hm) as [Hml Hmr]. specialize (Ht _ _ Hr). specialize (Htok _ _ Hr).
    apply Forall2_same_length_lookup. split; [congruence|].
    intros j a b Ha Hb. rewrite Forall_lookup in Hmr.
    unfold tokens_in in Htok. rewrite Forall_lookup in Htok. eauto.
Qed.
End LossFacts.

(** ** The evaluation loop *)

Section EvaluateFacts.
Context {F : Type} {SF : Scalar F}.

Lemma driver_calls_app (evs1 evs2 : list (Event F)) :
  driver_calls (evs1 ++ evs2) = driver_calls evs1 ++ driver_calls evs2.
Proof. unfold driver_calls. apply omap_app. Qed.

Lemma wf_eval (model : Seq2Seq.t F) :
  Seq2Seq.wf model -> Seq2Seq.wf (Seq2Seq.eval model).
Proof. intros H. exact H. Qed.



Lemma evaluate_loop_total (model : Seq2Seq.t F) (criterion : CrossEntropyLoss.t)
    (iterator : list Batch) :
  Seq2Seq.wf model -> Forall (valid_batch model) iterator ->
  ∀ acc w, is_Some (foldM (evaluate_body model criterion) acc iterator w).
Proof.
  intros Hwf Hit. induction Hit as [|b it (L & T & bs & Hsrc & Htrg) _ IH];
    intros acc w; simpl; [done|].
  destruct (forward_total model (src b) (trg b) 0 L T bs w Hwf Hsrc Htrg)
    as (outputs & w' & _ & Hrun & Hosh & _).
  pose proof Hwf as (_ & _ & _ & _ & HV). destruct Htrg as (_ & Htsh & Httok).
  destruct (loss_of_total criterion _ T bs outputs (trg b) HV Hosh Htsh Httok)
    as [loss Hloss].
  rewrite (bind_run _ _ _ (sadd acc loss) w'); [apply IH|].
  unfold evaluate_body. step_with Hrun. step_lift Hloss. done.
Qed.


Lemma evaluate_total (model : Seq2Seq.t F) (iterator : list Batch)
    (criterion : CrossEntropyLoss.t) (w : World F) :
  Seq2Seq.wf model -> iterator ≠ [] -> Forall (valid_batch model) iterator ->
  is_Some (evaluate model iterator criterion w).
Proof.
  intros Hwf Hne Hvalid. unfold evaluate.
  rewrite (bind_run _ _ _ (grad_enabled w) w) by done. cbv beta.
  match goal with
  | |- is_Some (bind (set_grad_enabled false) _ w) =>
      destruct (set_grad_enabled (F := F) false w) as [[u w1]|] eqn:Hs; [|done]
  end.
  step_with Hs.
  destruct (evaluate_loop_total (Seq2Seq.eval model) criterion iterator
              (wf_eval model Hwf) Hvalid s0 w1) as [[epoch_loss w2] Hloop].
  step_with Hloop.
  rewrite (bind_run _ _ _ tt _ eq_refl). cbv beta.
  rewrite decide_False; [done|]. by destruct iterator.
Qed.




End EvaluateFacts.

(** ** The claims on the small instance *)

Ltac solve_shapes :=
  repeat match goal with
         | |- _ ∧ _ => split
         | |- is_Some (Some _) => eexists; reflexivity
         | |- ∀ _, _ => intro
         | H : Some _ = Some _ |- _ => injection H as <-
         | H : None = Some _ |- _ => discriminate H
         | H : _ = Some _ |- _ => progress cbn in H
         | |- Forall _ [] => apply Forall_nil
         | |- Forall _ (_ :: _) => apply Forall_cons
         | |- Forall3 _ [] [] [] => apply Forall3_nil
         | |- Forall3 _ (_ :: _) (_ :: _) (_ :: _) => apply Forall3_cons
         | |- _ => progress (cbn; unfold mat_shape, t3_shape, tokens_in)
         | |- _ => reflexivity
         | |- _ => lia
         | |- _ => done
         end.

(** Shape and vocabulary side conditions of the small instance. *)
Ltac solve_example :=
  unfold Seq2Seq.wf, Encoder.wf, Decoder.wf, Attention.wf, GRU.wf, GRU.layer_wf,
    Linear.wf, Embedding.wf, valid_batch, valid_src, valid_trg, agree_off_pad,
    example_batch, example_src, example_trg, example_trg', example_scores;
  solve_shapes.


(** With ratio 1 the small instance feeds the decoder rows 0 and 1 of the target. *)
Lemma driver_full_teacher_forcing_witness :
  ∃ outputs w' evs,
    Seq2Seq.forward (example_model 1%R) example_src example_trg 1 example_world
      = Some (outputs, w')
    ∧ trace w' = evs
    ∧ decoder_inputs evs = [[0; 0]; [1; 2]].
Proof.
  destruct (driver_full_teacher_forcing (example_model 1%R) example_src example_trg
              1 2 3 2 example_world)
    as (outputs & w' & evs & Hrun & Htr & Hin); [solve_example ..|].
  exists outputs, w', evs. split; [exact Hrun|]. split; [exact Htr | exact Hin].
Defined.

(** With ratio 0 the small instance gives the same result on two targets that share row 0. *)
Lemma driver_autoregressive_ignores_target_witness :
  Seq2Seq.forward (example_model 1%R) example_src example_trg 0 example_world
  = Seq2Seq.forward (example_model 1%R) example_src example_trg' 0 example_world.
Proof.
  apply driver_autoregressive_ignores_target; reflexivity.
Defined.

(** The output of the small instance has three time steps and a zero first row. *)
Lemma driver_output_time_dimension_witness :
  ∃ outputs w',
    Seq2Seq.forward (example_model 1%R) example_src example_trg (1 # 2) example_world
      = Some (outputs, w')
    ∧ length outputs = 3
    ∧ outputs !! 0 = Some (zeros2 2 3).
Proof.
  destruct (driver_output_time_dimension (example_model 1%R) example_src example_trg
              (1 # 2) example_world) as [Hpartial Htotal].
  destruct (Htotal 2 3 2) as [[outputs w'] Hrun]; [solve_example ..|].
  exists outputs, w'. split; [exact Hrun|]. exact (Hpartial outputs w' Hrun).
Defined.

(** The small instance on a target of one position. *)
Lemma driver_single_position_target_witness :
  ∃ w',
    Seq2Seq.forward (example_model 1%R) example_src [[0; 0]] (1 # 2) example_world
      = Some (zeros3 1 2 3, w')
    ∧ py_pos w' = 0
    ∧ trace w' = [EvDriver (1 # 2) true; EvEncoder example_src].
Proof.
  destruct (driver_single_position_target (example_model 1%R) example_src [0; 0]
              (1 # 2) example_world) as [Hpartial Htotal].
  destruct (Htotal 2 2) as [[outputs w'] Hrun]; [solve_example ..|].
  destruct (Hpartial outputs w' Hrun) as (Hout & Hpos & Htr).
  exists w'. rewrite Hrun, Hout. split; [reflexivity|]. split; [exact Hpos | exact Htr].
Defined.

(** The encoder of the small instance. *)
Lemma encoder_outputs_and_summary_witness :
  ∃ outputs hidden w',
    Encoder.forward (example_encoder 1%R) example_src example_world
      = Some ((outputs, hidden), w')
    ∧ t3_shape 2 2 2 outputs ∧ mat_shape 2 1 hidden.
Proof.
  destruct (encoder_outputs_and_summary (example_encoder 1%R) example_src 2 2
              example_world)
    as (outputs & hidden & w' & e & embedded & w0 & w1 & rev & fo & bo & hf & hb & y
        & Hrun & Ho & Hh & _); [solve_example ..|].
  exists outputs, hidden, w'. split; [exact Hrun|]. split; [exact Ho | exact Hh].
Defined.

(** The decoder step of the small instance. *)
Lemma decoder_step_outputs_witness :
  ∃ logits hidden' w',
    Decoder.forward (example_decoder 1%R) [0; 1] (zeros2 2 1) (zeros3 2 2 2) example_world
      = Some ((logits, hidden'), w')
    ∧ mat_shape 2 3 logits ∧ mat_shape 2 1 hidden'.
Proof.
  destruct (decoder_step_outputs (example_decoder 1%R) [0; 1] (zeros2 2 1)
              (zeros3 2 2 2) 2 2 example_world)
    as (logits & hidden' & w' & e & embedded & w1 & ctx & step_out & c
        & Hrun & Hl & Hh & _); [solve_example ..|].
  exists logits, hidden', w'. split; [exact Hrun|]. split; [exact Hl | exact Hh].
Defined.

(** The attention weights of the small instance. *)
Lemma attention_rows_normalised_witness :
  ∃ a, Attention.forward (example_attention 1%R) (zeros2 2 1) (zeros3 2 2 2) = Some a
       ∧ mat_shape 2 2 a
       ∧ Forall (λ row, Forall (λ x, (0 <= x)%R) row ∧ vsum row = 1%R) a.
Proof.
  apply (attention_rows_normalised (example_attention 1%R) 2 2); solve_example.
Defined.

(** Two score tensors that differ only at a pad position have the same loss. *)
Lemma loss_ignores_pad_positions_witness :
  loss_of {| CrossEntropyLoss.ignore_index := 1 |} 2 (example_scores 0 0) [[0]; [1]]
  = loss_of {| CrossEntropyLoss.ignore_index := 1 |} 2 (example_scores 5 7) [[0]; [1]].
Proof.
  apply loss_ignores_pad_positions. solve_example.
Defined.


(** * Further properties of the code *)

(** ** Inputs the model refuses *)

Section Refusals.
Context {F : Type} {SF : Scalar F}.

Lemma bind_fail {A B} (m : M F A) (k : A -> M F B) w :
  m w = None -> bind m k w = None.
Proof. intros H. unfold bind. by rewrite H. Qed.

Lemma Embedding_forward_row_unknown (e : Embedding.t F) (row : list nat) :
  Embedding.wf e ->
  Exists (λ i, Embedding.num_embeddings e ≤ i) row ->
  mapM (Embedding.forward e) row = None.
Proof.
  intros [Hl _] Hex. apply mapM_None_2.
  eapply Exists_impl; [exact Hex|]. intros i Hi. simpl in Hi.
  unfold Embedding.forward. apply lookup_ge_None_2. lia.
Qed.

Lemma Embedding_forward2_unknown (e : Embedding.t F) (x : list (list nat)) :
  Embedding.wf e ->
  Exists (Exists (λ i, Embedding.num_embeddings e ≤ i)) x ->
  Embedding.forward2 e x = None.
Proof.
  intros Hwf Hex. unfold Embedding.forward2. apply mapM_None_2.
  eapply Exists_impl; [exact Hex|]. intros row Hrow. simpl.
  by apply Embedding_forward_row_unknown.
Qed.

(** X1. An empty target batch is refused: [trg[0,:]] has nothing to index,
    whatever the source and the ratio. *)
Theorem driver_refuses_empty_target (self : Seq2Seq.t F) (src : list (list nat))
    (ratio : Q) (w : World F) :
  Seq2Seq.forward self src [] ratio w = None.
Proof.
  unfold Seq2Seq.forward.
  rewrite (bind_run _ _ _ (grad_enabled w) w) by done. cbv beta.
  destruct (emit_run (EvDriver ratio (grad_enabled w)) w) as (w0 & He & _).
  step_with He. unfold bind.
  destruct (Encoder.forward (Seq2Seq.encoder self) src w0) as [[[eo h] w1]|]; done.
Qed.

(** X2. A source batch that contains a token id outside the embedding table
    is refused by the encoder, in training and in evaluation mode alike. *)
Theorem encoder_refuses_unknown_token (self : Encoder.t F) (src : list (list nat))
    (w : World F) :
  Embedding.wf (Encoder.embedding self) ->
  Exists (Exists (λ i, Embedding.num_embeddings (Encoder.embedding self) ≤ i)) src ->
  Encoder.forward self src w = None.
Proof.
  intros Hwf Hex. unfold Encoder.forward.
  destruct (emit_run (EvEncoder src) w) as (w0 & He & _). step_with He.
  apply bind_fail. unfold lift.
  by rewrite (Embedding_forward2_unknown _ _ Hwf Hex).
Qed.

(** X3. A previous-token batch that contains an id outside the target
    embedding table is refused by the decoder step, whatever the state and
    the encoder representations. *)
Theorem decoder_refuses_unknown_token (self : Decoder.t F) (input : list nat)
    (decoder_hidden : list (list F)) (encoder_outputs : list (list (list F)))
    (w : World F) :
  Embedding.wf (Decoder.embedding self) ->
  Exists (λ i, Embedding.num_embeddings (Decoder.embedding self) ≤ i) input ->
  Decoder.forward self input decoder_hidden encoder_outputs w = None.
Proof.
  intros Hwf Hex. unfold Decoder.forward, unsqueeze0.
  apply bind_fail. unfold lift.
  rewrite (Embedding_forward2_unknown _ [input] Hwf); [done|].
  by apply Exists_cons_hd.
Qed.

Lemma Decoder_forward_batch_mismatch (self : Decoder.t F) (input : list nat)
    (decoder_hidden : list (list F)) (encoder_outputs : list (list (list F)))
    (bs bs' S : nat) (w : World F) :
  Decoder.wf self -> 0 < S ->
  length input = bs' -> tokens_in (Decoder.num_output_features self) input ->
  mat_shape bs (Decoder.decoder_hidden_dim self) decoder_hidden ->
  t3_shape S bs (Decoder.encoder_hidden_dim self * 2) encoder_outputs ->
  bs' ≠ bs ->
  Decoder.forward self input decoder_hidden encoder_outputs w = None.
Proof.
  intros Hwf HS Hin Htok Hh Heo Hne.
  pose proof Hwf as (_ & _ & _ & Hemb & Hnum & Hed & _).
  destruct (Embedding_forward2_shape (Decoder.embedding self) 1 bs' [input] Hemb)
    as (e & Hemb2 & Hesh).
  { split; [done|]. by apply Forall_singleton. }
  { apply Forall_singleton. by rewrite Hnum. }
  destruct (Dropout_forward3_shape (Decoder.dropout self) _ _ _ e w Hesh)
    as (emb3 & w1 & Hdrop & Hdsh & _).
  destruct (t3_shape_singleton _ _ _ Hdsh) as (embedded & -> & [Hel _]).
  destruct (weighted_encoder_rep_total self bs S _ _ Hwf HS Hh Heo)
    as (ctx & Hctx & [Hcl _]).
  unfold Decoder.forward, unsqueeze0. step_lift Hemb2. step_with Hdrop.
  step_lift Hctx. apply bind_fail. unfold lift. simpl. unfold cat_mats.
  rewrite decide_False; [done|].
  intros Hall. inversion Hall as [|???? Hlen _]. simpl in *. lia.
Qed.

(** X4. The decoder step refuses a previous-token batch whose size differs
    from the batch size of the state and of the encoder representations:
    the embedded tokens and the context cannot be concatenated. *)
Theorem decoder_refuses_batch_size_mismatch (self : Decoder.t F) (input : list nat)
    (decoder_hidden : list (list F)) (encoder_outputs : list (list (list F)))
    (bs bs' S : nat) (w : World F) :
  Decoder.wf self -> 0 < S ->
  length input = bs' -> tokens_in (Decoder.num_output_features self) input ->
  mat_shape bs (Decoder.decoder_hidden_dim self) decoder_hidden ->
  t3_shape S bs (Decoder.encoder_hidden_dim self * 2) encoder_outputs ->
  bs' ≠ bs ->
  Decoder.forward self input decoder_hidden encoder_outputs w = None.
Proof.
  intros Hwf HS Hin Htok Hh Heo Hne.
  by apply (Decoder_forward_batch_mismatch self input _ _ bs bs' S).
Qed.

(** X5. The driver refuses a target batch of two or more positions whose
    batch size differs from the source's, at the first decoder step.  (A
    target of one position is never fed to the decoder: see C10.) *)
Theorem driver_refuses_batch_size_mismatch (self : Seq2Seq.t F)
    (src trg : list (list nat)) (ratio : Q) (L T bs bs' : nat) (w : World F) :
  Seq2Seq.wf self -> valid_src self L bs src ->
  1 < T -> mat_shape T bs' trg ->
  Forall (tokens_in (Decoder.num_output_features (Seq2Seq.decoder self))) trg ->
  bs' ≠ bs ->
  Seq2Seq.forward self src trg ratio w = None.
Proof.
  intros Hwf (HL & Hsrc & Hstok) HT Htrg Httok Hne.
  pose proof Hwf as (Henc & Hdec & Heh & Hdh & HV).
  destruct (emit_run (EvDriver ratio (grad_enabled w)) w) as (w0 & Hemit & _).
  destruct (Encoder_forward_total _ src L bs w0 Henc HL Hsrc Hstok)
    as (eo & h & w1 & _ & _ & _ & _ & _ & _ & _ & _ & _ & _ & Hrun & Heo & Hh & _).
  rewrite Heh in Heo. rewrite Hdh in Hh.
  destruct (lookup_lt_is_Some_2 trg 0) as [row0 Hrow0];
    [destruct Htrg as [-> _]; lia|].
  unfold Seq2Seq.forward.
  rewrite (bind_run _ _ _ (grad_enabled w) w) by done. cbv beta.
  step_with Hemit. step_with Hrun. step_lift Hrow0.
  apply bind_fail. unfold dim0. destruct Htrg as [HlT Hrows]. rewrite HlT.
  destruct T as [|[|T]]; [lia | lia |]. simpl. apply bind_fail.
  unfold Seq2Seq.loop_body. apply bind_fail.
  apply (Decoder_forward_batch_mismatch
           (Seq2Seq.decoder self) row0 h eo bs bs' L w1); try done.
  - eapply Forall_lookup_1 in Hrows; eauto.
  - eapply Forall_lookup_1 in Httok; eauto.
Qed.
End Refusals.

(** ** The driver on valid batches: shape and draws *)

Section DriverShape.
Context {F : Type} {SF : Scalar F}.

(** X6. On a valid batch the driver's output has shape
    target length × batch size × target vocabulary, the run draws exactly
    target length - 1 values from Python's generator and leaves the gradient
    mode as it was. *)
Theorem driver_output_shape_and_draws (self : Seq2Seq.t F)
    (src trg : list (list nat)) (ratio : Q) (L T bs : nat) (w : World F) :
  Seq2Seq.wf self -> valid_src self L bs src -> valid_trg self T bs trg ->
  ∃ outputs w',
    Seq2Seq.forward self src trg ratio w = Some (outputs, w')
    ∧ t3_shape T bs (Decoder.num_output_features (Seq2Seq.decoder self)) outputs
    ∧ py_pos w' = py_pos w + (T - 1)
    ∧ grad_enabled w' = grad_enabled w.
Proof.
  intros Hwf Hsrc Htrg.
  destruct (forward_total self src trg ratio L T bs w Hwf Hsrc Htrg)
    as (outputs & w' & steps & Hrun & Hsh & _ & _ & _ & Hpos & _ & Hg & _).
  exists outputs, w'. auto.
Qed.
End DriverShape.

(** ** Evaluation does not depend on the random generators *)

Section WorldBlind.
Context {F : Type} {SF : Scalar F}.

Lemma wb_ret {A} (a : A) : world_blind (F := F) (ret a) (ret a).
Proof. by intros w1 w2. Qed.

Lemma wb_lift {A} (o : option A) : world_blind (F := F) (lift o) (lift o).
Proof. intros w1 w2. unfold same_value, lift. by destruct o. Qed.

Lemma wb_bind {A B} (m1 m2 : M F A) (k1 k2 : A -> M F B) :
  world_blind m1 m2 -> (∀ a, world_blind (k1 a) (k2 a)) ->
  world_blind (bind m1 k1) (bind m2 k2).
Proof.
  intros Hm Hk w1 w2. specialize (Hm w1 w2). unfold same_value, bind in *.
  destruct (m1 w1) as [[a1 w1']|], (m2 w2) as [[a2 w2']|]; simpl in Hm;
    try done.
  injection Hm as <-. apply Hk.
Qed.

(** Computations that always return, with values in [P]: what follows may
    depend on the value only through [P]. *)
Lemma wb_bind_total {A B} (P : A -> Prop) (m1 m2 : M F A) (k1 k2 : A -> M F B) :
  (∀ w, ∃ a w', m1 w = Some (a, w') ∧ P a) ->
  (∀ w, ∃ a w', m2 w = Some (a, w') ∧ P a) ->
  (∀ a1 a2, P a1 -> P a2 -> world_blind (k1 a1) (k2 a2)) ->
  world_blind (bind m1 k1) (bind m2 k2).
Proof.
  intros H1 H2 Hk w1 w2.
  destruct (H1 w1) as (a1 & w1' & E1 & P1). destruct (H2 w2) as (a2 & w2' & E2 & P2).
  unfold same_value, bind. rewrite E1, E2. by apply Hk.
Qed.

Lemma wb_emit {A} (e1 e2 : Event F) (k1 k2 : M F A) :
  world_blind k1 k2 ->
  world_blind (bind (emit e1) (λ _, k1)) (bind (emit e2) (λ _, k2)).
Proof.
  intros Hk. apply (wb_bind_total (λ _, True)); [intros ?; eexists _, _; split; [reflexivity | exact I] ..|]. auto.
Qed.

Lemma wb_foldM {A St} (f g : St -> A -> M F St) l :
  (∀ s x, world_blind (f s x) (g s x)) ->
  ∀ s, world_blind (foldM f s l) (foldM g s l).
Proof.
  intros H. induction l as [|x l IH]; intros s; simpl.
  - apply wb_ret.
  - apply wb_bind; [apply H | apply IH].
Qed.

Lemma wb_Dropout_eval (d : Dropout.t F) x :
  Dropout.training d = false ->
  world_blind (Dropout.forward3 d x) (Dropout.forward3 d x).
Proof. intros H. unfold Dropout.forward3. rewrite H. apply wb_ret. Qed.

Lemma wb_Encoder_eval (self : Encoder.t F) src :
  Dropout.training (Encoder.dropout self) = false ->
  world_blind (Encoder.forward self src) (Encoder.forward self src).
Proof.
  intros H. unfold Encoder.forward. apply wb_emit.
  apply wb_bind; [apply wb_lift|]. intros e.
  apply wb_bind; [by apply wb_Dropout_eval|]. intros embedded.
  apply wb_bind; [apply wb_lift|]. intros [outputs hidden].
  apply wb_bind; [apply wb_lift|]. intros hf.
  apply wb_bind; [apply wb_lift|]. intros hb.
  apply wb_bind; [apply wb_lift|]. intros c.
  apply wb_bind; [apply wb_lift|]. intros y. apply wb_ret.
Qed.

Lemma wb_Decoder_eval (self : Decoder.t F) input h eo :
  Dropout.training (Decoder.dropout self) = false ->
  world_blind (Decoder.forward self input h eo) (Decoder.forward self input h eo).
Proof.
  intros H. unfold Decoder.forward.
  apply wb_bind; [apply wb_lift|]. intros e.
  apply wb_bind; [by apply wb_Dropout_eval|]. intros embedded.
  apply wb_bind; [apply wb_lift|]. intros wr.
  apply wb_bind; [apply wb_lift|]. intros ri.
  apply wb_bind; [apply wb_lift|]. intros [output dh].
  apply wb_bind; [apply wb_lift|]. intros em.
  apply wb_bind; [apply wb_lift|]. intros o.
  apply wb_bind; [apply wb_lift|]. intros wr'.
  apply wb_bind; [apply wb_lift|]. intros c.
  apply wb_bind; [apply wb_lift|]. intros out.
  apply wb_bind; [apply wb_lift|]. intros dh'.
  apply wb_emit. apply wb_ret.
Qed.

Lemma wb_loop_body_eval (self : Seq2Seq.t F) trg eo st t :
  Dropout.training (Decoder.dropout (Seq2Seq.decoder self)) = false ->
  world_blind (Seq2Seq.loop_body self trg 0 eo st t)
              (Seq2Seq.loop_body self trg 0 eo st t).
Proof.
  intros H. destruct st as [[outputs output] hidden]. unfold Seq2Seq.loop_body.
  apply wb_bind; [by apply wb_Decoder_eval|]. intros [logits h1].
  apply wb_bind; [apply wb_lift|]. intros outputs1.
  apply (wb_bind_total (λ d, (0 <= d)%Q)).
  1, 2: intros w; eexists _, _; split; [reflexivity|];
        apply (uf_range (py_random w (py_pos w))).
  intros d1 d2 Hd1 Hd2. rewrite !Qltb_false by done.
  apply wb_bind; [apply wb_lift|]. intros top1.
  apply wb_bind; [apply wb_ret|]. intros nxt. apply wb_ret.
Qed.

Lemma wb_forward_eval (self : Seq2Seq.t F) src trg :
  Dropout.training (Encoder.dropout (Seq2Seq.encoder self)) = false ->
  Dropout.training (Decoder.dropout (Seq2Seq.decoder self)) = false ->
  world_blind (Seq2Seq.forward self src trg 0) (Seq2Seq.forward self src trg 0).
Proof.
  intros He Hd. unfold Seq2Seq.forward.
  apply (wb_bind_total (λ _, True)); [intros ?; eexists _, _; split; [reflexivity | exact I] ..|]. intros g1 g2 _ _.
  apply wb_emit.
  apply wb_bind; [by apply wb_Encoder_eval|]. intros [eo h].
  apply wb_bind; [apply wb_lift|]. intros row0.
  apply wb_bind; [|intros [[outputs inp] h']; apply wb_ret].
  apply wb_foldM. intros st t. by apply wb_loop_body_eval.
Qed.

(** X7. In evaluation mode and with teacher-forcing ratio 0 the output of
    the driver does not depend on the world it runs in: not on the streams
    of the two random generators, not on how far they have been consumed,
    not on the gradient mode.  Two runs from any two worlds return the same
    scores, or both raise. *)
Theorem driver_evaluation_mode_is_reproducible (self : Seq2Seq.t F)
    (src trg : list (list nat)) (w1 w2 : World F) :
  Dropout.training (Encoder.dropout (Seq2Seq.encoder self)) = false ->
  Dropout.training (Decoder.dropout (Seq2Seq.decoder self)) = false ->
  fst <$> Seq2Seq.forward self src trg 0 w1 = fst <$> Seq2Seq.forward self src trg 0 w2.
Proof. intros He Hd. by apply wb_forward_eval. Qed.

(** X8. The mean loss and the model [evaluate] returns do not depend on the
    world it runs in, whatever mode the model was in before the call: two
    calls from any two worlds return the same, or both raise. *)
Theorem evaluate_is_reproducible (model : Seq2Seq.t F) (iterator : list Batch)
    (criterion : CrossEntropyLoss.t) (w1 w2 : World F) :
  fst <$> evaluate model iterator criterion w1
  = fst <$> evaluate model iterator criterion w2.
Proof.
  revert w1 w2. change (world_blind (evaluate model iterator criterion)
                                    (evaluate model iterator criterion)).
  unfold evaluate.
  apply (wb_bind_total (λ _, True)); [intros ?; eexists _, _; split; [reflexivity | exact I] ..|]. intros g1 g2 _ _.
  apply (wb_bind_total (λ _, True)); [intros ?; eexists _, _; split; [reflexivity | exact I] ..|]. intros u1 u2 _ _.
  apply wb_bind.
  - apply wb_foldM. intros acc b. unfold evaluate_body.
    apply wb_bind; [by apply wb_forward_eval|]. intros output.
    apply wb_bind; [apply wb_lift|]. intros loss. apply wb_ret.
  - intros epoch_loss.
    apply (wb_bind_total (λ _, True)); [intros ?; eexists _, _; split; [reflexivity | exact I] ..|]. intros u3 u4 _ _.
    case_decide; [apply wb_lift | apply wb_ret].
Qed.
End WorldBlind.

(** ** The greedy choice and the loss, over the real numbers *)

Section RealFacts.
Local Open Scope R_scope.

Lemma argmax_from_spec (v pre : list R) (bi : nat) (b : R) :
  pre !! bi = Some b ->
  (∀ j x, pre !! j = Some x -> x <= b) ->
  (∀ j x, (j < bi)%nat -> pre !! j = Some x -> x < b) ->
  ∃ m, (pre ++ v) !! argmax_from bi b (length pre) v = Some m
       ∧ (∀ j x, (pre ++ v) !! j = Some x -> x <= m)
       ∧ (∀ j x, (j < argmax_from bi b (length pre) v)%nat ->
            (pre ++ v) !! j = Some x -> x < m).
Proof.
  revert pre bi b. induction v as [|x v IH]; intros pre bi b Hb Hle Hlt; simpl.
  - rewrite app_nil_r. exists b. auto.
  - assert (Hbi : (bi < length pre)%nat) by by eapply lookup_lt_Some.
    replace (pre ++ x :: v) with ((pre ++ [x]) ++ v) by by rewrite <- app_assoc.
    replace (S (length pre)) with (length (pre ++ [x]))
      by (rewrite length_app; simpl; lia).
    unfold Rltb. destruct (Rlt_dec b x) as [Hbx|Hbx].
    + apply IH.
      * rewrite lookup_app_r by lia. by rewrite Nat.sub_diag.
      * intros j y Hy. apply lookup_app_Some in Hy as [Hy|[Hj Hy]].
        -- specialize (Hle j y Hy). lra.
        -- apply list_lookup_singleton_Some in Hy as [_ ->]. lra.
      * intros j y Hj Hy. rewrite lookup_app_l in Hy by done.
        specialize (Hle j y Hy). lra.
    + apply IH.
      * by rewrite lookup_app_l.
      * intros j y Hy. apply lookup_app_Some in Hy as [Hy|[Hj Hy]].
        -- by apply (Hle j).
        -- apply list_lookup_singleton_Some in Hy as [_ ->]. lra.
      * intros j y Hj Hy. rewrite lookup_app_l in Hy by lia. by apply (Hlt j).
Qed.

(** X9. The index the driver feeds back for a row of logits is the first
    position of the largest logit: no logit of the row is larger, and every
    logit before it is strictly smaller. *)
Theorem argmax_is_first_maximum (v : list R) (k : nat) :
  argmax v = Some k ->
  ∃ m, v !! k = Some m
       ∧ (∀ j x, v !! j = Some x -> x <= m)
       ∧ (∀ j x, (j < k)%nat -> v !! j = Some x -> x < m).
Proof.
  destruct v as [|x v]; [done|]. intros [= <-].
  apply (argmax_from_spec v [x] 0 x).
  - done.
  - intros j y Hy. apply list_lookup_singleton_Some in Hy as [_ ->]. lra.
  - intros j y Hj. lia.
Qed.

Lemma exp_le_vsum (v : list R) (i : nat) (x : R) :
  v !! i = Some x -> exp x <= vsum (map exp v).
Proof.
  revert i. induction v as [|y v IH]; intros i Hi; [done|]. simpl.
  assert (Hpos : 0 <= vsum (map exp v)).
  { destruct v as [|z v']; [simpl; lra|].
    apply Rlt_le, vsum_exp_pos. done. }
  pose proof (exp_pos y). destruct i as [|i]; simpl in Hi.
  - injection Hi as ->. lra.
  - specialize (IH i Hi). lra.
Qed.

Lemma log_softmax_nonpos (v : list R) (i : nat) (lp : R) :
  log_softmax v !! i = Some lp -> lp <= 0.
Proof.
  unfold log_softmax. rewrite list_lookup_fmap. intros H.
  destruct (v !! i) as [x|] eqn:Hx; [|done]. injection H as <-. simpl.
  pose proof (exp_le_vsum v i x Hx) as Hle. pose proof (exp_pos x) as Hpos.
  assert (x <= ln (vsum (map exp v))); [|lra].
  rewrite <- (ln_exp x) at 1.
  destruct (Rle_lt_or_eq_dec _ _ Hle) as [Hlt|Heq].
  - by apply Rlt_le, ln_increasing.
  - rewrite Heq. lra.
Qed.

Lemma vsum_nonneg (v : list R) : Forall (λ x, 0 <= x) v -> 0 <= vsum v.
Proof. induction 1 as [|x v Hx _ IH]; simpl; lra. Qed.

Lemma cross_entropy_terms_nonneg (self : CrossEntropyLoss.t)
    (ps : list (list R * nat)) (terms : list (option R)) :
  mapM (λ p, CrossEntropyLoss.term self p.1 p.2) ps = Some terms ->
  Forall (λ x, 0 <= x) (omap (λ o : option R, o) terms)
  ∧ (Exists (λ p, p.2 ≠ CrossEntropyLoss.ignore_index self) ps ->
     omap (λ o : option R, o) terms ≠ []).
Proof.
  revert terms. induction ps as [|[x y] ps IH]; intros terms H; simpl in H.
  - injection H as <-. split; [constructor|]. intros Hex. inversion Hex.
  - destruct (CrossEntropyLoss.term self x y) as [t|] eqn:Ht; [|done]. simpl in H.
    destruct (mapM _ ps) as [ts|]; [|done]. simpl in H. injection H as <-.
    destruct (IH ts eq_refl) as [IH1 IH2]. unfold CrossEntropyLoss.term in Ht.
    case_decide as Hy.
    + injection Ht as <-. simpl. split; [done|].
      intros Hex. apply IH2. inversion Hex; simplify_eq/=; done.
    + destruct (log_softmax x !! y) as [lp|] eqn:Hlp; [|done].
      simpl in Ht. injection Ht as <-. simpl. split; [|done].
      constructor; [|done]. apply log_softmax_nonpos in Hlp. lra.
Qed.

(** The loss of one batch with a target that is not the pad id. *)
Lemma loss_of_nonneg (criterion : CrossEntropyLoss.t) (vocab : nat)
    (output : list (list (list R))) (trg : list (list nat)) (l : R) :
  loss_of criterion vocab output trg = Some l ->
  Exists (Exists (λ y, y ≠ CrossEntropyLoss.ignore_index criterion)) (drop 1 trg) ->
  0 <= l.
Proof.
  unfold loss_of. intros H Hex. case_decide; [done|].
  unfold CrossEntropyLoss.forward in H. case_decide as Hlen; [|done].
  destruct (mapM _ _) as [terms|] eqn:Hterms; [|done]. simpl in H. injection H as <-.
  destruct (cross_entropy_terms_nonneg _ _ _ Hterms) as [Hpos Hne].
  assert (Hkept : omap (λ o : option R, o) terms ≠ []).
  { apply Hne. apply Exists_concat in Hex. apply Exists_exists in Hex as (y & Hy & Hny).
    apply list_elem_of_lookup in Hy as [i Hi].
    destruct (lookup_lt_is_Some_2 (concat (drop 1 output)) i) as [x Hx].
    { rewrite Hlen. by eapply lookup_lt_Some. }
    apply Exists_exists. exists (x, y). split; [|done].
    apply list_elem_of_lookup. exists i. by apply lookup_zip_Some. }
  apply Rle_mult_inv_pos; [by apply vsum_nonneg|].
  apply lt_0_INR. destruct (omap _ terms); [done | simpl; lia].
Qed.

(** The sum of the losses that the loop of [evaluate] accumulates. *)
Lemma evaluate_loop_nonneg (model : Seq2Seq.t R) (criterion : CrossEntropyLoss.t)
    (iterator : list Batch) :
  Forall (has_target (CrossEntropyLoss.ignore_index criterion)) iterator ->
  ∀ acc w acc' w',
    0 <= acc ->
    foldM (evaluate_body model criterion) acc iterator w = Some (acc', w') ->
    0 <= acc'.
Proof.
  induction 1 as [|b it Hb _ IH]; intros acc w acc' w' Hacc H; simpl in H.
  - by injection H as <- <-.
  - inv_bind H acc1 w1 Hbody. unfold evaluate_body in Hbody.
    inv_bind Hbody output w2 Hf. inv_lift Hbody loss Hl. injection Hbody as <- <-.
    apply loss_of_nonneg in Hl; [|exact Hb].
    apply (IH _ _ _ _ (Rplus_le_le_0_compat _ _ Hacc Hl) H).
Qed.

(** X10. Over the real numbers, when every batch has, from time step 1
    on, a target that is not the pad id, the loss of each batch is
    non-negative and so is the mean over the batches that [evaluate]
    returns.  (A batch with no such target has the loss 0/0.)  On a
    non-empty iterator of valid batches [evaluate] does return. *)
Theorem evaluate_loss_is_nonnegative (model : Seq2Seq.t R) (iterator : list Batch)
    (criterion : CrossEntropyLoss.t) (w : World R) :
  Forall (has_target (CrossEntropyLoss.ignore_index criterion)) iterator ->
  (∀ b vocab output l,
     b ∈ iterator -> loss_of criterion vocab output (trg b) = Some l -> 0 <= l)
  ∧ (∀ loss model' w',
       evaluate model iterator criterion w = Some ((loss, model'), w') -> 0 <= loss)
  ∧ (Seq2Seq.wf model -> iterator ≠ [] -> Forall (valid_batch model) iterator ->
     is_Some (evaluate model iterator criterion w)).
Proof.
  intros Htargets. split; [|split].
  - intros b vocab output l Hb Hl. rewrite Forall_forall in Htargets.
    eapply loss_of_nonneg; [exact Hl|]. by apply Htargets.
  - intros loss model' w' H. unfold evaluate in H.
    inv_bind H prev w0 Hp. injection Hp as <- <-.
    inv_bind H u w1 Hs. injection Hs as _ <-.
    inv_bind H epoch_loss w2 Hloop.
    inv_bind H u' w3 Hr. injection Hr as _ <-.
    case_decide as Hn; [by apply lift_inv in H as (? & ? & ?)|].
    injection H as <- <- <-.
    apply evaluate_loop_nonneg in Hloop; [|exact Htargets|simpl; lra].
    simpl. apply Rle_mult_inv_pos; [exact Hloop|]. apply lt_0_INR. lia.
  - apply evaluate_total.
Qed.
End RealFacts.

(** ** Edge cases of the loss and of the evaluation loop *)

Section LossEdges.
Context {F : Type} {SF : Scalar F}.

Lemma cross_entropy_terms_all_ignored (self : CrossEntropyLoss.t)
    (x : list (list F)) (y : list nat) :
  Forall (λ b, b = CrossEntropyLoss.ignore_index self) y ->
  ∃ terms, mapM (λ p, CrossEntropyLoss.term self p.1 p.2) (zip x y) = Some terms
           ∧ omap (λ o : option F, o) terms = [].
Proof.
  intros Hy. revert x. induction Hy as [|b y Hb _ IH]; intros x.
  - exists []. by destruct x.
  - destruct x as [|a x]; [by exists []|]. simpl.
    destruct (IH x) as (terms & -> & Hk). unfold CrossEntropyLoss.term. simpl.
    rewrite decide_True by done. simpl. by exists (None :: terms).
Qed.

(** X11. When every target from time step 1 on is the pad id, and in
    particular when the target has a single position, the loss is the
    quotient 0 / 0, whatever the scores. *)
Theorem loss_of_all_padding (criterion : CrossEntropyLoss.t) (vocab : nat)
    (output : list (list (list F))) (trg : list (list nat)) :
  vocab ≠ 0 ->
  length (concat (drop 1 output)) = length (concat (drop 1 trg)) ->
  Forall (Forall (λ y, y = CrossEntropyLoss.ignore_index criterion)) (drop 1 trg) ->
  loss_of criterion vocab output trg = Some (sdiv s0 (sofnat 0)).
Proof.
  intros HV Hlen Hall. unfold loss_of. rewrite decide_False by done.
  unfold CrossEntropyLoss.forward. rewrite decide_True by done.
  apply Forall_concat in Hall.
  destruct (cross_entropy_terms_all_ignored criterion (concat (drop 1 output)) _ Hall)
    as (terms & -> & Hk).
  simpl. by rewrite Hk.
Qed.

(** X12. The criterion refuses a target that is neither the pad id nor a
    class of the scores it is compared with. *)
Theorem cross_entropy_refuses_unknown_class (self : CrossEntropyLoss.t)
    (input : list (list F)) (target : list nat) (i : nat) (x : list F) (y : nat) :
  input !! i = Some x -> target !! i = Some y ->
  y ≠ CrossEntropyLoss.ignore_index self -> length x ≤ y ->
  CrossEntropyLoss.forward self input target = None.
Proof.
  intros Hx Hy Hny Hge. unfold CrossEntropyLoss.forward. case_decide; [|done].
  rewrite (mapM_None_2 _ (zip input target)); [done|].
  apply Exists_exists. exists (x, y). split.
  - apply list_elem_of_lookup. exists i. by apply lookup_zip_Some.
  - simpl. unfold CrossEntropyLoss.term. rewrite decide_False by done.
    rewrite (lookup_ge_None_2 (log_softmax x) y); [done|].
    unfold log_softmax. by rewrite length_map.
Qed.
End LossEdges.

(** ** Initialisation of the parameters *)

Section InitFacts.
Context {F : Type} {SF : Scalar F}.
Variable g : nat -> F.

Lemma normal_rows_absorb (p q : nat) (m : list (list F)) :
  normal_rows g p (normal_rows g q m).1 = normal_rows g p m.
Proof.
  revert p q. induction m as [|r m IH]; intros p q; simpl; [done|].
  rewrite length_map, length_seq. by rewrite IH.
Qed.

Lemma normal_rows_pos (p : nat) (m : list (list F)) : p ≤ (normal_rows g p m).2.
Proof.
  revert p. induction m as [|r m IH]; intros p; simpl; [done|].
  specialize (IH (p + length r)). lia.
Qed.

Lemma normal_rows_shape (p n c : nat) (m : list (list F)) :
  mat_shape n c m -> mat_shape n c (normal_rows g p m).1.
Proof.
  intros [Hl Hr]. revert p n Hl. induction Hr as [|r m Hrl _ IH]; intros p n Hl; simpl.
  - by split.
  - destruct (IH (p + length r) (length m) eq_refl) as [Hl' Hr']. split.
    + simpl in *. lia.
    + constructor; [|done]. by rewrite length_map, length_seq.
Qed.

Lemma normal_rows_entries (p : nat) (m : list (list F)) :
  Forall (Forall (λ x, ∃ n, x = g n)) (normal_rows g p m).1.
Proof.
  revert p. induction m as [|r m IH]; intros p; simpl; [constructor|].
  constructor; [|apply IH].
  apply Forall_fmap, Forall_forall. intros n _. by exists n.
Qed.

Lemma constant_0_absorb (b : list F) : constant_0 (constant_0 b) = constant_0 b.
Proof. unfold constant_0. by rewrite <- list_fmap_compose. Qed.

Lemma constant_0_zero (b : list F) : Forall (λ x, x = s0) (constant_0 b).
Proof. unfold constant_0. apply Forall_fmap, Forall_forall. done. Qed.

Lemma constant_0_length (b : list F) : length (constant_0 b) = length b.
Proof. unfold constant_0. apply length_map. Qed.

(** A pass does not read the values it overwrites: after an earlier pass it
    gives what it gives without it. *)
Lemma init_Linear_absorb (p q : nat) (l : Linear.t F) :
  init_Linear g p (init_Linear g q l).1 = init_Linear g p l.
Proof.
  unfold init_Linear. simpl. by rewrite normal_rows_absorb, constant_0_absorb.
Qed.

Lemma init_Embedding_absorb (p q : nat) (e : Embedding.t F) :
  init_Embedding g p (init_Embedding g q e).1 = init_Embedding g p e.
Proof. unfold init_Embedding. simpl. by rewrite normal_rows_absorb. Qed.

Lemma init_GRU_layer_absorb (p q : nat) (l : GRU.layer F) :
  init_GRU_layer g p (init_GRU_layer g q l).1 = init_GRU_layer g p l.
Proof.
  unfold init_GRU_layer. simpl.
  by rewrite !normal_rows_absorb, !constant_0_absorb.
Qed.

Lemma init_GRU_absorb (p q : nat) (r : GRU.t F) :
  init_GRU g p (init_GRU g q r).1 = init_GRU g p r.
Proof.
  unfold init_GRU. destruct (GRU.l0_reverse r) as [rv|];
    cbn [fst snd GRU.l0 GRU.l0_reverse GRU.input_size GRU.hidden_size];
    by rewrite !init_GRU_layer_absorb.
Qed.

Lemma init_Attention_absorb (p q : nat) (a : Attention.t F) :
  init_Attention g p (init_Attention g q a).1 = init_Attention g p a.
Proof.
  unfold init_Attention.
  cbn [fst snd Attention.attention Attention.encoder_hidden_dim
       Attention.decoder_hidden_dim Attention.attention_in].
  by rewrite init_Linear_absorb.
Qed.

Ltac cbn_modules :=
  cbn [fst snd
       Encoder.num_input_features Encoder.embedding_dim Encoder.encoder_hidden_dim
       Encoder.decoder_hidden_dim Encoder.embedding Encoder.rnn Encoder.fc
       Encoder.dropout
       Decoder.embedding_dim Decoder.encoder_hidden_dim Decoder.decoder_hidden_dim
       Decoder.num_output_features Decoder.attention Decoder.embedding Decoder.rnn
       Decoder.out Decoder.dropout
       Attention.attention Attention.encoder_hidden_dim Attention.decoder_hidden_dim
       Attention.attention_in
       Seq2Seq.encoder Seq2Seq.decoder].

Lemma init_Encoder_absorb (p q : nat) (e : Encoder.t F) :
  init_Encoder g p (init_Encoder g q e).1 = init_Encoder g p e.
Proof.
  unfold init_Encoder. cbn_modules.
  by rewrite init_Embedding_absorb, init_GRU_absorb, init_Linear_absorb.
Qed.

Lemma init_Decoder_absorb (p q : nat) (d : Decoder.t F) :
  init_Decoder g p (init_Decoder g q d).1 = init_Decoder g p d.
Proof.
  unfold init_Decoder. cbn_modules.
  by rewrite init_Attention_absorb, init_Embedding_absorb, init_GRU_absorb,
    init_Linear_absorb.
Qed.

(** Every pass moves forward in the stream. *)
Lemma init_Linear_pos (p : nat) (l : Linear.t F) : p ≤ (init_Linear g p l).2.
Proof. apply normal_rows_pos. Qed.

Lemma init_Embedding_pos (p : nat) (e : Embedding.t F) : p ≤ (init_Embedding g p e).2.
Proof. apply normal_rows_pos. Qed.

Lemma init_GRU_layer_pos (p : nat) (l : GRU.layer F) : p ≤ (init_GRU_layer g p l).2.
Proof.
  unfold init_GRU_layer. cbn [snd].
  pose proof (normal_rows_pos p (Linear.weight (GRU.ih l))).
  pose proof (normal_rows_pos (normal_rows g p (Linear.weight (GRU.ih l))).2
                (Linear.weight (GRU.hh l))).
  lia.
Qed.

Lemma init_GRU_pos (p : nat) (r : GRU.t F) : p ≤ (init_GRU g p r).2.
Proof.
  unfold init_GRU. pose proof (init_GRU_layer_pos p (GRU.l0 r)).
  destruct (GRU.l0_reverse r) as [rv|]; cbn [snd]; [|done].
  pose proof (init_GRU_layer_pos (init_GRU_layer g p (GRU.l0 r)).2 rv). lia.
Qed.

Lemma init_Encoder_pos (p : nat) (e : Encoder.t F) : p ≤ (init_Encoder g p e).2.
Proof.
  unfold init_Encoder. cbn [snd].
  pose proof (init_Embedding_pos p (Encoder.embedding e)).
  pose proof (init_GRU_pos (init_Embedding g p (Encoder.embedding e)).2 (Encoder.rnn e)).
  pose proof (init_Linear_pos
                (init_GRU g (init_Embedding g p (Encoder.embedding e)).2
                   (Encoder.rnn e)).2 (Encoder.fc e)).
  lia.
Qed.

Lemma apply_Encoder_one_pass (pos : nat) (e : Encoder.t F) :
  ∃ p, pos ≤ p ∧ apply_Encoder g pos e = init_Encoder g p e.
Proof.
  unfold apply_Encoder. eexists. split.
  2: { unfold init_Encoder at 1. cbn_modules.
       by rewrite init_Embedding_absorb, init_GRU_absorb, init_Linear_absorb. }
  pose proof (init_Embedding_pos pos (Encoder.embedding e)).
  pose proof (init_GRU_pos (init_Embedding g pos (Encoder.embedding e)).2
                (Encoder.rnn e)).
  pose proof (init_Linear_pos
                (init_GRU g (init_Embedding g pos (Encoder.embedding e)).2
                   (Encoder.rnn e)).2 (Encoder.fc e)).
  lia.
Qed.

Lemma apply_Attention_one_pass (pos : nat) (a : Attention.t F) :
  ∃ p, pos ≤ p ∧ apply_Attention g pos a = init_Attention g p a.
Proof.
  unfold apply_Attention. eexists. split.
  2: { unfold init_Attention at 1. cbn_modules. by rewrite init_Linear_absorb. }
  apply init_Linear_pos.
Qed.

Lemma apply_Decoder_one_pass (pos : nat) (d : Decoder.t F) :
  ∃ p, pos ≤ p ∧ apply_Decoder g pos d = init_Decoder g p d.
Proof.
  unfold apply_Decoder.
  destruct (apply_Attention_one_pass pos (Decoder.attention d)) as (pa & Hpa & ->).
  eexists. split.
  2: { unfold init_Decoder at 1. cbn_modules.
       by rewrite init_Attention_absorb, init_Embedding_absorb, init_GRU_absorb,
         init_Linear_absorb. }
  pose proof (init_Linear_pos pa (Attention.attention (Decoder.attention d))) as H1.
  change (pa ≤ (init_Attention g pa (Decoder.attention d)).2) in H1.
  pose proof (init_Embedding_pos (init_Attention g pa (Decoder.attention d)).2
                (Decoder.embedding d)).
  pose proof (init_GRU_pos
                (init_Embedding g (init_Attention g pa (Decoder.attention d)).2
                   (Decoder.embedding d)).2 (Decoder.rnn d)).
  pose proof (init_Linear_pos
                (init_GRU g
                   (init_Embedding g (init_Attention g pa (Decoder.attention d)).2
                      (Decoder.embedding d)).2 (Decoder.rnn d)).2 (Decoder.out d)).
  lia.
Qed.

Lemma apply_init_weights_one_pass (pos : nat) (m : Seq2Seq.t F) :
  ∃ p, pos ≤ p ∧ apply_init_weights g pos m = init_weights g p m.
Proof.
  unfold apply_init_weights.
  destruct (apply_Encoder_one_pass pos (Seq2Seq.encoder m)) as (pe & Hpe & ->).
  destruct (apply_Decoder_one_pass (init_Encoder g pe (Seq2Seq.encoder m)).2
              (Seq2Seq.decoder m)) as (pd & Hpd & ->).
  exists (init_Decoder g pd (Seq2Seq.decoder m)).2. split.
  - pose proof (init_Encoder_pos pe (Seq2Seq.encoder m)).
    assert (pd ≤ (init_Decoder g pd (Seq2Seq.decoder m)).2); [|lia].
    unfold init_Decoder. cbn [snd].
    pose proof (init_Linear_pos pd (Attention.attention (Decoder.attention
                                                           (Seq2Seq.decoder m)))) as H1.
    change (pd ≤ (init_Attention g pd (Decoder.attention (Seq2Seq.decoder m))).2) in H1.
    set (a := (init_Attention g pd (Decoder.attention (Seq2Seq.decoder m))).2) in *.
    pose proof (init_Embedding_pos a (Decoder.embedding (Seq2Seq.decoder m))).
    set (b := (init_Embedding g a (Decoder.embedding (Seq2Seq.decoder m))).2) in *.
    pose proof (init_GRU_pos b (Decoder.rnn (Seq2Seq.decoder m))).
    set (c := (init_GRU g b (Decoder.rnn (Seq2Seq.decoder m))).2) in *.
    pose proof (init_Linear_pos c (Decoder.out (Seq2Seq.decoder m))).
    lia.
  - unfold init_weights. cbn_modules.
    by rewrite init_Encoder_absorb, init_Decoder_absorb.
Qed.
Lemma init_Linear_wf (p : nat) (l : Linear.t F) :
  Linear.wf l -> Linear.wf (init_Linear g p l).1.
Proof.
  intros [Hw Hb]. split; simpl.
  - by apply normal_rows_shape.
  - by rewrite constant_0_length.
Qed.

Lemma init_Embedding_wf (p : nat) (e : Embedding.t F) :
  Embedding.wf e -> Embedding.wf (init_Embedding g p e).1.
Proof. intros Hw. unfold Embedding.wf. simpl. by apply normal_rows_shape. Qed.

Lemma init_GRU_layer_wf (p I H : nat) (l : GRU.layer F) :
  GRU.layer_wf I H l -> GRU.layer_wf I H (init_GRU_layer g p l).1.
Proof.
  intros ([Hiw Hib] & Hi & Hio & [Hhw Hhb] & Hh & Hho).
  unfold GRU.layer_wf, Linear.wf. simpl.
  rewrite !constant_0_length.
  split; [split; [by apply normal_rows_shape | done]|].
  split; [done|]. split; [done|].
  split; [split; [by apply normal_rows_shape | done]|]. done.
Qed.

Lemma init_GRU_wf (p : nat) (r : GRU.t F) :
  GRU.wf r -> GRU.wf (init_GRU g p r).1
              ∧ GRU.input_size (init_GRU g p r).1 = GRU.input_size r
              ∧ GRU.hidden_size (init_GRU g p r).1 = GRU.hidden_size r
              ∧ (is_Some (GRU.l0_reverse (init_GRU g p r).1)
                 ↔ is_Some (GRU.l0_reverse r)).
Proof.
  intros [Hl0 Hrev]. unfold init_GRU, GRU.wf.
  destruct (GRU.l0_reverse r) as [rv|] eqn:Hrv; cbn [fst GRU.l0 GRU.l0_reverse
    GRU.input_size GRU.hidden_size].
  - split; [|done]. split; [by apply init_GRU_layer_wf|].
    intros r' [= <-]. apply init_GRU_layer_wf. by apply Hrev.
  - split; [|done]. split; [by apply init_GRU_layer_wf | done].
Qed.

Lemma init_Attention_wf (p : nat) (a : Attention.t F) :
  Attention.wf a -> Attention.wf (init_Attention g p a).1.
Proof.
  intros (Hin & Hwf & Hfi). unfold Attention.wf, init_Attention. cbn_modules.
  split; [done|]. split; [by apply init_Linear_wf | done].
Qed.

Lemma init_weights_wf (p : nat) (m : Seq2Seq.t F) :
  Seq2Seq.wf m -> Seq2Seq.wf (init_weights g p m).1.
Proof.
  intros ((Hemb & Hne & Hed & Hrnn & Hri & Hrh & Hrr & Hfc & Hfi & Hfo)
          & (Hatt & Hae & Had & Hdemb & Hdne & Hded & Hdrnn & Hdri & Hdrh & Hdrr
             & Hout & Hoi & Hoo) & Heh & Hdh & HV).
  unfold Seq2Seq.wf, Encoder.wf, Decoder.wf, init_weights, init_Encoder, init_Decoder.
  cbn_modules.
  set (pe1 := (init_Embedding g p _).2).
  destruct (init_GRU_wf pe1 _ Hrnn) as (Hg1 & Hg2 & Hg3 & Hg4).
  set (pd0 := (init_Linear g _ (Encoder.fc _)).2).
  set (pd1 := (init_Attention g pd0 _).2).
  set (pd2 := (init_Embedding g pd1 _).2).
  destruct (init_GRU_wf pd2 _ Hdrnn) as (Hd1 & Hd2 & Hd3 & Hd4).
  assert (Hnone : GRU.l0_reverse
                    (init_GRU g pd2 (Decoder.rnn (Seq2Seq.decoder m))).1 = None).
  { destruct (GRU.l0_reverse (init_GRU g pd2 _).1) eqn:E; [|done].
    assert (is_Some (GRU.l0_reverse (Decoder.rnn (Seq2Seq.decoder m)))) as [? Hs]
      by (apply Hd4; by eexists).
    congruence. }
  repeat match goal with |- _ ∧ _ => split end;
    first [ done
          | by apply init_Embedding_wf
          | by apply init_Attention_wf
          | by apply init_Linear_wf
          | by apply Hg4
          | congruence ].
Qed.

Lemma init_weights_parameters (p : nat) (m : Seq2Seq.t F) :
  Forall zero_bias (Seq2Seq.parameters (init_weights g p m).1)
  ∧ Forall (weight_entries (λ x, ∃ n, x = g n))
      (Seq2Seq.parameters (init_weights g p m).1)
  ∧ Encoder.dropout (Seq2Seq.encoder (init_weights g p m).1)
    = Encoder.dropout (Seq2Seq.encoder m)
  ∧ Decoder.dropout (Seq2Seq.decoder (init_weights g p m).1)
    = Decoder.dropout (Seq2Seq.decoder m).
Proof.
  unfold Seq2Seq.parameters, init_weights, init_Encoder, init_Decoder, init_Attention,
    GRU_parameters, GRU_layer_parameters, Linear_parameters.
  cbn_modules. unfold init_GRU.
  destruct (GRU.l0_reverse (Encoder.rnn (Seq2Seq.encoder m))),
           (GRU.l0_reverse (Decoder.rnn (Seq2Seq.decoder m)));
    simpl; (split; [|split; [|done]]);
    repeat first [ apply Forall_nil | apply Forall_cons; simpl; split
                 | apply Forall_cons | exact I
                 | apply constant_0_zero | apply normal_rows_entries ].
Qed.

(** X13. [model.apply(init_weights)] refills every parameter once for each
    module that contains it, but a pass does not read what it overwrites:
    the model it leaves is the one a single [init_weights(model)] call
    leaves when started further along the generator's stream. *)
Theorem apply_init_weights_is_one_pass (pos : nat) (m : Seq2Seq.t F) :
  ∃ p, pos ≤ p ∧ apply_init_weights g pos m = init_weights g p m.
Proof. apply apply_init_weights_one_pass. Qed.

(** X14. Initialisation keeps the shapes: a model built for given sizes is
    still one after [model.apply(init_weights)], so the driver accepts the
    same batches as before. *)
Theorem apply_init_weights_keeps_shapes (pos : nat) (m : Seq2Seq.t F) :
  Seq2Seq.wf m -> Seq2Seq.wf (apply_init_weights g pos m).1.
Proof.
  intros Hwf. destruct (apply_init_weights_one_pass pos m) as (p & _ & ->).
  by apply init_weights_wf.
Qed.

(** X15. After [model.apply(init_weights)] every bias is all zeros, every
    entry of every weight is a value of the normal generator, and the
    dropout modules are as they were, whatever the parameters held
    before. *)
Theorem apply_init_weights_result (pos : nat) (m : Seq2Seq.t F) :
  Forall zero_bias (Seq2Seq.parameters (apply_init_weights g pos m).1)
  ∧ Forall (weight_entries (λ x, ∃ n, x = g n))
      (Seq2Seq.parameters (apply_init_weights g pos m).1)
  ∧ Encoder.dropout (Seq2Seq.encoder (apply_init_weights g pos m).1)
    = Encoder.dropout (Seq2Seq.encoder m)
  ∧ Decoder.dropout (Seq2Seq.decoder (apply_init_weights g pos m).1)
    = Decoder.dropout (Seq2Seq.decoder m).
Proof.
  destruct (apply_init_weights_one_pass pos m) as (p & _ & ->).
  apply init_weights_parameters.
Qed.
End InitFacts.

(** ** The attention weights, one batch element at a time *)

Lemma transpose_lookup {A} (cols : nat) (M : list (list A)) (j : nat) :
  Forall (λ r, length r = cols) M -> j < cols ->
  ∃ col, transpose cols M !! j = Some col
         ∧ length col = length M
         ∧ ∀ i r, M !! i = Some r -> col !! i = r !! j.
Proof.
  intros HM Hj. induction HM as [|r M Hr _ IH]; simpl.
  - exists []. split; [by apply lookup_replicate_2|]. split; [done|]. by intros [|i] r.
  - destruct IH as (col & Hcol & Hlen & Hget).
    destruct (lookup_lt_is_Some_2 r j) as [a Ha]; [lia|].
    exists (a :: col). split.
    + rewrite lookup_zip_with, Ha, Hcol. done.
    + split; [simpl; lia|]. intros [|i] r' Hr'; simpl in *.
      * by injection Hr' as <-.
      * by apply Hget.
Qed.

Lemma concat_replicate_singleton {A} (n : nat) (x : A) :
  concat (replicate n [x]) = replicate n x.
Proof. induction n as [|n IH]; simpl; [done | by rewrite IH]. Qed.

Section AttentionPerElement.
Context {F : Type} {SF : Scalar F}.

(** X16. The attention weights of batch element [b] are the softmax, over
    the source positions [s], of the scores
    [sum (tanh (attention (cat (h_b, x_s))))], where [h_b] is the decoder
    state of that element and [x_s] its encoder representation at position
    [s]: they depend on no other element of the batch. *)
Theorem attention_weights_per_batch_element (self : Attention.t F) (bs S : nat)
    (decoder_hidden : list (list F)) (encoder_outputs : list (list (list F)))
    (b : nat) (h_b : list F) :
  Attention.wf self -> 0 < S ->
  mat_shape bs (Attention.decoder_hidden_dim self) decoder_hidden ->
  t3_shape S bs (Attention.encoder_hidden_dim self * 2) encoder_outputs ->
  decoder_hidden !! b = Some h_b ->
  ∃ a scores,
    Attention.forward self decoder_hidden encoder_outputs = Some a
    ∧ a !! b = Some (softmax scores)
    ∧ length scores = S
    ∧ ∀ s M x, encoder_outputs !! s = Some M -> M !! b = Some x ->
        ∃ e, Linear.forward (Attention.attention self) (h_b ++ x) = Some e
             ∧ scores !! s = Some (vsum (map stanh e)).
Proof.
  intros (Hin & Hwf & Hfi) HS Hh Heo Hb.
  assert (Hbs : b < bs) by (destruct Hh as [<- _]; by eapply lookup_lt_Some).
  unfold Attention.forward.
  rewrite (dim1_t3_shape _ _ _ _ HS Heo). unfold dim0, permute102.
  destruct Heo as [HlS Heo']. rewrite HlS.
  pose proof (repeat1_unsqueeze1_shape bs S _ decoder_hidden Hh) as Hrep.
  pose proof (t3_shape_transpose _ _ _ _ (conj HlS Heo')) as Htr.
  destruct (cat_mats_shape _ _ _ _ _ _ Hrep Htr) as [Hcat Hcsh].
  simpl. rewrite Hcat. simpl.
  set (C := zip_with (zip_with app) _ _) in *.
  destruct (Linear_forward3_shape (Attention.attention self) bs S C Hwf)
    as (E & HE & HEsh).
  { rewrite Hfi, Hin.
    by replace (Attention.encoder_hidden_dim self * 2 + Attention.decoder_hidden_dim self)
      with (Attention.decoder_hidden_dim self + Attention.encoder_hidden_dim self * 2)
      by lia. }
  rewrite HE. simpl.
  (* row [b] of the concatenation and of the energies *)
  destruct (transpose_lookup bs encoder_outputs b) as (col & Hcol & Hcl & Hget);
    [by eapply Forall_impl; [exact Heo'|]; intros M [? _] | done |].
  assert (HCb : C !! b = Some (zip_with app (replicate S h_b) col)).
  { unfold C. rewrite lookup_zip_with, Hcol. unfold repeat1, unsqueeze1.
    rewrite !list_lookup_fmap, Hb. simpl. by rewrite concat_replicate_singleton. }
  apply mapM_Some_1 in HE.
  destruct (Forall2_lookup_l _ _ _ _ _ HE HCb) as (Eb & HEb & Hfw2).
  apply mapM_Some_1 in Hfw2.
  eexists _, (map vsum (map (map stanh) Eb)). split; [done|].
  split; [by rewrite !list_lookup_fmap, HEb|].
  split.
  { rewrite !length_map, <- (Forall2_length _ _ _ Hfw2), length_zip_with,
      length_replicate. lia. }
  intros s M x HM Hx.
  assert (Hs : s < S) by (rewrite <- HlS; by eapply lookup_lt_Some).
  assert (Hcs : zip_with app (replicate S h_b) col !! s = Some (h_b ++ x)).
  { rewrite lookup_zip_with, lookup_replicate_2 by done. simpl.
    by rewrite (Hget s M HM), Hx. }
  destruct (Forall2_lookup_l _ _ _ _ _ Hfw2 Hcs) as (e & He & Hfw).
  exists e. split; [done|]. by rewrite !list_lookup_fmap, He.
Qed.
End AttentionPerElement.

Section ContextPerElement.
Context {F : Type} {SF : Scalar F}.

(** X17. The context the decoder step computes for batch element [b] is
    the attention-weighted sum of that element's encoder representations:
    its component [j] is the dot product of the element's attention weights
    with the components [j] of its representations at the source
    positions. *)
Theorem context_is_weighted_sum (self : Decoder.t F) (bs S : nat)
    (decoder_hidden : list (list F)) (encoder_outputs : list (list (list F)))
    (b : nat) :
  Decoder.wf self -> 0 < S -> b < bs ->
  mat_shape bs (Decoder.decoder_hidden_dim self) decoder_hidden ->
  t3_shape S bs (Decoder.encoder_hidden_dim self * 2) encoder_outputs ->
  ∃ a a_b ctx c_b,
    Attention.forward (Decoder.attention self) decoder_hidden encoder_outputs = Some a
    ∧ a !! b = Some a_b
    ∧ Decoder._weighted_encoder_rep self decoder_hidden encoder_outputs = Some [ctx]
    ∧ ctx !! b = Some c_b
    ∧ ∀ j, j < Decoder.encoder_hidden_dim self * 2 ->
        ∃ xs, length xs = S
              ∧ (∀ s M x, encoder_outputs !! s = Some M -> M !! b = Some x ->
                   xs !! s = x !! j)
              ∧ c_b !! j = Some (dot a_b xs).
Proof.
  intros Hwf HS Hb Hh Heo.
  destruct (weighted_encoder_rep_total self bs S _ _ Hwf HS Hh Heo)
    as (ctx & Hctx & Hctxsh).
  pose proof Hwf as (Hatt & Hae & Had & _).
  pose proof Hh as Hh'. pose proof Heo as Heo'.
  rewrite <- Had in Hh'. rewrite <- Hae in Heo'.
  destruct (Attention_forward_total _ bs S _ _ Hatt HS Hh' Heo') as (scores & Ha & Hsc).
  apply map_softmax_shape in Hsc. set (a := map softmax scores) in *.
  destruct (lookup_lt_is_Some_2 a b) as [a_b Hab]; [destruct Hsc as [-> _]; lia|].
  assert (Hal : length a_b = S) by (eapply mat_shape_lookup; eauto).
  (* the representations of element [b], position by position *)
  destruct Heo as [HlS Hrows].
  destruct (transpose_lookup bs encoder_outputs b) as (col & Hcol & Hcl & Hget);
    [by eapply Forall_impl; [exact Hrows|]; intros M [? _] | done |].
  pose proof (t3_shape_transpose _ _ _ _ (conj HlS Hrows)) as Htr.
  assert (Hcolsh : mat_shape S (Decoder.encoder_hidden_dim self * 2) col)
    by (eapply t3_shape_lookup; eauto).
  (* unfold the computation *)
  pose proof Hctx as Hrep.
  unfold Decoder._weighted_encoder_rep in Hctx. rewrite Ha in Hctx. simpl in Hctx.
  rewrite (dim1_t3_shape _ _ _ _ HS (conj HlS Hrows)) in Hctx. unfold permute102 in Hctx.
  destruct (bmm (unsqueeze1 a) (transpose bs encoder_outputs)) as [W|] eqn:HW;
    [|done]. simpl in Hctx. injection Hctx as Hctx.
  unfold bmm in HW. case_decide; [|done]. apply mapM_Some_1 in HW.
  assert (Hzip : zip (unsqueeze1 a) (transpose bs encoder_outputs) !! b
                 = Some ([a_b], col)).
  { apply lookup_zip_Some. split; [|done].
    unfold unsqueeze1. by rewrite list_lookup_fmap, Hab. }
  destruct (Forall2_lookup_l _ _ _ _ _ HW Hzip) as (Wb & HWb & Hmm).
  simpl in Hmm. unfold matmul in Hmm. case_decide; [|done]. injection Hmm as <-.
  (* the last transposition *)
  assert (HWrows : Forall (λ r : list (list F), length r = 1) W).
  { apply Forall_lookup. intros i Wi HWi.
    destruct (Forall2_lookup_r _ _ _ _ _ HW HWi) as ([ai ci] & Hi & Hmi).
    apply lookup_zip_Some in Hi as [Hai _]. unfold unsqueeze1 in Hai.
    rewrite list_lookup_fmap in Hai. destruct (a !! i); [|done].
    injection Hai as <-. simpl in Hmi. unfold matmul in Hmi.
    case_decide; [|done]. by injection Hmi as <-. }
  destruct (transpose_lookup 1 W 0 HWrows) as (ctx' & Hctx' & _ & Hget'); [lia|].
  assert (ctx' = ctx) as ->.
  { assert (Htop : transpose 1 W !! 0 = Some ctx) by by rewrite Hctx. congruence. }
  exists a, a_b, ctx, (vecmat a_b col).
  split; [done|]. split; [done|]. split; [exact Hrep|].
  split; [by rewrite (Hget' b _ HWb)|].
  intros j Hj. unfold vecmat.
  rewrite (dim1_shape S _ col HS Hcolsh).
  destruct (transpose_lookup (Decoder.encoder_hidden_dim self * 2) col j)
    as (xs & Hxs & Hxl & Hxget); [by destruct Hcolsh | done |].
  exists xs. split; [destruct Hcolsh; congruence|]. split.
  - intros s M x HM Hx. apply Hxget. by rewrite (Hget s M HM).
  - by rewrite list_lookup_fmap, Hxs.
Qed.
End ContextPerElement.

(** ** The further properties on the small instance *)

(** The encoder of the small instance refuses the token 3. *)
Lemma encoder_refuses_unknown_token_witness :
  Encoder.forward (example_encoder 1%R) [[0; 3]] example_world = None.
Proof.
  apply encoder_refuses_unknown_token.
  - solve_example.
  - apply Exists_cons_hd, Exists_cons_tl, Exists_cons_hd. simpl. lia.
Defined.

(** The decoder step of the small instance refuses the token 3. *)
Lemma decoder_refuses_unknown_token_witness :
  Decoder.forward (example_decoder 1%R) [0; 3] (zeros2 2 1) (zeros3 2 2 2) example_world
  = None.
Proof.
  apply decoder_refuses_unknown_token.
  - solve_example.
  - apply Exists_cons_tl, Exists_cons_hd. simpl. lia.
Defined.

(** One previous token against a state for two sentences. *)
Lemma decoder_refuses_batch_size_mismatch_witness :
  Decoder.forward (example_decoder 1%R) [0] (zeros2 2 1) (zeros3 2 2 2) example_world
  = None.
Proof.
  apply (decoder_refuses_batch_size_mismatch (example_decoder 1%R) [0] _ _ 2 1 2);
    solve_example.
Defined.

(** A target for one sentence against a source for two. *)
Lemma driver_refuses_batch_size_mismatch_witness :
  Seq2Seq.forward (example_model 1%R) example_src [[0]; [1]] (1 # 2) example_world
  = None.
Proof.
  apply (driver_refuses_batch_size_mismatch (example_model 1%R) example_src
           [[0]; [1]] (1 # 2) 2 2 2 1); solve_example.
Defined.

(** The output of the small instance is 3 × 2 × 3 and costs two draws. *)
Lemma driver_output_shape_and_draws_witness :
  ∃ outputs w',
    Seq2Seq.forward (example_model 1%R) example_src example_trg (1 # 2) example_world
      = Some (outputs, w')
    ∧ t3_shape 3 2 3 outputs ∧ py_pos w' = 2.
Proof.
  destruct (driver_output_shape_and_draws (example_model 1%R) example_src example_trg
              (1 # 2) 2 3 2 example_world)
    as (outputs & w' & Hrun & Hsh & Hpos & _); [solve_example ..|].
  exists outputs, w'. split; [exact Hrun|]. split; [exact Hsh | exact Hpos].
Defined.

(** The small instance in evaluation mode, from two different worlds. *)
Lemma driver_evaluation_mode_is_reproducible_witness :
  fst <$> Seq2Seq.forward (Seq2Seq.eval (example_model 1%R)) example_src example_trg 0
            example_world
  = fst <$> Seq2Seq.forward (Seq2Seq.eval (example_model 1%R)) example_src example_trg 0
              example_world'.
Proof.
  apply driver_evaluation_mode_is_reproducible; reflexivity.
Defined.

(** The first of two equal largest logits is chosen. *)
Lemma argmax_is_first_maximum_witness :
  ∃ m, [1; 3; 3; 2]%R !! 1 = Some m
       ∧ (∀ j x, [1; 3; 3; 2]%R !! j = Some x -> (x <= m)%R)
       ∧ (∀ j x, j < 1 -> [1; 3; 3; 2]%R !! j = Some x -> (x < m)%R).
Proof.
  apply argmax_is_first_maximum.
  unfold argmax, argmax_from, sltb. simpl. unfold Rltb.
  repeat match goal with
         | |- context [Rlt_dec ?a ?b] => destruct (Rlt_dec a b); try lra
         end.
  reflexivity.
Defined.

(** The mean loss of the small model on one batch whose targets after the
    first are not all the pad id. *)
Lemma evaluate_loss_is_nonnegative_witness :
  ∃ loss model' w',
    evaluate (example_model 1%R) [example_batch]
      {| CrossEntropyLoss.ignore_index := 1 |} example_world = Some ((loss, model'), w')
    ∧ (0 <= loss)%R.
Proof.
  destruct (evaluate_loss_is_nonnegative (example_model 1%R) [example_batch]
              {| CrossEntropyLoss.ignore_index := 1 |} example_world)
    as (_ & Hpartial & Htotal).
  { apply Forall_singleton. apply Exists_cons_hd, Exists_cons_tl, Exists_cons_hd.
    simpl. lia. }
  destruct Htotal as [[[loss model'] w'] Hrun].
  { solve_example. }
  { discriminate. }
  { apply Forall_singleton. exists 2, 3, 2. solve_example. }
  exists loss, model', w'. split; [exact Hrun|]. exact (Hpartial _ _ _ Hrun).
Defined.

(** A batch whose only target after the first is the pad id. *)
Lemma loss_of_all_padding_witness :
  loss_of {| CrossEntropyLoss.ignore_index := 1 |} 2 (example_scores 5 7) [[0]; [1]]
  = Some (0 / INR 0)%R.
Proof.
  change (loss_of {| CrossEntropyLoss.ignore_index := 1 |} 2 (example_scores 5 7)
            [[0]; [1]] = Some (sdiv s0 (sofnat 0))).
  apply (loss_of_all_padding {| CrossEntropyLoss.ignore_index := 1 |} 2
           (example_scores 5 7) [[0]; [1]]); solve_example.
Defined.

(** Class 5 against scores for two classes. *)
Lemma cross_entropy_refuses_unknown_class_witness :
  CrossEntropyLoss.forward {| CrossEntropyLoss.ignore_index := 1 |} [[0; 0]%R] [5] = None.
Proof.
  apply (cross_entropy_refuses_unknown_class _ _ _ 0 [0; 0]%R 5);
    [reflexivity | reflexivity | simpl; lia | simpl; lia].
Defined.

(** The small instance is still well-formed after initialisation. *)
Lemma apply_init_weights_keeps_shapes_witness :
  Seq2Seq.wf (apply_init_weights INR 0 (example_model 1%R)).1.
Proof.
  apply apply_init_weights_keeps_shapes. solve_example.
Defined.

(** The attention weights of the second sentence of the small instance. *)
Lemma attention_weights_per_batch_element_witness :
  ∃ a scores,
    Attention.forward (example_attention 1%R) [[1]; [2]]%R (zeros3 2 2 2) = Some a
    ∧ a !! 1 = Some (softmax scores) ∧ length scores = 2.
Proof.
  destruct (attention_weights_per_batch_element (example_attention 1%R) 2 2
              [[1]; [2]]%R (zeros3 2 2 2) 1 [2%R])
    as (a & scores & Hrun & Hrow & Hlen & _); [solve_example ..|].
  exists a, scores. split; [exact Hrun|]. split; [exact Hrow | exact Hlen].
Defined.

(** The context of the second sentence of the small instance. *)
Lemma context_is_weighted_sum_witness :
  ∃ ctx c_b,
    Decoder._weighted_encoder_rep (example_decoder 1%R) [[1]; [2]]%R (zeros3 2 2 2)
      = Some [ctx]
    ∧ ctx !! 1 = Some c_b.
Proof.
  destruct (context_is_weighted_sum (example_decoder 1%R) 2 2 [[1]; [2]]%R
              (zeros3 2 2 2) 1)
    as (a & a_b & ctx & c_b & _ & _ & Hrep & Hrow & _); [solve_example ..|].
  exists ctx, c_b. split; [exact Hrep | exact Hrow].
Defined.

(** ** The calls that evaluation makes *)

Section EvaluateCalls.
Context {F : Type} {SF : Scalar F}.

Lemma encoder_calls_app (evs1 evs2 : list (Event F)) :
  encoder_calls (evs1 ++ evs2) = encoder_calls evs1 ++ encoder_calls evs2.
Proof. unfold encoder_calls. apply omap_app. Qed.

(** The decoding loop calls neither the driver nor the encoder. *)
Lemma loop_calls (self : Seq2Seq.t F) trg ratio eo ts :
  ∀ st w st' w',
    foldM (Seq2Seq.loop_body self trg ratio eo) st ts w = Some (st', w') ->
    ∃ evs, trace w' = trace w ++ evs
           ∧ driver_calls evs = [] ∧ encoder_calls evs = [].
Proof.
  induction ts as [|t ts IH]; intros st w st' w' H; simpl in H.
  - injection H as <- <-. exists []. by rewrite app_nil_r.
  - inv_bind H st1 w1 Hb.
    destruct (IH _ _ _ _ H) as (evs & Htr & Hdc & Hec).
    destruct st as [[outs inp] h]. unfold Seq2Seq.loop_body in Hb.
    inv_bind Hb oh w2 Hd. destruct oh as [logits h2].
    apply Decoder_forward_world in Hd as (_ & _ & _ & _ & Hd5).
    inv_lift Hb outs2 Hset. inv_bind Hb d w3 Hr. injection Hr as <- <-.
    inv_lift Hb top1 Htop.
    inv_bind Hb nxt w4 Hn.
    assert (trace w4 = trace w2 ++ [EvRandom (uf_val (py_random w2 (py_pos w2)))])
      as Htr4.
    { destruct (Qltb _ ratio).
      - by apply lift_inv in Hn as (? & _ & [= _ ->]).
      - by injection Hn as _ <-. }
    injection Hb as <- <-.
    exists ([EvDecoder inp logits; EvRandom (uf_val (py_random w2 (py_pos w2)))] ++ evs).
    split; [|split].
    + rewrite Htr, Htr4, Hd5. by rewrite <- !app_assoc.
    + by rewrite driver_calls_app, Hdc.
    + by rewrite encoder_calls_app, Hec.
Qed.

(** One call of the driver is one call of the encoder, on the source batch
    of the call. *)
Lemma forward_calls (self : Seq2Seq.t F) src trg ratio w outputs w' :
  Seq2Seq.forward self src trg ratio w = Some (outputs, w') ->
  ∃ evs, trace w' = trace w ++ evs
         ∧ driver_calls evs = [(ratio, grad_enabled w)]
         ∧ encoder_calls evs = [src]
         ∧ grad_enabled w' = grad_enabled w.
Proof.
  intros H. pose proof (forward_trace _ _ _ _ _ _ _ H) as (_ & _ & _ & Hg).
  apply forward_inv in H
    as (w0 & eo & h & w1 & row0 & inp' & h' & He & Henc & _ & Hloop).
  apply Encoder_forward_world in Henc.
  apply loop_calls in Hloop as (evs & Htr & Hdc & Hec).
  destruct He as (_ & _ & _ & _ & He5). destruct Henc as (_ & _ & _ & _ & Hn5).
  exists (EvDriver ratio (grad_enabled w) :: EvEncoder src :: evs).
  split; [|split; [|split]].
  - rewrite Htr, Hn5, He5. by rewrite <- !app_assoc.
  - change (driver_calls (EvDriver ratio (grad_enabled w) :: EvEncoder src :: evs))
      with ((ratio, grad_enabled w) :: driver_calls evs).
    by rewrite Hdc.
  - change (encoder_calls (EvDriver ratio (grad_enabled w) :: EvEncoder src :: evs))
      with (src :: encoder_calls evs).
    by rewrite Hec.
  - exact Hg.
Qed.

Lemma evaluate_loop_calls (model : Seq2Seq.t F) (criterion : CrossEntropyLoss.t)
    (iterator : list Batch) :
  ∀ acc w acc' w',
    grad_enabled w = false ->
    foldM (evaluate_body model criterion) acc iterator w = Some (acc', w') ->
    ∃ evs, trace w' = trace w ++ evs
           ∧ driver_calls evs = replicate (length iterator) (0%Q, false)
           ∧ encoder_calls evs = map src iterator.
Proof.
  induction iterator as [|b it IH]; intros acc w acc' w' Hg H; simpl in H.
  - injection H as <- <-. exists []. by rewrite app_nil_r.
  - inv_bind H acc1 w1 Hb. unfold evaluate_body in Hb.
    inv_bind Hb output w2 Hf. inv_lift Hb loss Hl. injection Hb as <- <-.
    apply forward_calls in Hf as (evs1 & Htr1 & Hdc1 & Hec1 & Hg1).
    assert (Hg' : grad_enabled w2 = false) by congruence.
    destruct (IH _ _ _ _ Hg' H) as (evs2 & Htr2 & Hdc2 & Hec2).
    exists (evs1 ++ evs2). split; [|split].
    + rewrite Htr2, Htr1. by rewrite <- app_assoc.
    + rewrite driver_calls_app, Hdc1, Hdc2, Hg. done.
    + rewrite encoder_calls_app, Hec1, Hec2. done.
Qed.

(** X18. Whenever [evaluate] returns, the trace shows one call of the
    driver per batch, each with teacher-forcing ratio 0 and with gradient
    recording off whatever the mode was before, and one call of the encoder
    per batch, on the source batches in the order of the iterator; the
    gradient mode is left as the call found it.  On a non-empty iterator
    of valid batches [evaluate] does return. *)
Theorem evaluate_runs_driver_once_per_batch (model : Seq2Seq.t F)
    (iterator : list Batch) (criterion : CrossEntropyLoss.t) (w : World F) :
  (∀ loss model' w',
     evaluate model iterator criterion w = Some ((loss, model'), w') ->
     grad_enabled w' = grad_enabled w
     ∧ ∃ evs, trace w' = trace w ++ evs
              ∧ driver_calls evs = replicate (length iterator) (0%Q, false)
              ∧ encoder_calls evs = map src iterator)
  ∧ (Seq2Seq.wf model -> iterator ≠ [] ->
     Forall (valid_batch model) iterator ->
     is_Some (evaluate model iterator criterion w)).
Proof.
  split; [|apply evaluate_total].
  intros loss model' w' H. unfold evaluate in H.
  inv_bind H prev w0 Hp. injection Hp as <- <-.
  inv_bind H u w1 Hs. injection Hs as _ <-.
  inv_bind H epoch_loss w2 Hloop.
  inv_bind H u' w3 Hr. injection Hr as _ <-.
  case_decide; [by apply lift_inv in H as (? & ? & ?)|].
  injection H as <- <- <-.
  apply evaluate_loop_calls in Hloop as (evs & Htr & Hdc & Hec); [|done].
  split; [done|]. exists evs. done.
Qed.
End EvaluateCalls.

(** Evaluation of the small model on two batches, from a world that
    records gradients. *)
Lemma evaluate_runs_driver_once_per_batch_witness :
  ∃ loss model' w',
    evaluate (example_model 1%R)
      [example_batch; {| src := example_src; trg := example_trg' |}]
      {| CrossEntropyLoss.ignore_index := 1 |} example_world = Some ((loss, model'), w')
    ∧ grad_enabled w' = true
    ∧ driver_calls (trace w') = [(0%Q, false); (0%Q, false)]
    ∧ encoder_calls (trace w') = [example_src; example_src].
Proof.
  destruct (evaluate_runs_driver_once_per_batch (example_model 1%R)
              [example_batch; {| src := example_src; trg := example_trg' |}]
              {| CrossEntropyLoss.ignore_index := 1 |} example_world)
    as [Hpartial Htotal].
  destruct Htotal as [[[loss model'] w'] Hrun].
  { solve_example. }
  { discriminate. }
  { apply Forall_cons. split; [exists 2, 3, 2; solve_example|].
    apply Forall_singleton. exists 2, 3, 2. solve_example. }
  destruct (Hpartial loss model' w' Hrun) as (Hg & evs & Htr & Hcalls & Hencs).
  exists loss, model', w'. split; [exact Hrun|]. split; [exact Hg|].
  rewrite Htr. split; [exact Hcalls | exact Hencs].
Defined.
